(** * Range-addressed transfer engine of the storage service

    A shallow embedding of the chunked transfer code of the file service
    ([uploadFileParallel], [GetFileDataRange], [DownloadFileParallel],
    [UploadFile]) and of the HTTP range parser ([parseRange]), followed by
    the properties established about them.

    Go's [int64] is a [Z] reduced by [wrap64] after every arithmetic
    operation; a run-time panic and a returned [error] are separate
    results of an [outcome]. *)

From Stdlib Require Import ZArith Lia List Strings.Byte Ascii String.
From stdpp Require Import base gmap strings list pretty.

Local Open Scope Z_scope.

(* ===================================================================== *)
(** * Part I. The program *)
(* ===================================================================== *)

(** ** Machine integers *)

Module Int64.

Definition min_int64 : Z := - 2 ^ 63.
Definition max_int64 : Z := 2 ^ 63 - 1.

(** Two's complement reduction of a mathematical integer to 64 bits. *)
Definition wrap64 (z : Z) : Z := (z + 2 ^ 63) mod 2 ^ 64 - 2 ^ 63.

Definition add64 (a b : Z) : Z := wrap64 (a + b).
Definition sub64 (a b : Z) : Z := wrap64 (a - b).
Definition mul64 (a b : Z) : Z := wrap64 (a * b).
(** Go's [/] on integers truncates toward zero. *)
Definition quot64 (a b : Z) : Z := wrap64 (Z.quot a b).

Definition in_int64 (z : Z) : Prop := min_int64 <= z <= max_int64.

End Int64.
Export Int64.

(** ** Errors, panics and results *)

(** The error values of the service: the sentinels declared at the top of
    the file service, [errors.New]/[fmt.Errorf] without [%w], and
    [fmt.Errorf] with one [%w] between the text before and after it, which
    keeps the wrapped error reachable. *)
Inductive error : Type :=
| errFileTooLarge
| errInvalidFile
| errAccessDenied
| errFileNotFound
| errS3Operation
| errDatabaseError
| io_EOF
| io_ErrClosedPipe
| ErrorsNew (msg : string)
| Errorf (pre : string) (inner : error) (post : string).

(** [err.Error()]. *)
Fixpoint error_text (e : error) : string :=
  match e with
  | errFileTooLarge => "file size exceeds maximum allowed size"
  | errInvalidFile => "invalid file"
  | errAccessDenied => "access denied"
  | errFileNotFound => "file not found"
  | errS3Operation => "s3 operation failed"
  | errDatabaseError => "database operation failed"
  | io_EOF => "EOF"
  | io_ErrClosedPipe => "io: read/write on closed pipe"
  | ErrorsNew msg => msg
  | Errorf pre inner post => pre +:+ error_text inner +:+ post
  end.

(** [errors.Is]: walk the chain of wrapped errors. *)
Fixpoint errors_Is (e target : error) : bool :=
  match e, target with
  | errFileTooLarge, errFileTooLarge => true
  | errInvalidFile, errInvalidFile => true
  | errAccessDenied, errAccessDenied => true
  | errFileNotFound, errFileNotFound => true
  | errS3Operation, errS3Operation => true
  | errDatabaseError, errDatabaseError => true
  | io_EOF, io_EOF => true
  | io_ErrClosedPipe, io_ErrClosedPipe => true
  | Errorf _ inner _, _ => errors_Is inner target
  | _, _ => false
  end.

(** [strings.Contains]. *)
Fixpoint strings_Contains (s substr : string) : bool :=
  String.prefix substr s ||
  match s with
  | EmptyString => false
  | String _ rest => strings_Contains rest substr
  end.

Inductive panic : Type :=
| MakechanSizeOutOfRange
| IntegerDivideByZero
| NilPointerDereference.

Inductive outcome (A : Type) : Type :=
| Done (a : A)
| Failed (e : error)
| Panicked (p : panic).
Arguments Done {A} a.
Arguments Failed {A} e.
Arguments Panicked {A} p.

Definition obind {A B : Type} (o : outcome A) (k : A -> outcome B) : outcome B :=
  match o with
  | Done a => k a
  | Failed e => Failed e
  | Panicked p => Panicked p
  end.

#[global] Instance outcome_ret : MRet outcome := fun A a => Done a.
#[global] Instance outcome_bind : MBind outcome := fun A B k o => obind o k.

(** [make(chan T, size)] panics on a negative size. The model takes
    memory to be unbounded: a non-negative size always allocates. *)
Definition makechan (size : Z) : outcome Z :=
  if size <? 0 then Panicked MakechanSizeOutOfRange else Done size.

(** ** Chunk descriptors and results *)

Record ChunkInfo : Type := mkChunkInfo {
  Start : Z;
  End : Z;
  Data : list byte;
  Complete : bool;
  Error : option error
}.

(** ** The chunk planner *)

Module Planner.

Definition defaultChunkSize : Z := 5 * 1024 * 1024.
Definition chunkSize : Z := 10 * 1024 * 1024.

(** [(totalSize + chunkSize - 1) / chunkSize], as both transfer
    directions compute it; [cs] stands for the chunk-size constant. *)
Definition numChunks_of (cs totalSize : Z) : Z :=
  quot64 (sub64 (add64 totalSize cs) 1) cs.

(** Body of the planning loop of [DownloadFileParallel] at index [i]. *)
Definition chunk_bounds (cs totalSize i : Z) : ChunkInfo :=
  let start := mul64 i cs in
  let end_ := add64 start cs in
  let end_ := if end_ >? totalSize then totalSize else end_ in
  {| Start := start; End := sub64 end_ 1;
     Data := []; Complete := false; Error := None |}.

(** [for i := int64(0); i < numChunks; i++ { chunks <- ... }] started
    at [i]; every iteration consumes one unit of [fuel]. *)
Fixpoint for_chunks (cs totalSize numChunks : Z) (fuel : nat) (i : Z)
  : list ChunkInfo :=
  match fuel with
  | O => []
  | S fuel' =>
      if i <? numChunks
      then chunk_bounds cs totalSize i
             :: for_chunks cs totalSize numChunks fuel' (add64 i 1)
      else []
  end.

(** The planning part of [DownloadFileParallel]: the chunk count, the
    two channels sized by it, and the descriptors queued on [chunks]. *)
Definition download_plan (cs totalSize : Z) : outcome (list ChunkInfo) :=
  if cs =? 0 then Panicked IntegerDivideByZero else
  let numChunks := numChunks_of cs totalSize in
  _ ← makechan numChunks;
  _ ← makechan numChunks;
  Done (for_chunks cs totalSize numChunks (Z.to_nat numChunks) 0).

Definition DownloadFileParallel_plan (totalSize : Z) : outcome (list ChunkInfo) :=
  download_plan defaultChunkSize totalSize.

(** What an upload worker derives from its chunk number. *)
Record UploadSlice : Type := mkUploadSlice {
  chunkNum : Z;
  offset : Z;
  size : Z
}.

Definition slice_end (u : UploadSlice) : Z := offset u + size u - 1.

Definition slice_bounds (cs totalSize chunkNum : Z) : UploadSlice :=
  let offset := mul64 chunkNum cs in
  let size :=
    if add64 offset cs >? totalSize then sub64 totalSize offset else cs in
  {| chunkNum := chunkNum; offset := offset; size := size |}.

Fixpoint for_slices (cs totalSize chunks : Z) (fuel : nat) (i : Z)
  : list UploadSlice :=
  match fuel with
  | O => []
  | S fuel' =>
      if i <? chunks
      then slice_bounds cs totalSize i
             :: for_slices cs totalSize chunks fuel' (add64 i 1)
      else []
  end.

(** The planning part of [uploadFileParallel]: the chunk count, the
    [errors] channel sized by it, and one slice per started worker. *)
Definition upload_plan (cs totalSize : Z) : outcome (list UploadSlice) :=
  if cs =? 0 then Panicked IntegerDivideByZero else
  let chunks := numChunks_of cs totalSize in
  _ ← makechan chunks;
  Done (for_slices cs totalSize chunks (Z.to_nat chunks) 0).

Definition uploadFileParallel_plan (totalSize : Z) : outcome (list UploadSlice) :=
  upload_plan chunkSize totalSize.

End Planner.

(** ** The pipe between the reassembly goroutine and the reader *)

Module Pipe.

(** What the reader observes once the written bytes are consumed. *)
Inductive ending : Type :=
| EOF                      (* after [pw.Close()], that is [CloseWithError(nil)] *)
| WithError (e : error).   (* after [pw.CloseWithError(e)] *)

Record pipe : Type := mkPipe {
  writes : list (list byte);   (* payload of every completed [pw.Write] *)
  wclosed : option ending;     (* set when the write side is closed *)
  rclosed : option error       (* set when the read side is closed: what a writer gets back *)
}.

Definition io_Pipe : pipe := {| writes := []; wclosed := None; rclosed := None |}.

Definition pw_Write (data : list byte) (p : pipe) : pipe * option error :=
  match rclosed p with
  | Some e => (p, Some e)
  | None => ({| writes := writes p ++ [data]; wclosed := wclosed p;
                rclosed := rclosed p |}, None)
  end.

(** [pw.Close()]; a first close is never overwritten. *)
Definition pw_Close (p : pipe) : pipe :=
  match wclosed p with
  | Some _ => p
  | None => {| writes := writes p; wclosed := Some EOF; rclosed := rclosed p |}
  end.

(** The bytes a reader receives before it observes the ending. *)
Definition stream (p : pipe) : list byte := concat (writes p).

End Pipe.

(** ** The reassembly goroutine of [DownloadFileParallel] *)

Module Sink.
Import Pipe.

Record sink : Type := mkSink {
  assembledData : gmap Z (list byte);
  currentOffset : Z;
  pw : pipe;
  errors : list error     (* contents of the [errors] channel, never received from *)
}.

Definition start (p : pipe) : sink :=
  {| assembledData := ∅; currentOffset := 0; pw := p; errors := [] |}.

Inductive flow : Type := Continue | Return.

(** The inner [for { if data, ok := assembledData[currentOffset]; ok
    {...} else { break } }]. Every iteration deletes one entry of the
    map, so the size of the map bounds the number of iterations. *)
Fixpoint write_in_order (fuel : nat) (s : sink) : flow * sink :=
  match fuel with
  | O => (Continue, s)
  | S fuel' =>
      match assembledData s !! currentOffset s with
      | Some data =>
          match pw_Write data (pw s) with
          | (p', Some err) =>
              (Return, {| assembledData := assembledData s;
                          currentOffset := currentOffset s;
                          pw := p'; errors := errors s ++ [err] |})
          | (p', None) =>
              write_in_order fuel'
                {| assembledData := delete (currentOffset s) (assembledData s);
                   currentOffset :=
                     add64 (currentOffset s) (Z.of_nat (length data));
                   pw := p'; errors := errors s |}
          end
      | None => (Continue, s)
      end
  end.

(** [<-results]: the next queued result, or the zero value once the
    channel is closed and drained. *)
Definition recv (results : list ChunkInfo) : ChunkInfo * list ChunkInfo :=
  match results with
  | r :: rest => (r, rest)
  | [] => (mkChunkInfo 0 0 [] false None, [])
  end.

(** One iteration of the receive loop. *)
Definition accept (result : ChunkInfo) (s : sink) : flow * sink :=
  match Error result with
  | Some err =>
      (Return, {| assembledData := assembledData s;
                  currentOffset := currentOffset s;
                  pw := pw s; errors := errors s ++ [err] |})
  | None =>
      let stored := <[Start result := Data result]> (assembledData s) in
      write_in_order (size stored)
        {| assembledData := stored; currentOffset := currentOffset s;
           pw := pw s; errors := errors s |}
  end.

(** [for i := int64(0); i < numChunks; i++ { result := <-results; ... }]
    with [iters] iterations left. *)
Fixpoint receive_results (iters : nat) (results : list ChunkInfo) (s : sink) : sink :=
  match iters with
  | O => s
  | S iters' =>
      let (result, rest) := recv results in
      match accept result s with
      | (Return, s') => s'
      | (Continue, s') => receive_results iters' rest s'
      end
  end.

(** The whole goroutine after the descriptors are queued: the receive
    loop followed by the deferred [pw.Close()]. [results] lists the
    results in the order the channel delivers them. *)
Definition sink_goroutine (numChunks : Z) (results : list ChunkInfo) (p : pipe) : sink :=
  let s := receive_results (Z.to_nat numChunks) results (start p) in
  {| assembledData := assembledData s; currentOffset := currentOffset s;
     pw := pw_Close (pw s); errors := errors s |}.

End Sink.

(** ** Collaborators of the transfer code *)

(** Everything the transfer code does to the outside, in program order. *)
Inductive effect : Type :=
| CtxWithTimeout (d : Z)                         (* [context.WithTimeout(ctx, d)], nanoseconds *)
| Sleep (d : Z)                                  (* [time.Sleep(d)], nanoseconds *)
| CallGetFileDataRange (start end_ : Z)          (* a worker calling [GetFileDataRange] *)
| S3GetObjectRange (key : string) (start end_ : Z)
| S3UploadBytes (key : string) (data : list byte)
| S3UploadFile (key : string)
| S3DeleteObject (key : string)
| RepoCall (name : string)                       (* a call into the relational store *)
| FileReadAt (offset size : Z).

Definition second : Z := 1000000000.

Inductive MetaValue : Type :=
| MetaString (s : string)
| MetaOther.

Record File : Type := mkFile {
  UUID : string;
  Name : string;
  OwnerID : string;
  SizeBytes : Z;
  FolderID : Z;
  CurrentVersion : Z;
  Metadata : option (gmap string MetaValue)   (* [None] is the nil map *)
}.

(** An [io.ReadCloser] over an object body: the bytes it yields and the
    error, if any, that ends the reading instead of [io.EOF]. *)
Record Reader : Type := mkReader {
  body : list byte;
  read_err : option error
}.

(** The relational store and the object store as one call of
    [GetFileDataRange] finds them. *)
Record World : Type := mkWorld {
  GetFileInfo : File + error;
  GetObjectRange : string -> Z -> Z -> Reader + error
}.

(** ** [GetFileDataRange] *)

Module RangeRead.

Definition standard_key (file : File) (fileUUID : string) : string :=
  "personal_drive_files/" +:+ OwnerID file +:+ "/" +:+ fileUUID.

Definition alternative_key (file : File) : string :=
  "recordings/personal_recordings/" +:+ OwnerID file +:+ "/" +:+ Name file.

(** [file.Metadata["s3Path"].(string)] when present and non-empty. *)
Definition metadata_s3Path (file : File) : string :=
  match Metadata file with
  | Some m =>
      match m !! "s3Path" with
      | Some (MetaString path) => path
      | _ => ""
      end
  | None => ""
  end.

(** The clamping and the one rejection of the range check. *)
Definition check_range (sizeBytes start end_ : Z) : (Z * Z) + error :=
  let start := if start <? 0 then 0 else start in
  let end_ := if end_ >=? sizeBytes then sub64 sizeBytes 1 else end_ in
  if start >? end_
  then inr (ErrorsNew ("некорректный диапазон: start=" +:+ pretty start
                         +:+ ", end=" +:+ pretty end_))
  else inl (start, end_).

Definition GetFileDataRange (w : World) (fileUUID : string) (start end_ : Z)
  : list effect * (Reader + error) :=
  match GetFileInfo w with
  | inr err =>
      ([RepoCall "GetFileInfo"],
       if strings_Contains (error_text err) "access denied"
       then inr (Errorf "доступ запрещен: " err "")
       else inr (Errorf "ошибка получения информации о файле: " err ""))
  | inl file =>
      match check_range (SizeBytes file) start end_ with
      | inr err => ([RepoCall "GetFileInfo"], inr err)
      | inl (start, end_) =>
          let s3Key :=
            if String.eqb (metadata_s3Path file) ""
            then standard_key file fileUUID
            else metadata_s3Path file in
          match GetObjectRange w s3Key start end_ with
          | inl data =>
              ([RepoCall "GetFileInfo"; S3GetObjectRange s3Key start end_],
               inl data)
          | inr err =>
              if strings_Contains (error_text err) "not found"
                 || strings_Contains (error_text err) "NoSuchKey"
              then
                let alternativePath := alternative_key file in
                match GetObjectRange w alternativePath start end_ with
                | inr err' =>
                    ([RepoCall "GetFileInfo"; S3GetObjectRange s3Key start end_;
                      S3GetObjectRange alternativePath start end_],
                     inr (Errorf "ошибка получения данных из S3: " err' ""))
                | inl data =>
                    ([RepoCall "GetFileInfo"; S3GetObjectRange s3Key start end_;
                      S3GetObjectRange alternativePath start end_;
                      RepoCall "Update"],
                     inl data)
                end
              else
                ([RepoCall "GetFileInfo"; S3GetObjectRange s3Key start end_],
                 inr (Errorf "ошибка получения данных из S3: " err ""))
          end
      end
  end.

End RangeRead.

(** ** The download workers *)

Module Workers.
Import RangeRead Sink.

Definition maxWorkers : Z := 5.
Definition maxRetries : Z := 3.

(** The variables [data] and [err] of the worker body. *)
Record fetched : Type := mkFetched {
  data : option Reader;
  err : option error
}.

(** [for retry := 0; retry < maxRetries; retry++ { ...; if err == nil
    { break }; time.Sleep(time.Second * time.Duration(retry+1)) }].
    [worlds retry] is the outside as attempt [retry] finds it. *)
Fixpoint retry_fetch (worlds : Z -> World) (fileUUID : string) (chunk : ChunkInfo)
    (fuel : nat) (retry : Z) (prev : fetched) : list effect * fetched :=
  match fuel with
  | O => ([], prev)
  | S fuel' =>
      if retry <? maxRetries then
        let called := CallGetFileDataRange (Start chunk) (End chunk) in
        match GetFileDataRange (worlds retry) fileUUID (Start chunk) (End chunk) with
        | (log, inl reader) => (called :: log, {| data := Some reader; err := None |})
        | (log, inr e) =>
            let pause := Sleep (mul64 second (add64 retry 1)) in
            let (log', r) :=
              retry_fetch worlds fileUUID chunk fuel' (add64 retry 1)
                {| data := None; err := Some e |} in
            (called :: log ++ pause :: log', r)
        end
      else ([], prev)
  end.

(** How the body of [for chunk := range chunks] ends for one chunk. *)
Inductive chunk_end : Type :=
| Sent (result : ChunkInfo) (next : flow)   (* one send on [results] *)
| Crash (p : panic).

Definition error_result (e : error) : ChunkInfo :=
  mkChunkInfo 0 0 [] false (Some e).

(** [io.Copy(buffer, data)], [data.Close()] and the send that follows. *)
Definition deliver (chunk : ChunkInfo) (reader : Reader) : chunk_end :=
  match read_err reader with
  | Some e => Sent (error_result e) Return
  | None =>
      Sent (mkChunkInfo (Start chunk) (End chunk) (body reader) false None) Continue
  end.

Definition process_chunk (worlds : Z -> World) (fileUUID : string) (chunk : ChunkInfo)
  : list effect * chunk_end :=
  let (log, f) :=
    retry_fetch worlds fileUUID chunk (Z.to_nat maxRetries) 0
      {| data := None; err := None |} in
  let log := CtxWithTimeout (mul64 30 second) :: log in
  match err f with
  | Some e => (log, Sent (error_result e) Return)
  | None =>
      match data f with
      | None => (log, Crash NilPointerDereference)
      | Some reader => (log, deliver chunk reader)
      end
  end.

Inductive wstate : Type :=
| Idle
| Busy (c : ChunkInfo)
| Exited.

(** The five worker goroutines, the [chunks] channel (closed, holding
    the descriptors not yet taken) and the [results] channel. Both
    channels have room for every descriptor, so no send ever blocks and
    the queue can be taken as filled and closed from the start.
    [served] remembers which descriptor each result was sent for. *)
Record pool : Type := mkPool {
  queue : list ChunkInfo;
  workers : list wstate;
  results : list ChunkInfo;
  served : list (ChunkInfo * ChunkInfo);
  trace : list effect;
  crashed : option panic
}.

Definition start_pool (plan : list ChunkInfo) : pool :=
  {| queue := plan; workers := replicate (Z.to_nat maxWorkers) Idle;
     results := []; served := []; trace := []; crashed := None |}.

(** One scheduling step of worker [w]: an idle worker takes the next
    descriptor or leaves its [range] loop on the drained channel; a busy
    worker finishes its chunk. [worlds c retry] is the outside as attempt
    [retry] for descriptor [c] finds it. *)
Definition step (worlds : ChunkInfo -> Z -> World) (fileUUID : string)
    (p : pool) (w : nat) : pool :=
  match crashed p, workers p !! w with
  | None, Some Idle =>
      match queue p with
      | c :: q =>
          {| queue := q; workers := <[w := Busy c]> (workers p);
             results := results p; served := served p; trace := trace p;
             crashed := None |}
      | [] =>
          {| queue := []; workers := <[w := Exited]> (workers p);
             results := results p; served := served p; trace := trace p;
             crashed := None |}
      end
  | None, Some (Busy c) =>
      match process_chunk (worlds c) fileUUID c with
      | (log, Sent r next) =>
          {| queue := queue p;
             workers := <[w := match next with Continue => Idle | Return => Exited end]>
                          (workers p);
             results := results p ++ [r]; served := served p ++ [(c, r)];
             trace := trace p ++ log; crashed := None |}
      | (log, Crash pn) =>
          {| queue := queue p; workers := workers p;
             results := results p; served := served p;
             trace := trace p ++ log; crashed := Some pn |}
      end
  | _, _ => p
  end.

Definition run_pool (worlds : ChunkInfo -> Z -> World) (fileUUID : string)
    (sched : list nat) (p : pool) : pool :=
  foldl (step worlds fileUUID) p sched.

Definition quiescent (p : pool) : Prop :=
  forall w st, workers p !! w = Some st -> st = Exited.

End Workers.

(** ** The HTTP range parser of the file handler *)

Module RangeHeader.

Definition strings_HasPrefix (s prefix : string) : bool := String.prefix prefix s.

Definition strings_TrimPrefix (s prefix : string) : string :=
  if strings_HasPrefix s prefix
  then String.substring (String.length prefix) (String.length s - String.length prefix) s
  else s.

(** [strings.Split(s, sep)] for a separator of one byte. *)
Fixpoint strings_Split (s : string) (sep : ascii) : list string :=
  match s with
  | EmptyString => [EmptyString]
  | String c rest =>
      match strings_Split rest sep with
      | h :: t => if Ascii.eqb c sep then EmptyString :: h :: t else String c h :: t
      | [] => [String c EmptyString]
      end
  end.

(** The UTF-8 encodings of the code points [unicode.IsSpace] accepts:
    tab, LF, VT, FF, CR, space, U+0085, U+00A0, U+1680, U+2000..U+200A,
    U+2028, U+2029, U+202F, U+205F, U+3000. *)
Definition space_runes : list (list nat) :=
  [ [9]; [10]; [11]; [12]; [13]; [32]; [194; 133]; [194; 160];
    [225; 154; 128];
    [226; 128; 128]; [226; 128; 129]; [226; 128; 130]; [226; 128; 131];
    [226; 128; 132]; [226; 128; 133]; [226; 128; 134]; [226; 128; 135];
    [226; 128; 136]; [226; 128; 137]; [226; 128; 138];
    [226; 128; 168]; [226; 128; 169]; [226; 128; 175];
    [226; 129; 159]; [227; 128; 128] ]%nat.

Fixpoint strip_bytes (pat : list nat) (s : list ascii) : option (list ascii) :=
  match pat, s with
  | [], _ => Some s
  | b :: pat', c :: s' =>
      if Nat.eqb (nat_of_ascii c) b then strip_bytes pat' s' else None
  | _ :: _, [] => None
  end.

(** The rest of [s] after one leading white-space rune taken from [runes]. *)
Fixpoint strip_one (runes : list (list nat)) (s : list ascii) : option (list ascii) :=
  match runes with
  | [] => None
  | r :: runes' =>
      match strip_bytes r s with
      | Some rest => Some rest
      | None => strip_one runes' s
      end
  end.

Fixpoint trim_leading (runes : list (list nat)) (fuel : nat) (s : list ascii) : list ascii :=
  match fuel with
  | O => s
  | S fuel' =>
      match strip_one runes s with
      | Some rest => trim_leading runes fuel' rest
      | None => s
      end
  end.

Definition strings_TrimSpace (s : string) : string :=
  let l := list_ascii_of_string s in
  let l := trim_leading space_runes (length l) l in
  let r := trim_leading (map (@rev nat) space_runes) (length l) (rev l) in
  string_of_list_ascii (rev r).

Definition digit_of (c : ascii) : option Z :=
  let n := Z.of_nat (nat_of_ascii c) in
  if (48 <=? n) && (n <=? 57) then Some (n - 48) else None.

(** The two errors of [strconv]; their text leaves out the quoted input. *)
Definition errSyntax : error := ErrorsNew "strconv.ParseInt: invalid syntax".
Definition errRange : error := ErrorsNew "strconv.ParseInt: value out of range".

(** [strconv.ParseUint(s, 10, 64)] on the digits after the sign. *)
Fixpoint parse_digits (s : string) (acc : Z) : Z + error :=
  match s with
  | EmptyString => inl acc
  | String c rest =>
      match digit_of c with
      | None => inr errSyntax
      | Some d =>
          let acc' := acc * 10 + d in
          if acc' >? 2 ^ 64 - 1 then inr errRange else parse_digits rest acc'
      end
  end.

(** [strconv.ParseInt(s, 10, 64)]. *)
Definition strconv_ParseInt (s : string) : Z + error :=
  match s with
  | EmptyString => inr errSyntax
  | String c rest =>
      let neg := Ascii.eqb c "-" in
      let digits := if Ascii.eqb c "+" || neg then rest else s in
      match digits with
      | EmptyString => inr errSyntax
      | _ =>
          match parse_digits digits 0 with
          | inr e => inr e
          | inl un =>
              if negb neg && (un >=? 2 ^ 63) then inr errRange
              else if neg && (un >? 2 ^ 63) then inr errRange
              else inl (if neg then wrap64 (- un) else un)
          end
      end
  end.

Definition invalid_format : error := ErrorsNew "invalid range format".
Definition invalid_values : error := ErrorsNew "invalid range values".

(** The [start] and [end] one trimmed, non-empty range spec denotes,
    before they are validated. *)
Definition bounds_of_spec (r : string) (fileSize : Z) : (Z * Z) + error :=
  match strings_Split r "-" with
  | [p0; p1] =>
      if String.eqb p0 "" then
        match strconv_ParseInt p1 with
        | inr e => inr e
        | inl n => inl (sub64 fileSize n, sub64 fileSize 1)
        end
      else
        match strconv_ParseInt p0 with
        | inr e => inr e
        | inl start =>
            if String.eqb p1 "" then inl (start, sub64 fileSize 1)
            else
              match strconv_ParseInt p1 with
              | inr e => inr e
              | inl end_ => inl (start, end_)
              end
        end
  | _ => inr invalid_format
  end.

Definition rejected (fileSize start end_ : Z) : bool :=
  (start <? 0) || (end_ <? 0) || (start >? end_) || (end_ >=? fileSize).

(** The loop over the comma-separated specs. *)
Fixpoint parse_specs (specs : list string) (fileSize : Z) (ranges : list (Z * Z))
  : list (Z * Z) + error :=
  match specs with
  | [] => inl ranges
  | r :: specs' =>
      let r := strings_TrimSpace r in
      if String.eqb r "" then parse_specs specs' fileSize ranges
      else
        match bounds_of_spec r fileSize with
        | inr e => inr e
        | inl (start, end_) =>
            if rejected fileSize start end_ then inr invalid_values
            else parse_specs specs' fileSize (ranges ++ [(start, end_)])
        end
  end.

Definition parseRange (rangeHeader : string) (fileSize : Z) : list (Z * Z) + error :=
  if negb (strings_HasPrefix rangeHeader "bytes=") then inr invalid_format
  else parse_specs (strings_Split (strings_TrimPrefix rangeHeader "bytes=") ",") fileSize [].

(** What the download and the streaming handlers answer. *)
Inductive response : Type :=
| InfoFailed (e : error)                       (* [GetFileInfo] failed: 403 or 500 *)
| RangeNotSatisfiable (msg : string)           (* 416 *)
| DataFailed (status : Z) (e : error)          (* headers sent, then [GetFileDataRange] failed *)
| Streamed (status : Z) (start end_ : Z) (r : Reader).

(** The range handling shared by the download and the streaming
    handler: the header is parsed against the file size, then
    [GetFileDataRange] is called with the bounds found. An empty
    [rangeHeader] is an absent header. The handler and
    [GetFileDataRange] each read the file record; both reads find the
    same record [GetFileInfo w]. *)
Definition serve (w : World) (fileUUID rangeHeader : string) : list effect * response :=
  match GetFileInfo w with
  | inr e => ([RepoCall "GetFileInfo"], InfoFailed e)
  | inl file =>
      let bounds :=
        if String.eqb rangeHeader ""
        then inl (200, 0, sub64 (SizeBytes file) 1)
        else
          match parseRange rangeHeader (SizeBytes file) with
          | inr e => inr (error_text e)
          | inl [(start, end_)] => inl (206, start, end_)
          | inl _ => inr "Multiple ranges not supported"
          end in
      match bounds with
      | inr msg => ([RepoCall "GetFileInfo"], RangeNotSatisfiable msg)
      | inl (status, start, end_) =>
          match RangeRead.GetFileDataRange w fileUUID start end_ with
          | (log, inr e) => (RepoCall "GetFileInfo" :: log, DataFailed status e)
          | (log, inl r) => (RepoCall "GetFileInfo" :: log, Streamed status start end_ r)
          end
      end
  end.

(** The single range a header asks for, as the parser reads it: the
    bounds of its only non-empty spec. *)
Definition requested (rangeHeader : string) (fileSize : Z) : option (Z * Z) :=
  if negb (strings_HasPrefix rangeHeader "bytes=") then None
  else
    match filter (fun r => r <> EmptyString)
            (strings_TrimSpace <$> strings_Split (strings_TrimPrefix rangeHeader "bytes=") ",") with
    | [r] =>
        match bounds_of_spec r fileSize with
        | inl b => Some b
        | inr _ => None
        end
    | _ => None
    end.

Definition is_s3_call (e : effect) : bool :=
  match e with
  | S3GetObjectRange _ _ _ | S3UploadBytes _ _ | S3UploadFile _ | S3DeleteObject _ => true
  | _ => false
  end.

End RangeHeader.

(** ** [uploadFileParallel] *)

Module Upload.
Import Planner.

Definition maxConcurrentUploads : Z := 5.

(** The source file and the object store as the upload finds them.
    [ReadAt offset size] is the buffer of [size] bytes after
    [file.ReadAt(chunk, offset)] and the error of that read;
    [UploadBytes key data] is the error of the put, if any. *)
Record UploadWorld : Type := mkUploadWorld {
  ReadAt : Z -> Z -> list byte * option error;
  UploadBytes : string -> list byte -> option error
}.

Record upload_state : Type := mkUploadState {
  store : gmap string (list byte);   (* objects written by this upload *)
  errors : list error;               (* the [errors] channel *)
  log : list effect
}.

Definition chunk_key (s3Key : string) (chunkNum : Z) : string :=
  s3Key +:+ "/chunk_" +:+ pretty chunkNum.

(** The goroutine started for one chunk number. *)
Definition upload_chunk (w : UploadWorld) (s3Key : string)
    (st : upload_state) (sl : UploadSlice) : upload_state :=
  let (chunk, err) := ReadAt w (offset sl) (size sl) in
  let read_failed :=
    match err with
    | None | Some io_EOF => None
    | Some e => Some e
    end in
  match read_failed with
  | Some e =>
      {| store := store st;
         errors := errors st ++
           [Errorf ("failed to read chunk " +:+ pretty (chunkNum sl) +:+ ": ") e ""];
         log := log st ++ [FileReadAt (offset sl) (size sl)] |}
  | None =>
      let chunkKey := chunk_key s3Key (chunkNum sl) in
      match UploadBytes w chunkKey chunk with
      | Some e =>
          {| store := store st;
             errors := errors st ++
               [Errorf ("failed to upload chunk " +:+ pretty (chunkNum sl) +:+ ": ") e ""];
             log := log st ++ [FileReadAt (offset sl) (size sl);
                               S3UploadBytes chunkKey chunk] |}
      | None =>
          {| store := <[chunkKey := chunk]> (store st);
             errors := errors st;
             log := log st ++ [FileReadAt (offset sl) (size sl);
                               S3UploadBytes chunkKey chunk] |}
      end
  end.

(** The slices in the order [sched] names them by index. *)
Definition in_order (plan : list UploadSlice) (sched : list nat) : list UploadSlice :=
  omap (fun i => plan !! i) sched.

(** [uploadFileParallel]: one goroutine per chunk number, then
    [wg.Wait()], [close(errors)] and the first queued error, if any.
    [sched] is the order in which the goroutines reach their reads and
    puts; the semaphore of [maxConcurrentUploads] slots only delays the
    start of a goroutine and leaves what it does unchanged. [sizes] is
    the chunk-size constant. *)
Definition upload_parallel (sizes : Z) (w : UploadWorld) (s3Key : string)
    (totalSize : Z) (sched : list nat) : outcome (option error * upload_state) :=
  plan ← upload_plan sizes totalSize;
  let st := foldl (upload_chunk w s3Key)
              {| store := ∅; errors := []; log := [] |} (in_order plan sched) in
  Done (head (errors st), st).

Definition uploadFileParallel := upload_parallel chunkSize.

End Upload.

(** ** [UploadFile] *)

Module UploadGate.

Definition maxFileSize : Z := 100 * 1024 * 1024.

Inductive Operation : Type := OperationUpload | OperationEdit.

Record Folder : Type := mkFolder {
  ID : Z;
  FolderOwnerID : string
}.

Record FileHeader : Type := mkFileHeader {
  Filename : string;
  Size : Z;
  ContentType : string
}.

(** The collaborators of [UploadFile], each as the answer it gives. *)
Record Env : Type := mkEnv {
  CheckSpaceAvailable : string -> Z -> bool + error;
  GetRootFolder : string -> Folder + error;
  CreateFolder : string -> Folder + error;
  FolderGetByID : Z -> Folder + error;
  CheckSharedFolderPermission : string -> Z -> Operation -> bool + error;
  CheckFileExists : Z -> string -> option File + error;
  BeginTx : option error;
  S3UploadFile_ : string -> option error;
  S3DeleteObject_ : string -> option error;
  RepoCreate : File -> option error;
  CreateFileVersion : string -> Z -> option error;
  RepoUpdate : File -> option error;
  Commit : option error;
  UpdateUsedSpace : string -> option error;
  uuid_New : string;
  filepath_Clean : string -> string
}.

(** Results carry the effects performed so far. *)
Definition M (A : Type) : Type := list effect * outcome A.

Definition mret {A : Type} (a : A) : M A := ([], Done a).
Definition mbind_ {A B : Type} (m : M A) (k : A -> M B) : M B :=
  match m with
  | (l, Done a) => let (l', r) := k a in (l ++ l', r)
  | (l, Failed e) => (l, Failed e)
  | (l, Panicked p) => (l, Panicked p)
  end.
Definition fail {A : Type} (e : error) : M A := ([], Failed e).
Definition emit (e : effect) : M unit := ([e], Done tt).

#[global] Instance M_ret : MRet M := @mret.
#[global] Instance M_bind : MBind M := fun A B k m => mbind_ m k.

(** A collaborator call answering a value or an error to be wrapped. *)
Definition call {A : Type} (ev : effect) (r : A + error) (pre : string) : M A :=
  _ ← emit ev;
  match r with
  | inl a => mret a
  | inr e => fail (Errorf pre e "")
  end.

Definition call_ (ev : effect) (r : option error) (pre : string) : M unit :=
  _ ← emit ev;
  match r with
  | None => mret tt
  | Some e => fail (Errorf pre e "")
  end.

Definition getRootFolder (env : Env) (ownerID : string) : M Folder :=
  _ ← emit (RepoCall "GetRootFolder");
  match GetRootFolder env ownerID with
  | inl f => mret f
  | inr _ => call (RepoCall "Create") (CreateFolder env ownerID)
               "failed to create root folder: "
  end.

Definition createFileVersion (env : Env) (header : FileHeader)
    (existingFile : File) (ownerID : string) : M File :=
  _ ← call_ (RepoCall "BeginTx") (BeginTx env) "failed to begin transaction: ";
  let s3Key := "personal_drive_files/" +:+ ownerID +:+ "/" +:+ UUID existingFile in
  _ ← call_ (S3UploadFile s3Key) (S3UploadFile_ env s3Key) "failed to upload file: ";
  _ ← emit (RepoCall "CreateFileVersion");
  match CreateFileVersion env (UUID existingFile) (add64 (CurrentVersion existingFile) 1) with
  | Some e =>
      _ ← emit (S3DeleteObject s3Key);
      fail (Errorf "failed to create file version: " e "")
  | None =>
      let updated :=
        mkFile (UUID existingFile) (Name existingFile) (OwnerID existingFile)
          (Size header) (FolderID existingFile)
          (add64 (CurrentVersion existingFile) 1) (Metadata existingFile) in
      _ ← call_ (RepoCall "Update") (RepoUpdate env updated) "failed to update file: ";
      _ ← call_ (RepoCall "Commit") (Commit env) "failed to commit transaction: ";
      mret updated
  end.

(** [fmt.Errorf(pre + "%w", err)] around a failed step. *)
Definition wrapping {A : Type} (pre : string) (m : M A) : M A :=
  match m with
  | (l, Failed e) => (l, Failed (Errorf pre e ""))
  | _ => m
  end.

(** [UploadFile] from the folder lookup on, that is, once the quota,
    the parameters and the size have been accepted. *)
Definition store_upload (env : Env) (h : FileHeader) (folderID : Z)
    (userID : string) : M File :=
  folderID ←
    (if folderID =? 0
     then rootFolder ← wrapping "failed to get root folder: " (getRootFolder env userID);
          mret (ID rootFolder)
     else mret folderID);
  folder ← call (RepoCall "GetByID") (FolderGetByID env folderID)
             "failed to get folder: ";
  _ ← (if String.eqb (FolderOwnerID folder) userID then mret tt
       else
         hasPermission ←
           call (RepoCall "CheckSharedFolderPermission")
             (CheckSharedFolderPermission env userID folderID OperationUpload)
             "failed to check permissions: ";
         if negb hasPermission then fail errAccessDenied else mret tt);
  existingFile ←
    call (RepoCall "CheckFileExists") (CheckFileExists env folderID (Filename h))
      "failed to check file existence: ";
  match existingFile with
  | Some existing =>
      hasPermission ←
        call (RepoCall "CheckSharedFolderPermission")
          (CheckSharedFolderPermission env userID folderID OperationEdit)
          "failed to check edit permissions: ";
      if negb hasPermission && negb (String.eqb (OwnerID existing) userID)
      then fail errAccessDenied
      else createFileVersion env h existing (FolderOwnerID folder)
  | None =>
      let fileUUID := uuid_New env in
      let s3Key := "personal_drive_files/" +:+ FolderOwnerID folder
                     +:+ "/" +:+ fileUUID in
      let contentType :=
        if String.eqb (ContentType h) "" then "application/octet-stream"
        else ContentType h in
      let newFile :=
        mkFile fileUUID (filepath_Clean env (Filename h)) (FolderOwnerID folder)
          (Size h) folderID 1 None in
      _ ← call_ (RepoCall "BeginTx") (BeginTx env) "failed to begin transaction: ";
      _ ← emit (S3UploadFile s3Key);
      match S3UploadFile_ env s3Key with
      | Some e => fail (Errorf "" errS3Operation (": " +:+ error_text e))
      | None =>
          _ ← emit (RepoCall "Create");
          match RepoCreate env newFile with
          | Some e =>
              _ ← emit (S3DeleteObject s3Key);
              fail (Errorf "" errDatabaseError (": " +:+ error_text e))
          | None =>
              _ ← call_ (RepoCall "CreateFileVersion")
                    (CreateFileVersion env fileUUID 1)
                    "failed to create file version: ";
              _ ← call_ (RepoCall "Commit") (Commit env)
                    "failed to commit transaction: ";
              _ ← emit (RepoCall "UpdateUsedSpace");
              mret newFile
          end
      end
  end.

Definition too_large : error :=
  Errorf "" errFileTooLarge (": max size is " +:+ pretty maxFileSize +:+ " bytes").

(** [UploadFile]. [header] and [file] are [None] for nil arguments. *)
Definition UploadFile (env : Env) (header : option FileHeader)
    (file : option (list byte)) (folderID : Z) (userID : string) : M File :=
  match header with
  | None => ([], Panicked NilPointerDereference)     (* [header.Size] of a nil header *)
  | Some h =>
      spaceAvailable ←
        call (RepoCall "CheckSpaceAvailable") (CheckSpaceAvailable env userID (Size h))
          "failed to check available space: ";
      if negb spaceAvailable
      then fail (ErrorsNew "not enough storage space available")
      else if match file with None => true | Some _ => false end
              || String.eqb userID ""
      then fail (Errorf "" errInvalidFile ": missing required parameters")
      else if Size h >? maxFileSize
      then fail too_large
      else store_upload env h folderID userID
  end.

End UploadGate.

(** ** Vocabulary of the statements about plans *)

(** A plan seen as the list of its inclusive byte ranges. *)
Definition download_ranges (plan : list ChunkInfo) : list (Z * Z) :=
  (fun c => (Start c, End c)) <$> plan.

Definition upload_ranges (plan : list Planner.UploadSlice) : list (Z * Z) :=
  (fun u => (Planner.offset u, Planner.slice_end u)) <$> plan.

(** First range starts at 0, each next range starts one past the end of
    its predecessor, the last range ends at [totalSize - 1]. *)
Definition chained (totalSize : Z) (ranges : list (Z * Z)) : Prop :=
  (forall r, ranges !! 0%nat = Some r -> r.1 = 0) /\
  (forall (i : nat) r r', ranges !! i = Some r -> ranges !! S i = Some r' ->
                          r'.1 = r.2 + 1) /\
  (forall r, last ranges = Some r -> r.2 = totalSize - 1).

(** Every range is a non-empty part of [[0, totalSize)] and every offset
    of [[0, totalSize)] lies in exactly one range. *)
Definition covers_exactly (totalSize : Z) (ranges : list (Z * Z)) : Prop :=
  (forall (i : nat) r, ranges !! i = Some r -> 0 <= r.1 <= r.2 /\ r.2 < totalSize) /\
  (forall x, 0 <= x < totalSize ->
     exists (i : nat) r, ranges !! i = Some r /\ r.1 <= x <= r.2 /\
       forall (j : nat) r', ranges !! j = Some r' -> r'.1 <= x <= r'.2 -> j = i).

(** The ranges of the ideal plan: chunk [i] is [[i*cs, min((i+1)*cs, totalSize) - 1]]. *)
Definition ideal_ranges (cs totalSize : Z) : list (Z * Z) :=
  (fun i => (i * cs, Z.min (i * cs + cs) totalSize - 1))
    <$> seqZ 0 ((totalSize + cs - 1) / cs).

(** ** Vocabulary of the statements about reassembly *)

(** The bytes of [content] at the inclusive offsets [start..end_]. *)
Definition slice (content : list byte) (start end_ : Z) : list byte :=
  take (Z.to_nat (end_ - start + 1)) (drop (Z.to_nat start) content).

(** The result a worker sends for descriptor [c] when the object store
    answers with exactly the bytes of the range. *)
Definition complete_result (content : list byte) (c : ChunkInfo) : ChunkInfo :=
  mkChunkInfo (Start c) (End c) (slice content (Start c) (End c)) false None.

(** An object store holding [content] for every key, and a file record
    of that size. *)
Definition healthy (file : File) (content : list byte) : World :=
  {| GetFileInfo := inl file;
     GetObjectRange := fun _ start end_ => inl (mkReader (slice content start end_) None) |}.

(** Successful, non-empty results lying back to back from offset [off]. *)
Fixpoint contiguous (off : Z) (l : list ChunkInfo) : Prop :=
  match l with
  | [] => True
  | r :: l' =>
      Start r = off /\ Error r = None /\ Data r <> [] /\
      contiguous (off + Z.of_nat (length (Data r))) l'
  end.

Definition total_length (l : list ChunkInfo) : Z :=
  Z.of_nat (length (concat (Data <$> l))).

(** What the reassembly buffer holds: the results that arrived and are
    not yet due; and the state of the goroutine after the results [seen]
    when [done] of the results in offset order are written and [todo]
    are not. *)
Definition buffered (seen todo : list ChunkInfo) (m : gmap Z (list byte)) : Prop :=
  forall k d, m !! k = Some d <->
              exists r, r ∈ todo /\ r ∈ seen /\ Start r = k /\ Data r = d.

Record sink_inv (seen done todo : list ChunkInfo) (s : Sink.sink) : Prop := {
  inv_writes : Pipe.writes (Sink.pw s) = Data <$> done;
  inv_offset : Sink.currentOffset s = total_length done;
  inv_buffer : buffered seen todo (Sink.assembledData s);
  inv_done : forall r, r ∈ done -> r ∈ seen;
  inv_head : forall r, head todo = Some r -> r ∉ seen;
  inv_errors : Sink.errors s = [];
  inv_ropen : Pipe.rclosed (Sink.pw s) = None;
  inv_wopen : Pipe.wclosed (Sink.pw s) = None
}.


(** ** Vocabulary of the statements about the workers *)

(** The durations of the timeout contexts created, of the sleeps, and
    the number of calls of [GetFileDataRange] and of [UploadBytes], read
    off a log of effects. *)
Definition timeouts (log : list effect) : list Z :=
  omap (fun e => match e with CtxWithTimeout d => Some d | _ => None end) log.

Definition sleeps (log : list effect) : list Z :=
  omap (fun e => match e with Sleep d => Some d | _ => None end) log.

Definition fetch_attempts (log : list effect) : nat :=
  length (omap (fun e => match e with CallGetFileDataRange _ _ => Some tt | _ => None end) log).

Definition put_attempts (log : list effect) : nat :=
  length (omap (fun e => match e with S3UploadBytes _ _ => Some tt | _ => None end) log).

Definition deletes (log : list effect) : list string :=
  omap (fun e => match e with S3DeleteObject key => Some key | _ => None end) log.

(** The descriptors held by busy workers. *)
Definition held (ws : list Workers.wstate) : list ChunkInfo :=
  omap (fun st => match st with Workers.Busy c => Some c | _ => None end) ws.

(** The complete result for chunk number [i] of a plan. *)
Definition result_at (content : list byte) (cs totalSize i : Z) : ChunkInfo :=
  complete_result content (Planner.chunk_bounds cs totalSize i).

(** ** Vocabulary of the statements about uploads *)

(** The error an upload goroutine queues for its slice, if any. *)
Definition chunk_failure (w : Upload.UploadWorld) (s3Key : string)
    (sl : Planner.UploadSlice) : option error :=
  match Upload.ReadAt w (Planner.offset sl) (Planner.size sl) with
  | (data, None) | (data, Some io_EOF) =>
      match Upload.UploadBytes w (Upload.chunk_key s3Key (Planner.chunkNum sl)) data with
      | Some e =>
          Some (Errorf ("failed to upload chunk " +:+ pretty (Planner.chunkNum sl) +:+ ": ")
                  e "")
      | None => None
      end
  | (_, Some e) =>
      Some (Errorf ("failed to read chunk " +:+ pretty (Planner.chunkNum sl) +:+ ": ") e "")
  end.

(** A buffer of [n] zero bytes, as [make([]byte, n)] gives it. *)
Definition zeros (n : Z) : list byte := repeat x00%byte (Z.to_nat n).

(** A store in which every collaborator answers and the quota has the
    given space left. *)
Definition sample_env (spaceLeft : Z) : UploadGate.Env :=
  {| UploadGate.CheckSpaceAvailable := fun _ required => inl (required <=? spaceLeft);
     UploadGate.GetRootFolder := fun owner => inl (UploadGate.mkFolder 1 owner);
     UploadGate.CreateFolder := fun owner => inl (UploadGate.mkFolder 1 owner);
     UploadGate.FolderGetByID := fun id => inl (UploadGate.mkFolder id "alice");
     UploadGate.CheckSharedFolderPermission := fun _ _ _ => inl true;
     UploadGate.CheckFileExists := fun _ _ => inl None;
     UploadGate.BeginTx := None;
     UploadGate.S3UploadFile_ := fun _ => None;
     UploadGate.S3DeleteObject_ := fun _ => None;
     UploadGate.RepoCreate := fun _ => None;
     UploadGate.CreateFileVersion := fun _ _ => None;
     UploadGate.RepoUpdate := fun _ => None;
     UploadGate.Commit := None;
     UploadGate.UpdateUsedSpace := fun _ => None;
     UploadGate.uuid_New := "0b7d";
     UploadGate.filepath_Clean := fun name => name |}.

(** The state of the pool with respect to its plan. *)
Record pool_inv (plan : list ChunkInfo) (p : Workers.pool) : Prop := {
  pi_place : plan ≡ₚ Workers.queue p ++ held (Workers.workers p) ++ (fst <$> Workers.served p);
  pi_results : Workers.results p = snd <$> Workers.served p;
  pi_shape : forall c r, (c, r) ∈ Workers.served p ->
      (exists e, r = Workers.error_result e) \/
      (Error r = None /\ Start r = Start c /\ End r = End c);
  pi_crashed : Workers.crashed p = None;
  pi_workers : length (Workers.workers p) = Z.to_nat Workers.maxWorkers;
  pi_exited : forall w, Workers.workers p !! w = Some Workers.Exited ->
      Workers.queue p = [] \/ exists r, r ∈ Workers.results p /\ Error r <> None
}.

(* ===================================================================== *)
(** * Part I, continued. The code around the transfer engine

    The object-store client the transfer code calls, the permission
    service and [GetFileInfo] that decide who may read a file, the
    quota check in front of [UploadFile], the remaining operations of
    the file service on stored files, and the upload progress table of
    the file handler. *)
(* ===================================================================== *)

(** ** The object-store client *)

Module S3Client.

(** What a request to the SDK fails with: [NoSuchKey] stands for an
    error for which [errors.As(err, &nsk)] holds, [SdkError] for any
    other. *)
Inductive sdk_error : Type :=
| NoSuchKey
| SdkError (e : error).

(** The fields of [s3.GetObjectOutput] the client reads. The length and
    the content type are pointers: [None] is nil. *)
Record GetObjectOutput : Type := mkGetObjectOutput {
  Body : Reader;
  ContentLength : option Z;
  ContentType : option string
}.

(** [h.client.GetObject] as the client finds it: the answer to a key
    and the [Range] field of the input, [None] when the field is unset. *)
Definition Sdk : Type := string -> option string -> GetObjectOutput + sdk_error.

(** The [s3Object] handed to the caller. *)
Record s3Object : Type := mkS3Object {
  ReadCloser : Reader;
  contentLength : Z;
  contentType : string
}.

(** [&s3Object{ReadCloser: result.Body, contentLength:
    *result.ContentLength, contentType: *result.ContentType}]: the two
    pointers are dereferenced unchecked. *)
Definition new_s3Object (result : GetObjectOutput) : outcome s3Object :=
  match ContentLength result with
  | None => Panicked NilPointerDereference
  | Some length =>
      match ContentType result with
      | None => Panicked NilPointerDereference
      | Some type => Done (mkS3Object (Body result) length type)
      end
  end.

(** [fmt.Sprintf("bytes=%d-%d", start, end)]. *)
Definition range_header (start end_ : Z) : string :=
  "bytes=" +:+ pretty start +:+ "-" +:+ pretty end_.

Definition GetObject (sdk : Sdk) (key : string) : outcome s3Object :=
  match sdk key None with
  | inl result => new_s3Object result
  | inr NoSuchKey => Failed (ErrorsNew ("object not found: " +:+ key))
  | inr (SdkError e) => Failed (Errorf "failed to get object from S3: " e "")
  end.

Definition GetObjectRange (sdk : Sdk) (key : string) (start end_ : Z)
  : outcome s3Object :=
  match sdk key (Some (range_header start end_)) with
  | inl result => new_s3Object result
  | inr NoSuchKey => Failed (ErrorsNew ("object not found: " +:+ key))
  | inr (SdkError e) => Failed (Errorf "failed to get object range from S3: " e "")
  end.

End S3Client.

(** ** [GetFileDataRange] over the client

    [RangeRead.GetFileDataRange] takes the answers of the object store
    as the call finds them. Here the store is reached through the
    client, whose panic is not recovered by the service and ends the
    call. [info] is the answer of [GetFileInfo]. *)

Module ClientRead.
Import RangeRead.

Definition GetFileDataRange (info : File + error) (sdk : S3Client.Sdk)
    (fileUUID : string) (start end_ : Z) : list effect * outcome Reader :=
  match info with
  | inr err =>
      ([RepoCall "GetFileInfo"],
       if strings_Contains (error_text err) "access denied"
       then Failed (Errorf "доступ запрещен: " err "")
       else Failed (Errorf "ошибка получения информации о файле: " err ""))
  | inl file =>
      match check_range (SizeBytes file) start end_ with
      | inr err => ([RepoCall "GetFileInfo"], Failed err)
      | inl (start, end_) =>
          let s3Key :=
            if String.eqb (metadata_s3Path file) ""
            then standard_key file fileUUID
            else metadata_s3Path file in
          match S3Client.GetObjectRange sdk s3Key start end_ with
          | Panicked p =>
              ([RepoCall "GetFileInfo"; S3GetObjectRange s3Key start end_],
               Panicked p)
          | Done data =>
              ([RepoCall "GetFileInfo"; S3GetObjectRange s3Key start end_],
               Done (S3Client.ReadCloser data))
          | Failed err =>
              if strings_Contains (error_text err) "not found"
                 || strings_Contains (error_text err) "NoSuchKey"
              then
                let alternativePath := alternative_key file in
                match S3Client.GetObjectRange sdk alternativePath start end_ with
                | Panicked p =>
                    ([RepoCall "GetFileInfo"; S3GetObjectRange s3Key start end_;
                      S3GetObjectRange alternativePath start end_],
                     Panicked p)
                | Failed err' =>
                    ([RepoCall "GetFileInfo"; S3GetObjectRange s3Key start end_;
                      S3GetObjectRange alternativePath start end_],
                     Failed (Errorf "ошибка получения данных из S3: " err' ""))
                | Done data =>
                    ([RepoCall "GetFileInfo"; S3GetObjectRange s3Key start end_;
                      S3GetObjectRange alternativePath start end_;
                      RepoCall "Update"],
                     Done (S3Client.ReadCloser data))
                end
              else
                ([RepoCall "GetFileInfo"; S3GetObjectRange s3Key start end_],
                 Failed (Errorf "ошибка получения данных из S3: " err ""))
          end
      end
  end.

End ClientRead.

(** The world [w] gives the answers of the client over [sdk] wherever
    the client returns. *)
Definition through_client (sdk : S3Client.Sdk) (w : World) : Prop :=
  forall key start end_,
    match S3Client.GetObjectRange sdk key start end_ with
    | Done object => GetObjectRange w key start end_ = inl (S3Client.ReadCloser object)
    | Failed e => GetObjectRange w key start end_ = inr e
    | Panicked _ => True
    end.

(** ** Response headers of the download and the streaming handler *)

Module Headers.

(** [strconv.FormatInt(n, 10)]. *)
Definition strconv_FormatInt (n : Z) : string := pretty n.

(** The [Content-Length] both handlers declare before they ask for the
    data: the file size for a request without [Range] header, and
    [end - start + 1] for the single range of a request with one. *)
Definition Content_Length (file : File) (status start end_ : Z) : string :=
  if status =? 206
  then strconv_FormatInt (add64 (sub64 end_ start) 1)
  else strconv_FormatInt (SizeBytes file).

(** [fmt.Sprintf("bytes %d-%d/%d", start, end, file.SizeBytes)]. *)
Definition Content_Range (file : File) (start end_ : Z) : string :=
  "bytes " +:+ pretty start +:+ "-" +:+ pretty end_ +:+ "/" +:+ pretty (SizeBytes file).

End Headers.

(** ** The permission service and [GetFileInfo] *)

Module Access.
Import RangeHeader.

Record Share : Type := mkShare {
  ShareID : string;
  ResourceID : string;
  ResourceType : string;
  ShareOwnerID : string;
  AccessType : string;
  Token : string;
  ExpiresAt : option Z;       (* [None] is the nil pointer; an instant in nanoseconds *)
  UserIDs : string
}.

Record Folder : Type := mkFolder {
  ID : Z;
  FolderName : string;
  FolderOwnerID : string;
  ParentID : option Z;        (* [None] is the nil pointer *)
  Path : string
}.

Definition ResourceTypeFile : string := "file".
Definition ResourceTypeFolder : string := "folder".

Definition OperationView : string := "view".
Definition OperationEdit : string := "edit".
Definition OperationDelete : string := "delete".
Definition OperationCreate : string := "create".
Definition OperationShare : string := "share".
Definition OperationDownload : string := "download".
Definition OperationUpload : string := "upload".
Definition OperationRename : string := "rename".

(** The relational store as one call finds it; every lookup of the same
    key during the call finds the same row. [uuid_Parse] answers the
    canonical text of an identifier. *)
Record Repo : Type := mkRepo {
  FileGetByUUID : string -> File + error;
  FolderGetByID : Z -> Folder + error;
  GetSharesByResource : string -> string -> list Share + error;
  uuid_Parse : string -> string + error
}.

(** [time.Now()]: reading [t] of the clock, counted from the start of
    the call. *)
Definition Clock : Type := nat -> Z.

(** [share.ExpiresAt != nil && share.ExpiresAt.Before(time.Now())] after
    [t] readings; the clock is read only for a share that has an expiry. *)
Definition expired (clock : Clock) (share : Share) (t : nat) : nat * bool :=
  match ExpiresAt share with
  | None => (t, false)
  | Some at_ => (S t, at_ <? clock t)
  end.

(** [share.Token != "" || strings.Contains(share.UserIDs, userID)]. *)
Definition names (share : Share) (userID : string) : bool :=
  negb (String.eqb (Token share) "") || strings_Contains (UserIDs share) userID.

Definition checkAccessLevel (accessType operation : string) : bool :=
  if String.eqb accessType "view" then
    String.eqb operation OperationView || String.eqb operation OperationDownload
  else if String.eqb accessType "edit" then
    String.eqb operation OperationView || String.eqb operation OperationDownload
    || String.eqb operation OperationUpload || String.eqb operation OperationCreate
    || String.eqb operation OperationEdit || String.eqb operation OperationRename
  else if String.eqb accessType "full" then true
  else false.

Definition GetResourceOwner (repo : Repo) (resourceID resourceType : string)
  : string + error :=
  if String.eqb resourceType ResourceTypeFile then
    match uuid_Parse repo resourceID with
    | inr e => inr (Errorf "invalid file UUID: " e "")
    | inl fileUUID =>
        match FileGetByUUID repo fileUUID with
        | inr e => inr e
        | inl file => inl (OwnerID file)
        end
    end
  else if String.eqb resourceType ResourceTypeFolder then
    match strconv_ParseInt resourceID with
    | inr e => inr (Errorf "invalid folder ID: " e "")
    | inl folderID =>
        match FolderGetByID repo folderID with
        | inr e => inr e
        | inl folder => inl (FolderOwnerID folder)
        end
    end
  else inr (ErrorsNew ("unsupported resource type: " +:+ resourceType)).

(** The loop over the shares of one resource in [CheckPermission] and
    [CheckSharedFolderPermission]: is there a share, not expired when
    it is looked at, that names the user and allows the operation. *)
Fixpoint allowing_share (clock : Clock) (userID operation : string)
    (shares : list Share) (t : nat) : nat * bool :=
  match shares with
  | [] => (t, false)
  | share :: rest =>
      let (t', old) := expired clock share t in
      if old then allowing_share clock userID operation rest t'
      else if names share userID && checkAccessLevel (AccessType share) operation
      then (t', true)
      else allowing_share clock userID operation rest t'
  end.

Definition CheckPermission (repo : Repo) (clock : Clock)
    (userID resourceID resourceType operation : string) (t : nat)
  : nat * (bool + error) :=
  match GetResourceOwner repo resourceID resourceType with
  | inr e => (t, inr (Errorf "failed to get resource owner: " e ""))
  | inl ownerID =>
      if String.eqb ownerID userID then (t, inl true)
      else
        match GetSharesByResource repo resourceID resourceType with
        | inr e => (t, inr (Errorf "failed to get shares: " e ""))
        | inl shares =>
            let (t', found) := allowing_share clock userID operation shares t in
            (t', inl found)
        end
  end.

(** [for currentFolderID != 0 { ... }] of [CheckSharedFolderPermission],
    entered with the row [folder] last fetched; every iteration consumes
    one unit of [fuel], and [None] is a loop that has not ended. *)
Fixpoint shared_folder_loop (repo : Repo) (clock : Clock) (userID operation : string)
    (fuel : nat) (folder : Folder) (currentFolderID : Z) (t : nat)
  : option (nat * (bool + error)) :=
  match fuel with
  | O => None
  | S fuel' =>
      if currentFolderID =? 0 then Some (t, inl false)
      else
        match GetSharesByResource repo (pretty currentFolderID) ResourceTypeFolder with
        | inr e => Some (t, inr (Errorf "failed to get shares: " e ""))
        | inl shares =>
            let (t', found) := allowing_share clock userID operation shares t in
            if found then Some (t', inl true)
            else
              match ParentID folder with
              | None => Some (t', inl false)
              | Some parentID =>
                  match FolderGetByID repo parentID with
                  | inr e => Some (t', inr (Errorf "failed to get parent folder: " e ""))
                  | inl parent =>
                      shared_folder_loop repo clock userID operation fuel'
                        parent parentID t'
                  end
              end
        end
  end.

Definition CheckSharedFolderPermission (repo : Repo) (clock : Clock)
    (userID : string) (folderID : Z) (operation : string) (fuel t : nat)
  : option (nat * (bool + error)) :=
  match FolderGetByID repo folderID with
  | inr e => Some (t, inr (Errorf "failed to get folder: " e ""))
  | inl folder =>
      shared_folder_loop repo clock userID operation fuel folder (ID folder) t
  end.

(** The first loop of [GetFileInfo], over the shares of the file. *)
Fixpoint naming_share (clock : Clock) (userID : string)
    (shares : list Share) (t : nat) : nat * bool :=
  match shares with
  | [] => (t, false)
  | share :: rest =>
      let (t', old) := expired clock share t in
      if old then naming_share clock userID rest t'
      else if names share userID then (t', true)
      else naming_share clock userID rest t'
  end.

(** The loop of [GetFileInfo] over the shares of one folder of the
    hierarchy. *)
Fixpoint folder_share_loop (repo : Repo) (clock : Clock) (userID : string)
    (file : File) (currentFolderID : Z) (shares : list Share) (t : nat)
  : nat * (bool + error) :=
  match shares with
  | [] => (t, inl false)
  | share :: rest =>
      let (t', old) := expired clock share t in
      if old then folder_share_loop repo clock userID file currentFolderID rest t'
      else if names share userID then
        match FolderGetByID repo currentFolderID with
        | inr e => (t', inr (Errorf "failed to get shared folder: " e ""))
        | inl sharedFolder =>
            match FolderGetByID repo (FolderID file) with
            | inr e => (t', inr (Errorf "failed to get file folder: " e ""))
            | inl fileFolder =>
                if strings_HasPrefix (Path fileFolder) (Path sharedFolder)
                then (t', inl true)
                else folder_share_loop repo clock userID file currentFolderID rest t'
            end
        end
      else folder_share_loop repo clock userID file currentFolderID rest t'
  end.

(** [for currentFolderID != 0 { ... }] of [GetFileInfo]. *)
Fixpoint hierarchy_loop (repo : Repo) (clock : Clock) (userID : string) (file : File)
    (fuel : nat) (currentFolderID : Z) (t : nat) : option (nat * (File + error)) :=
  match fuel with
  | O => None
  | S fuel' =>
      if currentFolderID =? 0 then Some (t, inr errAccessDenied)
      else
        match FolderGetByID repo currentFolderID with
        | inr e => Some (t, inr (Errorf "failed to get folder: " e ""))
        | inl folder =>
            match GetSharesByResource repo (pretty currentFolderID) ResourceTypeFolder with
            | inr e => Some (t, inr (Errorf "failed to check folder shares: " e ""))
            | inl folderShares =>
                match folder_share_loop repo clock userID file currentFolderID
                        folderShares t with
                | (t', inr e) => Some (t', inr e)
                | (t', inl true) => Some (t', inl file)
                | (t', inl false) =>
                    match ParentID folder with
                    | None => Some (t', inr errAccessDenied)
                    | Some parentID =>
                        hierarchy_loop repo clock userID file fuel' parentID t'
                    end
                end
            end
        end
  end.

Definition GetFileInfo (repo : Repo) (clock : Clock) (fileUUID userID : string)
    (fuel t : nat) : option (nat * (File + error)) :=
  match FileGetByUUID repo fileUUID with
  | inr e => Some (t, inr (Errorf "" errFileNotFound (": " +:+ error_text e)))
  | inl file =>
      if String.eqb (OwnerID file) userID then Some (t, inl file)
      else
        match GetSharesByResource repo fileUUID ResourceTypeFile with
        | inr e => Some (t, inr (Errorf "failed to check shared access: " e ""))
        | inl shares =>
            let (t', found) := naming_share clock userID shares t in
            if found then Some (t', inl file)
            else hierarchy_loop repo clock userID file fuel (FolderID file) t'
        end
  end.

End Access.

(** ** The quota check in front of [UploadFile] *)

Module Quota.

Record StorageQuota : Type := mkStorageQuota {
  TotalBytesLimit : Z;
  UsedBytes : Z
}.

Definition CheckSpaceAvailable (GetQuota : string -> StorageQuota + error)
    (ownerID : string) (requiredBytes : Z) : bool + error :=
  match GetQuota ownerID with
  | inr e => inr (Errorf "failed to get quota: " e "")
  | inl quota => inl (add64 (UsedBytes quota) requiredBytes <=? TotalBytesLimit quota)
  end.

(** The collaborators of [UploadFile] with the quota service in the
    place of the answer of the quota check. *)
Definition with_quota (env : UploadGate.Env) (GetQuota : string -> StorageQuota + error)
  : UploadGate.Env :=
  {| UploadGate.CheckSpaceAvailable := CheckSpaceAvailable GetQuota;
     UploadGate.GetRootFolder := UploadGate.GetRootFolder env;
     UploadGate.CreateFolder := UploadGate.CreateFolder env;
     UploadGate.FolderGetByID := UploadGate.FolderGetByID env;
     UploadGate.CheckSharedFolderPermission := UploadGate.CheckSharedFolderPermission env;
     UploadGate.CheckFileExists := UploadGate.CheckFileExists env;
     UploadGate.BeginTx := UploadGate.BeginTx env;
     UploadGate.S3UploadFile_ := UploadGate.S3UploadFile_ env;
     UploadGate.S3DeleteObject_ := UploadGate.S3DeleteObject_ env;
     UploadGate.RepoCreate := UploadGate.RepoCreate env;
     UploadGate.CreateFileVersion := UploadGate.CreateFileVersion env;
     UploadGate.RepoUpdate := UploadGate.RepoUpdate env;
     UploadGate.Commit := UploadGate.Commit env;
     UploadGate.UpdateUsedSpace := UploadGate.UpdateUsedSpace env;
     UploadGate.uuid_New := UploadGate.uuid_New env;
     UploadGate.filepath_Clean := UploadGate.filepath_Clean env |}.

End Quota.

(** ** Deleting, renaming and moving a stored file *)

Module FileOps.

Record FileVersion : Type := mkFileVersion {
  VersionNumber : Z;
  S3Key : string;
  VersionSizeBytes : Z
}.

(** The collaborators of [DeleteFile], [RenameFile] and [MoveFile],
    each as the answer it gives. The answer of [s3Client.DeleteObject]
    is left out: the three functions only log it. *)
Record Svc : Type := mkSvc {
  GetFileInfo_ : string -> string -> File + error;
  GetByUUID : string -> File + error;
  CheckSharedFolderPermission : string -> Z -> string -> bool + error;
  CheckPermission : string -> string -> string -> string -> bool + error;
  CheckFileExists : Z -> string -> option File + error;
  BeginTx : option error;
  Commit : option error;
  GetFileVersions : string -> list FileVersion + error;
  RepoDelete : string -> option error;
  UpdateFileName : string -> string -> option error;
  UpdateFileFolder : string -> Z -> Z -> option error
}.

(** [for _, version := range versions { s3Client.DeleteObject(version.S3Key) }]. *)
Fixpoint delete_versions (versions : list FileVersion) : UploadGate.M unit :=
  match versions with
  | [] => mret tt
  | version :: rest =>
      _ ← UploadGate.emit (S3DeleteObject (S3Key version));
      delete_versions rest
  end.

Definition DeleteFile (env : Svc) (fileUUID userID : string) : UploadGate.M unit :=
  _ ← UploadGate.emit (RepoCall "GetByUUID");
  match GetByUUID env fileUUID with
  | inr e => UploadGate.fail (Errorf "" errFileNotFound (": " +:+ error_text e))
  | inl file =>
      _ ← (if String.eqb (OwnerID file) userID then mret tt
           else
             hasPermission ←
               UploadGate.call (RepoCall "CheckSharedFolderPermission")
                 (CheckSharedFolderPermission env userID (FolderID file)
                    Access.OperationDelete)
                 "failed to check permissions: ";
             if negb hasPermission then UploadGate.fail errAccessDenied else mret tt);
      _ ← UploadGate.call_ (RepoCall "BeginTx") (BeginTx env)
            "failed to begin transaction: ";
      versions ←
        UploadGate.call (RepoCall "GetFileVersions") (GetFileVersions env fileUUID)
          "failed to get file versions: ";
      _ ← delete_versions versions;
      _ ← UploadGate.call_ (RepoCall "Delete") (RepoDelete env fileUUID)
            "failed to delete file from database: ";
      _ ← UploadGate.emit (S3DeleteObject ("previews/" +:+ fileUUID));
      UploadGate.call_ (RepoCall "Commit") (Commit env) "failed to commit transaction: "
  end.

Definition RenameFile (env : Svc) (fileUUID newName userID : string) : UploadGate.M unit :=
  file ← UploadGate.call (RepoCall "GetFileInfo") (GetFileInfo_ env fileUUID userID)
           "failed to get file info: ";
  _ ← (if String.eqb (OwnerID file) userID then mret tt
       else
         hasPermission ←
           UploadGate.call (RepoCall "CheckSharedFolderPermission")
             (CheckSharedFolderPermission env userID (FolderID file) Access.OperationEdit)
             "failed to check permissions: ";
         if negb hasPermission then
           hasDirectPermission ←
             UploadGate.call (RepoCall "CheckPermission")
               (CheckPermission env userID fileUUID Access.ResourceTypeFile
                  Access.OperationEdit)
               "failed to check direct permissions: ";
           if negb hasDirectPermission
           then UploadGate.fail (ErrorsNew "access denied")
           else mret tt
         else mret tt);
  existingFile ←
    UploadGate.call (RepoCall "CheckFileExists")
      (CheckFileExists env (FolderID file) newName)
      "failed to check file existence: ";
  _ ← (match existingFile with
       | Some existing =>
           if negb (String.eqb (UUID existing) fileUUID)
           then UploadGate.fail (ErrorsNew ("file with name " +:+ newName
                                              +:+ " already exists in this folder"))
           else mret tt
       | None => mret tt
       end);
  UploadGate.call_ (RepoCall "UpdateFileName") (UpdateFileName env fileUUID newName)
    "failed to update file name: ".

Definition MoveFile (env : Svc) (fileUUID : string) (newFolderID : Z) (userID : string)
  : UploadGate.M unit :=
  file ← UploadGate.call (RepoCall "GetFileInfo") (GetFileInfo_ env fileUUID userID)
           "failed to get file info: ";
  _ ← (if String.eqb (OwnerID file) userID then mret tt
       else
         hasDirectPermission ←
           UploadGate.call (RepoCall "CheckPermission")
             (CheckPermission env userID fileUUID Access.ResourceTypeFile
                Access.OperationEdit)
             "failed to check direct permissions: ";
         if negb hasDirectPermission then
           hasSourcePermission ←
             UploadGate.call (RepoCall "CheckSharedFolderPermission")
               (CheckSharedFolderPermission env userID (FolderID file)
                  Access.OperationEdit)
               "failed to check source folder permissions: ";
           if negb hasSourcePermission
           then UploadGate.fail (ErrorsNew "access denied for source folder")
           else mret tt
         else mret tt);
  hasTargetPermission ←
    UploadGate.call (RepoCall "CheckSharedFolderPermission")
      (CheckSharedFolderPermission env userID newFolderID Access.OperationUpload)
      "failed to check target folder permissions: ";
  if negb hasTargetPermission && negb (String.eqb (OwnerID file) userID)
  then UploadGate.fail (ErrorsNew "access denied for target folder")
  else
    existingFile ←
      UploadGate.call (RepoCall "CheckFileExists")
        (CheckFileExists env newFolderID (Name file))
        "failed to check file existence: ";
    match existingFile with
    | Some _ =>
        UploadGate.fail (ErrorsNew ("file with name " +:+ Name file
                                      +:+ " already exists in target folder"))
    | None =>
        _ ← UploadGate.call_ (RepoCall "BeginTx") (BeginTx env)
              "failed to begin transaction: ";
        _ ← UploadGate.call_ (RepoCall "UpdateFileFolder")
              (UpdateFileFolder env fileUUID newFolderID (FolderID file))
              "failed to move file: ";
        _ ← UploadGate.emit (RepoCall "Commit");
        match Commit env with
        | Some e => UploadGate.fail e
        | None => mret tt
        end
    end.

End FileOps.

(** ** The upload progress table of the file handler *)

Module Progress.

Section Table.

(** The values of Go's [float64]; the table only stores them. *)
Variable float64 : Type.

Record uploadProgress : Type := mkUploadProgress {
  FileName : string;
  Progress : float64;
  Status : string;
  Error : string;
  Version : Z
}.

(** [progressMap = make(map[string]*uploadProgress)]. *)
Definition progressMap_init : gmap string uploadProgress := ∅.

Definition setProgress (progressMap : gmap string uploadProgress) (id : string)
    (progress : float64) (status error : string) (version : Z)
  : gmap string uploadProgress :=
  match progressMap !! id with
  | Some p =>
      <[id := {| FileName := FileName p; Progress := progress; Status := status;
                 Error := error; Version := version |}]> progressMap
  | None => progressMap
  end.

(** The entries one tick of [GetUploadProgress] turns into events for
    [userID], in some order. *)
Definition tick_events (progressMap : gmap string uploadProgress) (userID : string)
  : list (string * uploadProgress) :=
  filter (fun entry => RangeHeader.strings_HasPrefix entry.1 (userID +:+ "_") = true)
    (map_to_list progressMap).

End Table.

End Progress.

(** ** The upload handler *)

Module UploadHandler.
Import UploadGate.

(** [UploadFileVersion]. The result is the record behind [existingFile]
    after the call: the size and the version number are written through
    the pointer, which the caller keeps. The answers of the preview
    deletions are only logged. *)
Definition UploadFileVersion (env : Env) (header : FileHeader)
    (existingFile : File) (ownerID : string) : M File :=
  _ ← call_ (RepoCall "BeginTx") (BeginTx env) "failed to begin transaction: ";
  let s3Key := "personal_drive_files/" +:+ ownerID +:+ "/" +:+ UUID existingFile in
  let previewKey := "previews/" +:+ UUID existingFile in
  _ ← emit (S3DeleteObject previewKey);
  _ ← emit (RepoCall "DeletePreview");
  let existingFile :=
    mkFile (UUID existingFile) (Name existingFile) (OwnerID existingFile)
      (Size header) (FolderID existingFile)
      (add64 (CurrentVersion existingFile) 1) (Metadata existingFile) in
  _ ← call_ (RepoCall "Update") (RepoUpdate env existingFile) "failed to update DB: ";
  _ ← call_ (S3UploadFile s3Key) (S3UploadFile_ env s3Key) "failed to upload: ";
  _ ← call_ (RepoCall "Commit") (Commit env) "failed to commit transaction: ";
  mret existingFile.

Record UploadResult : Type := mkUploadResult {
  ResultFile : option File;
  ResultError : string;
  IsNewVersion : bool;
  ResultVersion : Z
}.

Inductive Response : Type :=
| HttpError (body : string) (code : Z)
| MultiUploadResponse (results : list UploadResult).

Definition StatusBadRequest : Z := 400.
Definition StatusUnauthorized : Z := 401.

Section Handler.

(** The values of [float64] and the constants 0, 30, 60 and 100 among
    them. *)
Variable float64 : Type.
Variable constant : Z -> float64.

Definition failed (err : error) : UploadResult :=
  mkUploadResult None (error_text err) false 0.

(** One turn of the loop over the uploaded files. [opened] is the answer
    of [fileHeader.Open()], [env] the collaborators as they answer
    during this turn. *)
Definition upload_one (env : Env) (userID : string) (folderID : Z)
    (fileHeader : FileHeader) (opened : list byte + error)
    (progressMap : gmap string (Progress.uploadProgress float64))
  : list effect * outcome (gmap string (Progress.uploadProgress float64) * UploadResult) :=
  let progressID := userID +:+ "_" +:+ Filename fileHeader in
  let progressMap :=
    Progress.setProgress float64 progressMap progressID (constant 0) "uploading" "" 0 in
  let on_error err :=
    Done (Progress.setProgress float64 progressMap progressID (constant 0) "error"
            (error_text err) 0,
          failed err) in
  match opened with
  | inr err =>
      ([], on_error err)
  | inl file =>
      let progressMap :=
        Progress.setProgress float64 progressMap progressID (constant 30) "uploading" "" 0 in
      let on_error err :=
        Done (Progress.setProgress float64 progressMap progressID (constant 0) "error"
                (error_text err) 0,
              failed err) in
      match CheckFileExists env folderID (Filename fileHeader) with
      | inr err => ([RepoCall "CheckFileExists"], on_error err)
      | inl (Some existingFile) =>
          let progressMap :=
            Progress.setProgress float64 progressMap progressID (constant 60) "uploading" ""
              (CurrentVersion existingFile) in
          let on_error err :=
            Done (Progress.setProgress float64 progressMap progressID (constant 0) "error"
                    (error_text err) 0,
                  failed err) in
          match UploadFileVersion env fileHeader existingFile userID with
          | (log, Failed err) => (RepoCall "CheckFileExists" :: log, on_error err)
          | (log, Panicked p) => (RepoCall "CheckFileExists" :: log, Panicked p)
          | (log, Done existingFile) =>
              (RepoCall "CheckFileExists" :: log,
               Done (Progress.setProgress float64 progressMap progressID (constant 100)
                       "completed" "" (add64 (CurrentVersion existingFile) 1),
                     mkUploadResult (Some existingFile) "" true
                       (add64 (CurrentVersion existingFile) 1)))
          end
      | inl None =>
          let progressMap :=
            Progress.setProgress float64 progressMap progressID (constant 60) "uploading" "" 0 in
          let on_error err :=
            Done (Progress.setProgress float64 progressMap progressID (constant 0) "error"
                    (error_text err) 0,
                  failed err) in
          match UploadFile env (Some fileHeader) (Some file) folderID userID with
          | (log, Failed err) => (RepoCall "CheckFileExists" :: log, on_error err)
          | (log, Panicked p) => (RepoCall "CheckFileExists" :: log, Panicked p)
          | (log, Done uploadedFile) =>
              (RepoCall "CheckFileExists" :: log,
               Done (Progress.setProgress float64 progressMap progressID (constant 100)
                       "completed"
                       ("Файл " +:+ Filename fileHeader +:+ " успешно загружен") 1,
                     mkUploadResult (Some uploadedFile) "" false 1))
          end
      end
  end.

(** The loop over [files]; the result at index [i] is written in the turn of the
    file [i]. *)
Fixpoint upload_each (userID : string) (folderID : Z)
    (files : list (Env * FileHeader * (list byte + error)))
    (progressMap : gmap string (Progress.uploadProgress float64))
  : list effect * outcome (gmap string (Progress.uploadProgress float64) * list UploadResult) :=
  match files with
  | [] => ([], Done (progressMap, []))
  | (env, fileHeader, opened) :: rest =>
      match upload_one env userID folderID fileHeader opened progressMap with
      | (log, Done (progressMap, result)) =>
          match upload_each userID folderID rest progressMap with
          | (log', Done (progressMap, results)) =>
              (log ++ log', Done (progressMap, result :: results))
          | (log', Failed e) => (log ++ log', Failed e)
          | (log', Panicked p) => (log ++ log', Panicked p)
          end
      | (log, Failed e) => (log, Failed e)
      | (log, Panicked p) => (log, Panicked p)
      end
  end.

(** The handler [UploadFile]. [verified] is the answer of
    [auth.VerifyToken], [parsed] that of [r.ParseMultipartForm],
    [folder_id] the form value and [files] the files of the form, each
    with the answers given during its turn. *)
Definition UploadFile (verified : string + error) (parsed : option error)
    (folder_id : string) (files : list (Env * FileHeader * (list byte + error)))
    (progressMap : gmap string (Progress.uploadProgress float64))
  : list effect * outcome (gmap string (Progress.uploadProgress float64) * Response) :=
  match verified with
  | inr _ => ([], Done (progressMap, HttpError "Unauthorized" StatusUnauthorized))
  | inl userID =>
      match parsed with
      | Some _ => ([], Done (progressMap, HttpError "Failed to parse form" StatusBadRequest))
      | None =>
          match (if String.eqb folder_id "" then inl 0
                 else RangeHeader.strconv_ParseInt folder_id) with
          | inr _ => ([], Done (progressMap, HttpError "Invalid folder ID" StatusBadRequest))
          | inl folderID =>
              match files with
              | [] => ([], Done (progressMap, HttpError "No files uploaded" StatusBadRequest))
              | _ =>
                  match upload_each userID folderID files progressMap with
                  | (log, Done (progressMap, results)) =>
                      (log, Done (progressMap, MultiUploadResponse results))
                  | (log, Failed e) => (log, Failed e)
                  | (log, Panicked p) => (log, Panicked p)
                  end
              end
          end
      end
  end.

End Handler.

End UploadHandler.

(** ** Vocabulary of the statements about headers *)

(** Every byte of [s] satisfies [P]. *)
Fixpoint every (P : ascii -> Prop) (s : string) : Prop :=
  match s with
  | EmptyString => True
  | String c rest => P c /\ every P rest
  end.

(** A printable ASCII byte other than the space. *)
Definition plain (c : ascii) : Prop := (33 <= nat_of_ascii c <= 126)%nat.

Definition decimal (c : ascii) : Prop := (48 <= nat_of_ascii c <= 57)%nat.

(** ** Vocabulary of the statements about access *)

(** The share has no expiry, or no reading of the clock is past it. *)
Definition live (clock : Access.Clock) (share : Access.Share) : Prop :=
  forall at_, Access.ExpiresAt share = Some at_ -> forall n, clock n <= at_.

(** The share has no expiry, or some reading of the clock is not past it. *)
Definition seen_alive (clock : Access.Clock) (share : Access.Share) : Prop :=
  forall at_, Access.ExpiresAt share = Some at_ -> exists n, clock n <= at_.

(** Climbing the parent links from folder [id], whose row is [folder],
    reaches folder [target]. *)
Inductive rises (repo : Access.Repo) : Access.Folder -> Z -> Z -> Prop :=
| rises_here (folder : Access.Folder) (id : Z) : rises repo folder id id
| rises_up (folder parent : Access.Folder) (id parentID target : Z) :
    Access.ParentID folder = Some parentID ->
    Access.FolderGetByID repo parentID = inl parent ->
    rises repo parent parentID target ->
    rises repo folder id target.

(** A share that grants [operation] to [userID] on a folder lies on
    folder [id] or above it, and the shares of every folder below it
    can be read. *)
Inductive granted_above (repo : Access.Repo) (clock : Access.Clock)
    (userID operation : string) : Access.Folder -> Z -> Prop :=
| granted_here (folder : Access.Folder) (id : Z) (shares : list Access.Share)
    (share : Access.Share) :
    id <> 0 ->
    Access.GetSharesByResource repo (pretty id) Access.ResourceTypeFolder = inl shares ->
    share ∈ shares ->
    Access.names share userID = true ->
    Access.checkAccessLevel (Access.AccessType share) operation = true ->
    live clock share ->
    granted_above repo clock userID operation folder id
| granted_higher (folder parent : Access.Folder) (id parentID : Z)
    (shares : list Access.Share) :
    id <> 0 ->
    Access.GetSharesByResource repo (pretty id) Access.ResourceTypeFolder = inl shares ->
    Access.ParentID folder = Some parentID ->
    Access.FolderGetByID repo parentID = inl parent ->
    granted_above repo clock userID operation parent parentID ->
    granted_above repo clock userID operation folder id.

(** A small store: folder 2 ("docs") lies in folder 1 (the root of
    alice), which is shared with bob for editing; file [f1] lies in
    folder 2 and is shared with carol for viewing. *)
Definition sample_repo : Access.Repo :=
  {| Access.FileGetByUUID := fun fileUUID =>
       if String.eqb fileUUID "f1"
       then inl (mkFile "f1" "report.pdf" "alice" 100 2 1 None)
       else inr (ErrorsNew "sql: no rows in result set");
     Access.FolderGetByID := fun id =>
       if id =? 1 then inl (Access.mkFolder 1 "Root" "alice" None "1")
       else if id =? 2 then inl (Access.mkFolder 2 "docs" "alice" (Some 1) "1.2")
       else inr (ErrorsNew "sql: no rows in result set");
     Access.GetSharesByResource := fun resourceID resourceType =>
       if String.eqb resourceID "1" && String.eqb resourceType "folder"
       then inl [Access.mkShare "s1" "1" "folder" "alice" "edit" "" None "{bob}"]
       else if String.eqb resourceID "f1" && String.eqb resourceType "file"
       then inl [Access.mkShare "s2" "f1" "file" "alice" "view" "" None "{carol}"]
       else inl [];
     Access.uuid_Parse := fun s => inl s |}.

Definition sample_clock : Access.Clock := fun n => 1000 + Z.of_nat n.

(** A file service in which every collaborator answers: the files
    belong to alice, bob may edit in their folder, and nobody else has
    any right. *)
Definition sample_svc : FileOps.Svc :=
  {| FileOps.GetFileInfo_ := fun fileUUID userID =>
       if String.eqb userID "alice" || String.eqb userID "bob"
       then inl (mkFile fileUUID "report.pdf" "alice" 100 2 2 None)
       else inr errAccessDenied;
     FileOps.GetByUUID := fun fileUUID =>
       inl (mkFile fileUUID "report.pdf" "alice" 100 2 2 None);
     FileOps.CheckSharedFolderPermission := fun userID _ operation =>
       inl (String.eqb userID "bob" && Access.checkAccessLevel "edit" operation);
     FileOps.CheckPermission := fun _ _ _ _ => inl false;
     FileOps.CheckFileExists := fun _ _ => inl None;
     FileOps.BeginTx := None;
     FileOps.Commit := None;
     FileOps.GetFileVersions := fun fileUUID =>
       inl [FileOps.mkFileVersion 1 ("personal_drive_files/alice/" +:+ fileUUID) 90;
            FileOps.mkFileVersion 2 ("personal_drive_files/alice/" +:+ fileUUID) 100];
     FileOps.RepoDelete := fun _ => None;
     FileOps.UpdateFileName := fun _ _ => None;
     FileOps.UpdateFileFolder := fun _ _ _ => None |}.

(** ** Vocabulary of the statement about the progress table *)

(** The table after a series of [setProgress] calls, each given by its
    five arguments. *)
Definition after_calls {float64 : Type}
    (table : gmap string (Progress.uploadProgress float64))
    (calls : list (string * float64 * string * string * Z))
  : gmap string (Progress.uploadProgress float64) :=
  foldl (fun m call =>
           match call with
           | (id, progress, status, error, version) =>
               Progress.setProgress float64 m id progress status error version
           end) table calls.

(** ** Vocabulary of the statement about a complete upload *)

(** A source file holding [content] that is read without error, and an
    object store that accepts every put. *)
Definition readable (content : list byte) : Upload.UploadWorld :=
  {| Upload.ReadAt := fun offset size => (slice content offset (offset + size - 1), None);
     Upload.UploadBytes := fun _ _ => None |}.

(** The bytes of [content] a slice of the plan stands for. *)
Definition slice_data (content : list byte) (sl : Planner.UploadSlice) : list byte :=
  slice content (Planner.offset sl) (Planner.slice_end sl).

(** ** Vocabulary of the statement about stored objects *)

(** The keys of the objects put by [UploadFile], read off a log. *)
Definition uploads (log : list effect) : list string :=
  omap (fun e => match e with S3UploadFile key => Some key | _ => None end) log.

(** A store where the name uploaded is taken by a file of alice and the
    version row cannot be written. *)
Definition reupload_env : UploadGate.Env :=
  {| UploadGate.CheckSpaceAvailable := fun _ _ => inl true;
     UploadGate.GetRootFolder := fun owner => inl (UploadGate.mkFolder 1 owner);
     UploadGate.CreateFolder := fun owner => inl (UploadGate.mkFolder 1 owner);
     UploadGate.FolderGetByID := fun id => inl (UploadGate.mkFolder id "alice");
     UploadGate.CheckSharedFolderPermission := fun _ _ _ => inl true;
     UploadGate.CheckFileExists := fun folderID name =>
       inl (Some (mkFile "f1" name "alice" 4 folderID 1 None));
     UploadGate.BeginTx := None;
     UploadGate.S3UploadFile_ := fun _ => None;
     UploadGate.S3DeleteObject_ := fun _ => None;
     UploadGate.RepoCreate := fun _ => None;
     UploadGate.CreateFileVersion := fun _ _ => Some (ErrorsNew "deadlock detected");
     UploadGate.RepoUpdate := fun _ => None;
     UploadGate.Commit := None;
     UploadGate.UpdateUsedSpace := fun _ => None;
     UploadGate.uuid_New := "0b7d";
     UploadGate.filepath_Clean := fun name => name |}.

(** ** Vocabulary of the statement about stopped workers *)



(* ===================================================================== *)
(** * Part II. Properties *)
(* ===================================================================== *)

(** ** Machine arithmetic inside the representable range *)

Lemma wrap64_small (z : Z) : in_int64 z -> wrap64 z = z.
Proof.
  unfold in_int64, min_int64, max_int64, wrap64. intros Hz.
  rewrite Z.mod_small; lia.
Qed.

Lemma wrap64_range (z : Z) : in_int64 (wrap64 z).
Proof.
  unfold in_int64, min_int64, max_int64, wrap64.
  pose proof (Z.mod_pos_bound (z + 2 ^ 63) (2 ^ 64) ltac:(lia)). lia.
Qed.

Lemma wrap64_sub_wrap (a b : Z) : wrap64 (wrap64 a - b) = wrap64 (a - b).
Proof.
  unfold wrap64. f_equal.
  replace ((a + 2 ^ 63) mod 2 ^ 64 - 2 ^ 63 - b + 2 ^ 63)
    with ((a + 2 ^ 63) mod 2 ^ 64 - b) by lia.
  rewrite Zminus_mod_idemp_l. f_equal. lia.
Qed.

(** ** The chunk planner *)

Section PlannerFacts.
Import Planner.
Variables cs totalSize : Z.
Hypothesis Hts : 0 <= totalSize.
Hypothesis Hcs : 1 <= cs.
Hypothesis Hfit : totalSize + cs - 1 <= max_int64.

Local Abbreviation n := ((totalSize + cs - 1) / cs).

Lemma ceil_bounds : (n - 1) * cs < totalSize <= n * cs.
Proof.
  pose proof (Z.mul_div_le (totalSize + cs - 1) cs ltac:(lia)).
  pose proof (Z.mul_succ_div_gt (totalSize + cs - 1) cs ltac:(lia)).
  nia.
Qed.

Lemma ceil_nonneg : 0 <= n.
Proof. apply Z.div_pos; lia. Qed.

Lemma numChunks_of_ceil : numChunks_of cs totalSize = n.
Proof.
  unfold numChunks_of.
  unfold max_int64 in Hfit.
  assert (Hq : Z.quot (totalSize + cs - 1) cs = (totalSize + cs - 1) / cs)
    by (apply Z.quot_div_nonneg; lia).
  pose proof ceil_bounds as Hb. pose proof ceil_nonneg as Hn.
  unfold add64, sub64, quot64. rewrite wrap64_sub_wrap.
  rewrite (wrap64_small (totalSize + cs - 1))
    by (unfold in_int64, min_int64, max_int64; lia).
  rewrite Hq. apply wrap64_small.
  unfold in_int64, min_int64, max_int64. nia.
Qed.

Lemma chunk_bounds_ideal (i : Z) :
  0 <= i < n ->
  chunk_bounds cs totalSize i =
    mkChunkInfo (i * cs) (Z.min (i * cs + cs) totalSize - 1) [] false None.
Proof.
  intros Hi. pose proof ceil_bounds as Hb. unfold max_int64 in Hfit.
  unfold chunk_bounds.
  assert (Hs : mul64 i cs = i * cs).
  { unfold mul64. apply wrap64_small.
    unfold in_int64, min_int64, max_int64. nia. }
  rewrite Hs.
  assert (He : add64 (i * cs) cs = i * cs + cs).
  { unfold add64. apply wrap64_small.
    unfold in_int64, min_int64, max_int64. nia. }
  rewrite He. f_equal.
  destruct (Z.gtb_spec (i * cs + cs) totalSize) as [Hgt | Hle].
  - rewrite Z.min_r by lia. unfold sub64. apply wrap64_small.
    unfold in_int64, min_int64, max_int64. lia.
  - rewrite Z.min_l by lia. unfold sub64. apply wrap64_small.
    unfold in_int64, min_int64, max_int64. nia.
Qed.

Lemma slice_bounds_ideal (i : Z) :
  0 <= i < n ->
  slice_bounds cs totalSize i =
    mkUploadSlice i (i * cs) (Z.min (i * cs + cs) totalSize - i * cs).
Proof.
  intros Hi. pose proof ceil_bounds as Hb. unfold max_int64 in Hfit.
  unfold slice_bounds.
  assert (Hs : mul64 i cs = i * cs).
  { unfold mul64. apply wrap64_small.
    unfold in_int64, min_int64, max_int64. nia. }
  rewrite Hs.
  assert (He : add64 (i * cs) cs = i * cs + cs).
  { unfold add64. apply wrap64_small.
    unfold in_int64, min_int64, max_int64. nia. }
  rewrite He. f_equal.
  destruct (Z.gtb_spec (i * cs + cs) totalSize) as [Hgt | Hle].
  - rewrite Z.min_r by lia. unfold sub64. apply wrap64_small.
    unfold in_int64, min_int64, max_int64. nia.
  - rewrite Z.min_l by lia. lia.
Qed.

(** The counted loops stop on their condition, never on their fuel. *)
Lemma for_chunks_seqZ (k : nat) (i : Z) :
  0 <= i -> i + Z.of_nat k = n ->
  for_chunks cs totalSize n k i = chunk_bounds cs totalSize <$> seqZ i (Z.of_nat k).
Proof.
  pose proof ceil_bounds as Hb. unfold max_int64 in Hfit.
  revert i. induction k as [| k IH]; intros i Hi Hk.
  - reflexivity.
  - cbn [for_chunks].
    destruct (Z.ltb_spec i n) as [Hlt | Hge]; [| lia].
    rewrite seqZ_cons by lia. rewrite fmap_cons. f_equal.
    assert (Ha : add64 i 1 = Z.succ i).
    { unfold add64. rewrite wrap64_small; [lia |].
      unfold in_int64, min_int64, max_int64. nia. }
    rewrite Ha. replace (Z.pred (Z.of_nat (S k))) with (Z.of_nat k) by lia.
    apply IH; lia.
Qed.

Lemma for_slices_seqZ (k : nat) (i : Z) :
  0 <= i -> i + Z.of_nat k = n ->
  for_slices cs totalSize n k i = slice_bounds cs totalSize <$> seqZ i (Z.of_nat k).
Proof.
  pose proof ceil_bounds as Hb. unfold max_int64 in Hfit.
  revert i. induction k as [| k IH]; intros i Hi Hk.
  - reflexivity.
  - cbn [for_slices].
    destruct (Z.ltb_spec i n) as [Hlt | Hge]; [| lia].
    rewrite seqZ_cons by lia. rewrite fmap_cons. f_equal.
    assert (Ha : add64 i 1 = Z.succ i).
    { unfold add64. rewrite wrap64_small; [lia |].
      unfold in_int64, min_int64, max_int64. nia. }
    rewrite Ha. replace (Z.pred (Z.of_nat (S k))) with (Z.of_nat k) by lia.
    apply IH; lia.
Qed.

(** More fuel than the chunk count changes nothing. *)
Lemma for_chunks_fuel (k extra : nat) (i : Z) :
  0 <= i -> i + Z.of_nat k = n ->
  for_chunks cs totalSize n (k + extra) i = for_chunks cs totalSize n k i.
Proof.
  pose proof ceil_bounds as Hb. unfold max_int64 in Hfit.
  revert i. induction k as [| k IH]; intros i Hi Hk.
  - destruct extra; cbn; [reflexivity |].
    destruct (Z.ltb_spec i n); [lia | reflexivity].
  - cbn [Nat.add for_chunks]. destruct (i <? n); [| reflexivity].
    f_equal. apply IH.
    + unfold add64. rewrite wrap64_small; [lia |].
      unfold in_int64, min_int64, max_int64. nia.
    + unfold add64. rewrite wrap64_small; [lia |].
      unfold in_int64, min_int64, max_int64. nia.
Qed.

Lemma download_plan_done :
  download_plan cs totalSize = Done (chunk_bounds cs totalSize <$> seqZ 0 n).
Proof.
  pose proof ceil_nonneg as Hn.
  unfold download_plan. destruct (Z.eqb_spec cs 0) as [| _]; [lia |].
  rewrite numChunks_of_ceil. unfold makechan.
  destruct (Z.ltb_spec n 0) as [| _]; [lia |]. cbn.
  f_equal. rewrite for_chunks_seqZ by lia. by rewrite Z2Nat.id by lia.
Qed.

Lemma upload_plan_done :
  upload_plan cs totalSize = Done (slice_bounds cs totalSize <$> seqZ 0 n).
Proof.
  pose proof ceil_nonneg as Hn.
  unfold upload_plan. destruct (Z.eqb_spec cs 0) as [| _]; [lia |].
  rewrite numChunks_of_ceil. unfold makechan.
  destruct (Z.ltb_spec n 0) as [| _]; [lia |]. cbn.
  f_equal. rewrite for_slices_seqZ by lia. by rewrite Z2Nat.id by lia.
Qed.

Lemma download_ranges_ideal :
  download_ranges (chunk_bounds cs totalSize <$> seqZ 0 n) = ideal_ranges cs totalSize.
Proof.
  unfold download_ranges, ideal_ranges.
  rewrite <- list_fmap_compose. apply list_fmap_ext.
  intros i x Hx. apply lookup_seqZ in Hx as [-> Hlt]. unfold compose.
  rewrite chunk_bounds_ideal by lia. reflexivity.
Qed.

Lemma upload_ranges_ideal :
  upload_ranges (slice_bounds cs totalSize <$> seqZ 0 n) = ideal_ranges cs totalSize.
Proof.
  unfold upload_ranges, ideal_ranges.
  rewrite <- list_fmap_compose. apply list_fmap_ext.
  intros i x Hx. apply lookup_seqZ in Hx as [-> Hlt]. unfold compose.
  rewrite slice_bounds_ideal by lia. unfold slice_end. cbn. f_equal. lia.
Qed.

Lemma ideal_lookup (i : nat) (r : Z * Z) :
  ideal_ranges cs totalSize !! i = Some r <->
  Z.of_nat i < n /\
  r = (Z.of_nat i * cs, Z.min (Z.of_nat i * cs + cs) totalSize - 1).
Proof.
  unfold ideal_ranges. rewrite list_lookup_fmap.
  split.
  - intros H. destruct (seqZ 0 n !! i) as [j |] eqn:Hj; [| discriminate].
    apply lookup_seqZ in Hj as [-> Hlt]. cbn in H.
    injection H as <-. split; [lia |]. f_equal.
  - intros [Hlt ->]. rewrite (lookup_seqZ_lt 0 n i) by lia. cbn. f_equal.
Qed.

Lemma ideal_length : length (ideal_ranges cs totalSize) = Z.to_nat n.
Proof. unfold ideal_ranges. by rewrite length_fmap, length_seqZ. Qed.

Lemma ideal_chained : chained totalSize (ideal_ranges cs totalSize).
Proof.
  pose proof ceil_bounds as Hb. pose proof ceil_nonneg as Hn.
  repeat split.
  - intros r Hr. apply ideal_lookup in Hr as [_ ->]. cbn. lia.
  - intros i r r' Hr Hr'.
    apply ideal_lookup in Hr as [Hi ->]. apply ideal_lookup in Hr' as [Hi' ->].
    cbn. nia.
  - intros r Hr. rewrite last_lookup, ideal_length in Hr.
    apply ideal_lookup in Hr as [Hi ->]. cbn. nia.
Qed.

Lemma ideal_covers : covers_exactly totalSize (ideal_ranges cs totalSize).
Proof.
  pose proof ceil_bounds as Hb. pose proof ceil_nonneg as Hn.
  split.
  - intros i r Hr. apply ideal_lookup in Hr as [Hi ->]. cbn. nia.
  - intros x Hx.
    pose proof (Z.mul_div_le x cs ltac:(lia)) as Hlo.
    pose proof (Z.mul_succ_div_gt x cs ltac:(lia)) as Hhi.
    assert (Hq : 0 <= x / cs) by (apply Z.div_pos; lia).
    exists (Z.to_nat (x / cs)), (x / cs * cs, Z.min (x / cs * cs + cs) totalSize - 1).
    split; [| split].
    + apply ideal_lookup. rewrite Z2Nat.id by lia. split; [nia | reflexivity].
    + cbn. nia.
    + intros j r' Hr' Hin. apply ideal_lookup in Hr' as [Hj ->]. cbn in Hin.
      assert (Z.of_nat j = x / cs) by nia. lia.
Qed.

End PlannerFacts.

Lemma quot_small_neg (a b : Z) : 0 < b -> - b < a < b -> Z.quot a b = 0.
Proof.
  intros Hb Ha. destruct (Z_lt_le_dec a 0) as [Hneg | Hpos].
  - replace a with (- (- a)) by lia. rewrite Z.quot_opp_l by lia.
    rewrite Z.quot_small; lia.
  - apply Z.quot_small; lia.
Qed.

Lemma quot_le_neg (a b : Z) : 0 < b -> a <= - b -> Z.quot a b <= -1.
Proof.
  intros Hb Ha. replace a with (- (- a)) by lia. rewrite Z.quot_opp_l by lia.
  rewrite Z.quot_div_nonneg by lia.
  assert (1 <= - a / b) by (apply Z.div_le_lower_bound; lia). lia.
Qed.

Lemma numChunks_of_negative (cs totalSize : Z) :
  1 <= cs <= max_int64 -> min_int64 <= totalSize < 0 ->
  Planner.numChunks_of cs totalSize = Z.quot (totalSize + cs - 1) cs.
Proof.
  unfold min_int64, max_int64. intros Hcs Hts.
  unfold Planner.numChunks_of, add64, sub64, quot64.
  rewrite wrap64_sub_wrap.
  rewrite (wrap64_small (totalSize + cs - 1))
    by (unfold in_int64, min_int64, max_int64; lia).
  apply wrap64_small. unfold in_int64, min_int64, max_int64.
  destruct (Z_lt_le_dec (totalSize + cs - 1) 0) as [Hneg | Hpos].
  - pose proof (Z.quot_opp_l (- (totalSize + cs - 1)) cs ltac:(lia)) as Ho.
    rewrite Z.opp_involutive in Ho. rewrite Ho.
    rewrite Z.quot_div_nonneg by lia.
    assert (0 <= - (totalSize + cs - 1) / cs) by (apply Z.div_pos; lia).
    assert (- (totalSize + cs - 1) / cs <= - (totalSize + cs - 1))
      by (apply Z.div_le_upper_bound; nia).
    lia.
  - rewrite Z.quot_small by lia. lia.
Qed.

(** ** Claims about the planner *)

(** C1 (amended). For every [totalSize >= 0] and [chunkSize >= 1] whose sum
    [totalSize + chunkSize - 1] is representable in 64 bits, the
    descriptors computed by [DownloadFileParallel] and the slices computed
    by [uploadFileParallel] partition [[0, totalSize)]: the first range
    starts at 0, each range starts one past the end of the previous one,
    the last range ends at [totalSize - 1], and every offset below
    [totalSize] lies in exactly one range. *)
Theorem plan_partitions (cs totalSize : Z) :
  0 <= totalSize -> 1 <= cs -> totalSize + cs - 1 <= max_int64 ->
  (exists plan,
     Planner.download_plan cs totalSize = Done plan /\
     chained totalSize (download_ranges plan) /\
     covers_exactly totalSize (download_ranges plan)) /\
  (exists slices,
     Planner.upload_plan cs totalSize = Done slices /\
     chained totalSize (upload_ranges slices) /\
     covers_exactly totalSize (upload_ranges slices)).
Proof.
  intros Hts Hcs Hfit. split.
  - eexists. split; [by apply download_plan_done |].
    rewrite download_ranges_ideal by assumption.
    split; [by apply ideal_chained | by apply ideal_covers].
  - eexists. split; [by apply upload_plan_done |].
    rewrite upload_ranges_ideal by assumption.
    split; [by apply ideal_chained | by apply ideal_covers].
Qed.

Lemma plan_partitions_witness :
  (exists plan,
     Planner.download_plan Planner.defaultChunkSize 23000000 = Done plan /\
     chained 23000000 (download_ranges plan) /\
     covers_exactly 23000000 (download_ranges plan)) /\
  (exists slices,
     Planner.upload_plan Planner.defaultChunkSize 23000000 = Done slices /\
     chained 23000000 (upload_ranges slices) /\
     covers_exactly 23000000 (upload_ranges slices)).
Proof.
  apply (plan_partitions Planner.defaultChunkSize 23000000);
    unfold Planner.defaultChunkSize, max_int64; lia.
Defined.

(** C1 as stated fails at the top of the [int64] range: for a file of
    [2^63 - 1] bytes the chunk count wraps to a negative number and both
    transfer directions panic in [make(chan ...)] instead of planning. *)
Lemma plan_partitions_counterexample :
  0 <= max_int64 /\ 1 <= Planner.defaultChunkSize /\
  Planner.DownloadFileParallel_plan max_int64 = Panicked MakechanSizeOutOfRange /\
  Planner.uploadFileParallel_plan max_int64 = Panicked MakechanSizeOutOfRange /\
  ~ (exists plan,
       Planner.DownloadFileParallel_plan max_int64 = Done plan /\
       covers_exactly max_int64 (download_ranges plan)).
Proof.
  split; [unfold max_int64; lia |].
  split; [unfold Planner.defaultChunkSize; lia |].
  assert (Hd : Planner.DownloadFileParallel_plan max_int64
               = Panicked MakechanSizeOutOfRange) by (vm_compute; reflexivity).
  split; [exact Hd |]. split; [vm_compute; reflexivity |].
  intros (plan & Hplan & _). rewrite Hd in Hplan. discriminate.
Qed.

(** The scenario of 23,000,000 bytes in chunks of 5,000,000. *)
Example plan_23M :
  exists plan,
    Planner.download_plan 5000000 23000000 = Done plan /\
    download_ranges plan =
      [(0, 4999999); (5000000, 9999999); (10000000, 14999999);
       (15000000, 19999999); (20000000, 22999999)].
Proof. eexists. split; [vm_compute; reflexivity |]. vm_compute. reflexivity. Qed.

Section PlanShape.
Import Planner.
Variables cs totalSize : Z.
Hypothesis Hts : 0 <= totalSize.
Hypothesis Hcs : 1 <= cs.
Hypothesis Hfit : totalSize + cs - 1 <= max_int64.

Local Abbreviation n := ((totalSize + cs - 1) / cs).

Lemma plan_last_chunk (c : ChunkInfo) :
  last (chunk_bounds cs totalSize <$> seqZ 0 n) = Some c ->
  c = mkChunkInfo ((n - 1) * cs) (totalSize - 1) [] false None.
Proof.
  pose proof (ceil_bounds cs totalSize Hcs) as Hb.
  pose proof (ceil_nonneg cs totalSize Hts Hcs) as Hn.
  rewrite last_lookup, length_fmap, length_seqZ, list_lookup_fmap.
  intros H. destruct (seqZ 0 n !! _) as [i |] eqn:Hi; [| discriminate].
  apply lookup_seqZ in Hi as [-> Hlt]. cbn in H. injection H as <-.
  rewrite chunk_bounds_ideal by lia. f_equal; nia.
Qed.

Lemma plan_last_slice (u : UploadSlice) :
  last (slice_bounds cs totalSize <$> seqZ 0 n) = Some u ->
  u = mkUploadSlice (n - 1) ((n - 1) * cs) (totalSize - (n - 1) * cs).
Proof.
  pose proof (ceil_bounds cs totalSize Hcs) as Hb.
  pose proof (ceil_nonneg cs totalSize Hts Hcs) as Hn.
  rewrite last_lookup, length_fmap, length_seqZ, list_lookup_fmap.
  intros H. destruct (seqZ 0 n !! _) as [i |] eqn:Hi; [| discriminate].
  apply lookup_seqZ in Hi as [-> Hlt]. cbn in H. injection H as <-.
  rewrite slice_bounds_ideal by lia. f_equal; nia.
Qed.

Lemma plan_empty : totalSize = 0 -> seqZ 0 n = [].
Proof.
  intros ->. pose proof (ceil_bounds cs 0 Hcs) as Hb.
  assert (Hz : (0 + cs - 1) / cs = 0) by nia. by rewrite Hz.
Qed.

Lemma plan_single : totalSize = cs -> seqZ 0 n = [0].
Proof.
  intros ->. pose proof (ceil_bounds cs cs Hcs) as Hb.
  assert (Hz : (cs + cs - 1) / cs = 1) by nia. by rewrite Hz.
Qed.

Lemma plan_pair : totalSize = cs + 1 -> seqZ 0 n = [0; 1].
Proof.
  intros ->. pose proof (ceil_bounds cs (cs + 1) Hcs) as Hb.
  assert (Hz : (cs + 1 + cs - 1) / cs = 2) by nia. by rewrite Hz.
Qed.

End PlanShape.

(** C6 (amended). For every [totalSize >= 0] and [chunkSize >= 1] whose sum
    [totalSize + chunkSize - 1] is representable in 64 bits, the number [n]
    of planned chunks is [ceil(totalSize / chunkSize)], that is
    [(n-1)*chunkSize < totalSize <= n*chunkSize]; the last chunk has
    [totalSize - (n-1)*chunkSize] bytes, at least 1 and at most
    [chunkSize]; [totalSize = 0] gives the empty plan, on which the
    reassembly goroutine closes the stream after zero bytes;
    [totalSize = chunkSize] gives one chunk and
    [totalSize = chunkSize + 1] two chunks, the second of one byte. The
    upload slices have the same count and sizes. *)
Theorem plan_count_and_sizes (cs totalSize : Z) :
  0 <= totalSize -> 1 <= cs -> totalSize + cs - 1 <= max_int64 ->
  exists plan slices,
    Planner.download_plan cs totalSize = Done plan /\
    Planner.upload_plan cs totalSize = Done slices /\
    length slices = length plan /\
    let n := Z.of_nat (length plan) in
    (n - 1) * cs < totalSize <= n * cs /\
    n = Planner.numChunks_of cs totalSize /\
    (forall c, last plan = Some c ->
       End c - Start c + 1 = totalSize - (n - 1) * cs /\
       1 <= End c - Start c + 1 <= cs) /\
    (forall u, last slices = Some u ->
       Planner.size u = totalSize - (n - 1) * cs /\ 1 <= Planner.size u <= cs) /\
    (totalSize = 0 ->
       plan = [] /\ slices = [] /\
       let s := Sink.sink_goroutine (Planner.numChunks_of cs totalSize) [] Pipe.io_Pipe in
       Pipe.stream (Sink.pw s) = [] /\ Pipe.wclosed (Sink.pw s) = Some Pipe.EOF /\
       Sink.errors s = []) /\
    (totalSize = cs ->
       plan = [mkChunkInfo 0 (cs - 1) [] false None] /\
       slices = [Planner.mkUploadSlice 0 0 cs]) /\
    (totalSize = cs + 1 ->
       plan = [mkChunkInfo 0 (cs - 1) [] false None; mkChunkInfo cs cs [] false None] /\
       slices = [Planner.mkUploadSlice 0 0 cs; Planner.mkUploadSlice 1 cs 1]).
Proof.
  intros Hts Hcs Hfit.
  pose proof (ceil_bounds cs totalSize Hcs) as Hb.
  pose proof (ceil_nonneg cs totalSize Hts Hcs) as Hn.
  exists (Planner.chunk_bounds cs totalSize <$> seqZ 0 ((totalSize + cs - 1) / cs)),
         (Planner.slice_bounds cs totalSize <$> seqZ 0 ((totalSize + cs - 1) / cs)).
  split; [by apply download_plan_done |].
  split; [by apply upload_plan_done |].
  split; [by rewrite !length_fmap |].
  cbv zeta. rewrite length_fmap, length_seqZ, Z2Nat.id by lia.
  split; [exact Hb |].
  split; [symmetry; by apply numChunks_of_ceil |].
  split; [| split; [| split; [| split]]].
  - intros c Hc. apply plan_last_chunk in Hc; try assumption. subst c. cbn. nia.
  - intros u Hu. apply plan_last_slice in Hu; try assumption. subst u. cbn. nia.
  - intros H0. rewrite plan_empty by assumption.
    rewrite numChunks_of_ceil by assumption.
    assert (Hz : (totalSize + cs - 1) / cs = 0) by nia. rewrite Hz.
    repeat split; reflexivity.
  - intros H1. rewrite plan_single by assumption. cbn [fmap list_fmap].
    assert (Hz : (totalSize + cs - 1) / cs = 1) by nia.
    rewrite chunk_bounds_ideal, slice_bounds_ideal by lia.
    split; f_equal; f_equal; lia.
  - intros H2. rewrite plan_pair by assumption. cbn [fmap list_fmap].
    assert (Hz : (totalSize + cs - 1) / cs = 2) by nia.
    rewrite !chunk_bounds_ideal, !slice_bounds_ideal by lia.
    split; repeat f_equal; lia.
Qed.

Lemma plan_count_and_sizes_witness :
  exists plan slices,
    Planner.download_plan Planner.defaultChunkSize 23000000 = Done plan /\
    Planner.upload_plan Planner.defaultChunkSize 23000000 = Done slices /\
    length slices = length plan /\
    let n := Z.of_nat (length plan) in
    (n - 1) * Planner.defaultChunkSize < 23000000 <= n * Planner.defaultChunkSize /\
    n = Planner.numChunks_of Planner.defaultChunkSize 23000000 /\
    (forall c, last plan = Some c ->
       End c - Start c + 1 = 23000000 - (n - 1) * Planner.defaultChunkSize /\
       1 <= End c - Start c + 1 <= Planner.defaultChunkSize) /\
    (forall u, last slices = Some u ->
       Planner.size u = 23000000 - (n - 1) * Planner.defaultChunkSize /\
       1 <= Planner.size u <= Planner.defaultChunkSize) /\
    (23000000 = 0 ->
       plan = [] /\ slices = [] /\
       let s := Sink.sink_goroutine
                  (Planner.numChunks_of Planner.defaultChunkSize 23000000) []
                  Pipe.io_Pipe in
       Pipe.stream (Sink.pw s) = [] /\ Pipe.wclosed (Sink.pw s) = Some Pipe.EOF /\
       Sink.errors s = []) /\
    (23000000 = Planner.defaultChunkSize ->
       plan = [mkChunkInfo 0 (Planner.defaultChunkSize - 1) [] false None] /\
       slices = [Planner.mkUploadSlice 0 0 Planner.defaultChunkSize]) /\
    (23000000 = Planner.defaultChunkSize + 1 ->
       plan = [mkChunkInfo 0 (Planner.defaultChunkSize - 1) [] false None;
               mkChunkInfo Planner.defaultChunkSize Planner.defaultChunkSize [] false None] /\
       slices = [Planner.mkUploadSlice 0 0 Planner.defaultChunkSize;
                 Planner.mkUploadSlice 1 Planner.defaultChunkSize 1]).
Proof.
  apply (plan_count_and_sizes Planner.defaultChunkSize 23000000);
    unfold Planner.defaultChunkSize, max_int64; lia.
Defined.

(** C6 as stated fails where the chunk count overflows: a file of
    [2^63 - 1] bytes yields no plan at all, although the ceiling of
    [totalSize / chunkSize] is positive. *)
Lemma plan_count_counterexample :
  0 <= max_int64 /\ 1 <= Planner.defaultChunkSize /\
  Planner.numChunks_of Planner.defaultChunkSize max_int64 < 0 /\
  ~ (exists plan,
       Planner.DownloadFileParallel_plan max_int64 = Done plan /\
       (Z.of_nat (length plan) - 1) * Planner.defaultChunkSize < max_int64
         <= Z.of_nat (length plan) * Planner.defaultChunkSize).
Proof.
  split; [unfold max_int64; lia |].
  split; [unfold Planner.defaultChunkSize; lia |].
  split; [vm_compute; reflexivity |].
  intros (plan & Hplan & _).
  assert (Hd : Planner.DownloadFileParallel_plan max_int64
               = Panicked MakechanSizeOutOfRange) by (vm_compute; reflexivity).
  rewrite Hd in Hplan. discriminate.
Qed.

(** C9 (amended). The planning computation of both transfer directions
    never returns an error: it validates nothing. A negative [totalSize]
    above [-2*chunkSize + 1] silently gives the empty plan, a smaller one
    makes [make(chan ...)] panic on a negative size; every
    [totalSize >= 0] with [chunkSize >= 1] and a representable
    [totalSize + chunkSize - 1] gives a plan, the empty one when
    [totalSize = 0]. *)
Theorem plan_validates_nothing (cs totalSize : Z) :
  1 <= cs <= max_int64 -> min_int64 <= totalSize ->
  (forall e, Planner.download_plan cs totalSize <> Failed e /\
             Planner.upload_plan cs totalSize <> Failed e) /\
  (- 2 * cs + 1 < totalSize < 0 ->
     Planner.download_plan cs totalSize = Done [] /\
     Planner.upload_plan cs totalSize = Done []) /\
  (totalSize <= - 2 * cs + 1 ->
     Planner.download_plan cs totalSize = Panicked MakechanSizeOutOfRange /\
     Planner.upload_plan cs totalSize = Panicked MakechanSizeOutOfRange) /\
  (0 <= totalSize -> totalSize + cs - 1 <= max_int64 ->
     exists plan slices,
       Planner.download_plan cs totalSize = Done plan /\
       Planner.upload_plan cs totalSize = Done slices /\
       (totalSize = 0 -> plan = [] /\ slices = [])).
Proof.
  intros Hcs Hts. split; [| split; [| split]].
  - intros e. unfold Planner.download_plan, Planner.upload_plan, makechan.
    split; destruct (cs =? 0); try discriminate;
      destruct (_ <? 0); cbn; discriminate.
  - intros Hneg.
    assert (Hn : Planner.numChunks_of cs totalSize = 0).
    { rewrite numChunks_of_negative by lia. apply quot_small_neg; lia. }
    unfold Planner.download_plan, Planner.upload_plan.
    destruct (Z.eqb_spec cs 0) as [| _]; [lia |]. rewrite Hn. split; reflexivity.
  - intros Hneg.
    assert (Hn : Planner.numChunks_of cs totalSize < 0).
    { rewrite numChunks_of_negative by lia.
      pose proof (quot_le_neg (totalSize + cs - 1) cs ltac:(lia) ltac:(lia)). lia. }
    unfold Planner.download_plan, Planner.upload_plan, makechan.
    destruct (Z.eqb_spec cs 0) as [| _]; [lia |].
    destruct (Z.ltb_spec (Planner.numChunks_of cs totalSize) 0) as [_ |]; [| lia].
    split; reflexivity.
  - intros H0 Hfit. do 2 eexists.
    split; [apply download_plan_done; lia |].
    split; [apply upload_plan_done; lia |].
    intros Hz. rewrite plan_empty by lia. split; reflexivity.
Qed.

Lemma plan_validates_nothing_witness :
  (forall e, Planner.download_plan Planner.defaultChunkSize (-1) <> Failed e /\
             Planner.upload_plan Planner.defaultChunkSize (-1) <> Failed e) /\
  (- 2 * Planner.defaultChunkSize + 1 < -1 < 0 ->
     Planner.download_plan Planner.defaultChunkSize (-1) = Done [] /\
     Planner.upload_plan Planner.defaultChunkSize (-1) = Done []) /\
  (-1 <= - 2 * Planner.defaultChunkSize + 1 ->
     Planner.download_plan Planner.defaultChunkSize (-1) = Panicked MakechanSizeOutOfRange /\
     Planner.upload_plan Planner.defaultChunkSize (-1) = Panicked MakechanSizeOutOfRange) /\
  (0 <= -1 -> -1 + Planner.defaultChunkSize - 1 <= max_int64 ->
     exists plan slices,
       Planner.download_plan Planner.defaultChunkSize (-1) = Done plan /\
       Planner.upload_plan Planner.defaultChunkSize (-1) = Done slices /\
       (-1 = 0 -> plan = [] /\ slices = [])).
Proof.
  apply (plan_validates_nothing Planner.defaultChunkSize (-1));
    unfold Planner.defaultChunkSize, min_int64, max_int64; lia.
Defined.

(** C9 as stated fails for a negative size: a file size of [-1] is
    answered with the empty plan and no error by both directions, and a
    size of [-2^40] with a panic, never with an invalid-argument error. *)
Lemma plan_negative_counterexample :
  Planner.DownloadFileParallel_plan (-1) = Done [] /\
  Planner.uploadFileParallel_plan (-1) = Done [] /\
  Planner.DownloadFileParallel_plan (- 2 ^ 40) = Panicked MakechanSizeOutOfRange /\
  ~ (exists e, Planner.DownloadFileParallel_plan (-1) = Failed e).
Proof.
  repeat split; try (vm_compute; reflexivity).
  intros [e He]. vm_compute in He. discriminate.
Qed.

(** ** The reassembly goroutine *)

Lemma total_length_cons (r : ChunkInfo) (l : list ChunkInfo) :
  total_length (r :: l) = Z.of_nat (length (Data r)) + total_length l.
Proof. unfold total_length. cbn. rewrite length_app. lia. Qed.

Lemma total_length_app (l1 l2 : list ChunkInfo) :
  total_length (l1 ++ l2) = total_length l1 + total_length l2.
Proof.
  induction l1 as [| r l1 IH]; [reflexivity |].
  cbn [app]. rewrite !total_length_cons, IH. lia.
Qed.

Lemma total_length_nonneg (l : list ChunkInfo) : 0 <= total_length l.
Proof. unfold total_length. lia. Qed.

Lemma contiguous_tail_gt (off : Z) (r r' : ChunkInfo) (l : list ChunkInfo) :
  contiguous off (r :: l) -> r' ∈ l -> off < Start r'.
Proof.
  revert off r. induction l as [| x l IH]; intros off r Hc Hin.
  - by apply elem_of_nil in Hin.
  - destruct Hc as (Hs & _ & Hd & Hs' & He' & Hd' & Hc').
    assert (0 < Z.of_nat (length (Data r)))
      by (destruct (Data r); [done | cbn; lia]).
    apply elem_of_cons in Hin as [-> | Hin]; [lia |].
    assert (off + Z.of_nat (length (Data r)) < Start r'); [| lia].
    apply (IH _ x); [| done]. by repeat split.
Qed.

Lemma contiguous_error (off : Z) (l : list ChunkInfo) (r : ChunkInfo) :
  contiguous off l -> r ∈ l -> Error r = None.
Proof.
  revert off. induction l as [| x l IH]; intros off Hc Hin.
  - by apply elem_of_nil in Hin.
  - destruct Hc as (_ & He & _ & Hc).
    apply elem_of_cons in Hin as [-> | Hin]; [done | by eapply IH].
Qed.

Lemma contiguous_inj (off : Z) (l : list ChunkInfo) (r r' : ChunkInfo) :
  contiguous off l -> r ∈ l -> r' ∈ l -> Start r = Start r' -> r = r'.
Proof.
  revert off. induction l as [| x l IH]; intros off Hc Hr Hr' Heq.
  - by apply elem_of_nil in Hr.
  - pose proof Hc as (Hs & _ & _ & Hc').
    apply elem_of_cons in Hr as [-> | Hr]; apply elem_of_cons in Hr' as [-> | Hr'].
    + done.
    + pose proof (contiguous_tail_gt _ _ _ _ Hc Hr'). lia.
    + pose proof (contiguous_tail_gt _ _ _ _ Hc Hr). lia.
    + by eapply IH.
Qed.

Lemma contiguous_NoDup (off : Z) (l : list ChunkInfo) : contiguous off l -> NoDup l.
Proof.
  revert off. induction l as [| x l IH]; intros off Hc; [constructor |].
  pose proof Hc as (Hs & _ & _ & Hc'). constructor; [| by eapply IH].
  intros Hin. pose proof (contiguous_tail_gt _ _ _ _ Hc Hin). lia.
Qed.

Lemma contiguous_app (off : Z) (l1 l2 : list ChunkInfo) :
  contiguous off (l1 ++ l2) ->
  contiguous off l1 /\ contiguous (off + total_length l1) l2.
Proof.
  revert off. induction l1 as [| x l1 IH]; intros off Hc.
  - cbn. split; [done |]. unfold total_length. cbn. by rewrite Z.add_0_r.
  - destruct Hc as (Hs & He & Hd & Hc). apply IH in Hc as [H1 H2].
    split; [by repeat split |].
    rewrite total_length_cons. by rewrite Z.add_assoc.
Qed.

(** The loop never closes the write side: only the deferred
    [pw.Close()] does, and it closes without an error. *)
Lemma write_in_order_wclosed (fuel : nat) (s : Sink.sink) :
  Pipe.wclosed (Sink.pw (Sink.write_in_order fuel s).2) = Pipe.wclosed (Sink.pw s).
Proof.
  revert s. induction fuel as [| fuel IH]; intros s; [reflexivity |].
  cbn [Sink.write_in_order].
  destruct (Sink.assembledData s !! Sink.currentOffset s) as [d |]; [| reflexivity].
  unfold Pipe.pw_Write. destruct (Pipe.rclosed (Sink.pw s)); [reflexivity |].
  by rewrite IH.
Qed.

(** The size of the buffer is fuel enough for the writing loop: with
    more fuel it ends in the same state. *)
Lemma write_in_order_fuel (fuel extra : nat) (s : Sink.sink) :
  (size (Sink.assembledData s) <= fuel)%nat ->
  Sink.write_in_order (fuel + extra) s = Sink.write_in_order fuel s.
Proof.
  revert s. induction fuel as [| fuel IH]; intros s Hsize.
  - assert (Hem : Sink.assembledData s = ∅) by (apply map_size_empty_inv; lia).
    destruct extra; cbn; [reflexivity |]. by rewrite Hem, lookup_empty.
  - cbn [Nat.add Sink.write_in_order].
    destruct (Sink.assembledData s !! Sink.currentOffset s) as [d |] eqn:Hd;
      [| reflexivity].
    destruct (Pipe.pw_Write d (Sink.pw s)) as [p' [e |]]; [reflexivity |].
    apply IH. cbn [Sink.assembledData].
    pose proof (map_size_delete_Some (Sink.currentOffset s) (Sink.assembledData s)
                  ltac:(eauto)). lia.
Qed.

Lemma receive_results_wclosed (n : nat) (arrivals : list ChunkInfo) (s : Sink.sink) :
  Pipe.wclosed (Sink.pw (Sink.receive_results n arrivals s)) = Pipe.wclosed (Sink.pw s).
Proof.
  revert arrivals s. induction n as [| n IH]; intros arrivals s; [reflexivity |].
  cbn [Sink.receive_results].
  destruct (Sink.recv arrivals) as [result rest]. unfold Sink.accept.
  destruct (Error result) as [e |]; [reflexivity |].
  match goal with
  | |- context [Sink.write_in_order ?f ?s0] =>
      pose proof (write_in_order_wclosed f s0) as Hw;
      destruct (Sink.write_in_order f s0) as [[|] s']
  end; cbn in Hw; [by rewrite IH |done].
Qed.

Lemma sink_goroutine_clean_eof (numChunks : Z) (arrivals : list ChunkInfo) :
  Pipe.wclosed (Sink.pw (Sink.sink_goroutine numChunks arrivals Pipe.io_Pipe))
  = Some Pipe.EOF.
Proof.
  unfold Sink.sink_goroutine. cbn [Sink.pw]. unfold Pipe.pw_Close.
  by rewrite receive_results_wclosed.
Qed.

Section Reassembly.
Import Pipe Sink.

Lemma write_in_order_spec (seen : list ChunkInfo) :
  forall (todo : list ChunkInfo) (fuel : nat) (s : sink) (off : Z),
    contiguous off todo -> 0 <= off -> off + total_length todo <= max_int64 ->
    currentOffset s = off -> buffered seen todo (assembledData s) ->
    rclosed (pw s) = None ->
    (size (assembledData s) <= fuel)%nat ->
    exists d1 todo' s',
      todo = d1 ++ todo' /\ write_in_order fuel s = (Continue, s') /\
      writes (pw s') = writes (pw s) ++ (Data <$> d1) /\
      currentOffset s' = off + total_length d1 /\
      buffered seen todo' (assembledData s') /\
      (forall r, r ∈ d1 -> r ∈ seen) /\
      (forall r, head todo' = Some r -> r ∉ seen) /\
      errors s' = errors s /\ rclosed (pw s') = None /\
      wclosed (pw s') = wclosed (pw s).
Proof.
  induction todo as [| r todo IH]; intros fuel s off Hc Hoff Hfit Hcur Hbuf Hopen Hfuel.
  - exists [], [], s.
    assert (Hnone : assembledData s !! currentOffset s = None).
    { destruct (assembledData s !! currentOffset s) as [d |] eqn:Hd; [| done].
      apply Hbuf in Hd as (r & Hin & _). by apply elem_of_nil in Hin. }
    split_and!; try done.
    + destruct fuel; cbn; [done |]. by rewrite Hnone.
    + by rewrite app_nil_r.
    + unfold total_length. cbn. lia.
    + intros r Hin. by apply elem_of_nil in Hin.
  - destruct (assembledData s !! off) as [d |] eqn:Hd.
    + pose proof Hd as Hd'. apply Hbuf in Hd' as (r0 & Hin & Hseen & Hst & Hdat).
      assert (r0 = r) as ->.
      { apply elem_of_cons in Hin as [-> | Hin]; [done |].
        pose proof (contiguous_tail_gt _ _ _ _ Hc Hin). lia. }
      subst d. destruct Hc as (Hs & He & Hne & Hc).
      rewrite total_length_cons in Hfit.
      pose proof (total_length_nonneg todo) as Hnn.
      destruct fuel as [| fuel].
      { assert (assembledData s = ∅) as Hem by (apply map_size_empty_inv; lia).
        rewrite Hem, lookup_empty in Hd. discriminate. }
      set (s1 := {| assembledData := delete off (assembledData s);
                    currentOffset := off + Z.of_nat (length (Data r));
                    pw := {| writes := writes (pw s) ++ [Data r];
                             wclosed := wclosed (pw s); rclosed := rclosed (pw s) |};
                    errors := errors s |}).
      assert (Hstep : write_in_order (S fuel) s = write_in_order fuel s1).
      { cbn [write_in_order]. rewrite Hcur, Hd. unfold pw_Write, s1.
        rewrite !Hopen.
        replace (add64 off (Z.of_nat (length (Data r))))
          with (off + Z.of_nat (length (Data r))); [reflexivity |].
        symmetry. apply wrap64_small.
        unfold in_int64, min_int64, max_int64 in *. lia. }
      destruct (IH fuel s1 (off + Z.of_nat (length (Data r))))
        as (d1 & todo' & s' & Htodo & Hrun & Hw & Ho & Hb & Hd1 & Hh & Herr & Hro & Hwo);
        try done; try lia.
      { intros k d. unfold s1. cbn [assembledData]. rewrite lookup_delete_Some.
        split.
        - intros [Hk Hm]. apply Hbuf in Hm as (r0 & Hin0 & Hs0 & Hk0 & Hd0).
          exists r0. split_and!; try done.
          apply elem_of_cons in Hin0 as [-> | Hin0]; [congruence | done].
        - intros (r0 & Hin0 & Hs0 & Hk0 & Hd0). split.
          + assert (off < Start r0); [| lia].
            apply (contiguous_tail_gt off r r0 todo); [by split_and! | done].
          + apply Hbuf. exists r0. split_and!; try done. by apply elem_of_cons; right. }
      { unfold s1. cbn [assembledData].
        pose proof (map_size_delete_Some off (assembledData s) ltac:(eauto)). lia. }
      exists (r :: d1), todo', s'. split_and!; try done.
      * by rewrite Htodo.
      * by rewrite Hstep.
      * rewrite Hw. unfold s1. cbn. by rewrite <- app_assoc.
      * rewrite Ho, total_length_cons. lia.
      * intros r0 Hr0. apply elem_of_cons in Hr0 as [-> | Hr0]; [done | by apply Hd1].
    + exists [], (r :: todo), s. split_and!; try done.
      * destruct fuel; cbn; [done |]. by rewrite Hcur, Hd.
      * by rewrite app_nil_r.
      * unfold total_length. cbn. lia.
      * intros r0 Hr0. by apply elem_of_nil in Hr0.
      * intros r0 [= <-] Hseen. destruct Hc as (Hs & _).
        assert (assembledData s !! off = Some (Data r)); [| congruence].
        apply Hbuf. exists r. split_and!; try done. by apply elem_of_cons; left.
Qed.

Variable rs : list ChunkInfo.
Hypothesis rs_contiguous : contiguous 0 rs.
Hypothesis rs_fit : total_length rs <= max_int64.

Lemma accept_spec (seen done todo : list ChunkInfo) (s : sink) (r : ChunkInfo) :
  rs = done ++ todo -> sink_inv seen done todo s -> r ∈ rs -> r ∉ seen ->
  exists done' todo' s',
    accept r s = (Continue, s') /\ rs = done' ++ todo' /\
    sink_inv (seen ++ [r]) done' todo' s'.
Proof.
  intros Hrs [Hw Ho Hb Hd Hh He Hro Hwo] Hin Hnew.
  pose proof rs_contiguous as Hc. rewrite Hrs in Hc.
  apply contiguous_app in Hc as [Hc1 Hc2]. rewrite Z.add_0_l in Hc2.
  assert (Hto : r ∈ todo).
  { rewrite Hrs in Hin. apply elem_of_app in Hin as [Hin | Hin]; [| done].
    by apply Hd in Hin. }
  assert (Hinj : forall r0, r0 ∈ todo -> Start r0 = Start r -> r0 = r).
  { intros r0 Hr0 Heq. by apply (contiguous_inj _ _ _ _ Hc2). }
  unfold accept. rewrite (contiguous_error _ _ _ rs_contiguous Hin).
  set (stored := <[Start r := Data r]> (assembledData s)).
  set (s0 := {| assembledData := stored; currentOffset := currentOffset s;
                pw := pw s; errors := errors s |}).
  destruct (write_in_order_spec (seen ++ [r]) todo (size stored) s0 (total_length done))
    as (d1 & todo' & s' & Htodo & Hrun & Hw' & Ho' & Hb' & Hd1 & Hh' & Herr & Hro' & Hwo');
    try done.
  - apply total_length_nonneg.
  - rewrite Hrs, total_length_app in rs_fit. lia.
  - intros k d. unfold s0, stored. cbn [assembledData].
    rewrite lookup_insert_Some. split.
    + intros [[<- <-] | [Hne Hm]].
      * exists r. split_and!; try done. apply elem_of_app. right. by apply list_elem_of_singleton.
      * apply Hb in Hm as (r0 & Hr0 & Hs0 & Hk & Hdat).
        exists r0. split_and!; try done. apply elem_of_app. by left.
    + intros (r0 & Hr0 & Hs0 & Hk & Hdat).
      apply elem_of_app in Hs0 as [Hs0 | Hs0].
      * right. split.
        -- intros Heq. assert (r0 = r) by (apply Hinj; [done | congruence]).
           by subst r0.
        -- apply Hb. by exists r0.
      * apply list_elem_of_singleton in Hs0 as ->. left. by split.
  - exists (done ++ d1), todo', s'. split; [done |]. split.
    + by rewrite Hrs, Htodo, app_assoc.
    + split; try done.
      * rewrite Hw'. unfold s0. cbn [pw]. by rewrite Hw, fmap_app.
      * by rewrite Ho', total_length_app.
      * intros r0 Hr0. apply elem_of_app in Hr0 as [Hr0 | Hr0].
        -- apply elem_of_app. left. by apply Hd.
        -- by apply Hd1.
      * by rewrite Herr.
      * by rewrite Hwo'.
Qed.

Lemma receive_results_spec :
  forall (arrivals seen done todo : list ChunkInfo) (s : sink) (k : nat),
    rs = done ++ todo -> sink_inv seen done todo s ->
    NoDup (seen ++ arrivals) -> (forall r, r ∈ arrivals -> r ∈ rs) ->
    (k <= length arrivals)%nat ->
    exists done' todo',
      rs = done' ++ todo' /\
      sink_inv (seen ++ take k arrivals) done' todo' (receive_results k arrivals s).
Proof.
  induction arrivals as [| r rest IH]; intros seen done todo s k Hrs Hinv Hnd Hall Hk.
  - assert (k = 0%nat) as -> by (cbn in Hk; lia).
    exists done, todo. cbn. by rewrite app_nil_r.
  - destruct k as [| k].
    { exists done, todo. cbn. by rewrite app_nil_r. }
    assert (Hnew : r ∉ seen).
    { apply NoDup_app in Hnd as (_ & Hdis & _). intros Hin.
      apply (Hdis r Hin). by apply elem_of_cons; left. }
    destruct (accept_spec seen done todo s r) as (done' & todo' & s' & Hacc & Hrs' & Hinv');
      try done.
    { apply Hall. by apply elem_of_cons; left. }
    cbn [receive_results recv]. rewrite Hacc.
    destruct (IH (seen ++ [r]) done' todo' s' k) as (done'' & todo'' & Hrs'' & Hinv'');
      try done.
    + by rewrite <- app_assoc.
    + intros r0 Hr0. apply Hall. by apply elem_of_cons; right.
    + cbn in Hk. lia.
    + exists done'', todo''. split; [done |].
      cbn [take]. by rewrite <- app_assoc in Hinv''.
Qed.

(** Results that arrive while nothing has failed never end the loop. *)
Lemma receive_results_app :
  forall (arrivals seen done todo : list ChunkInfo) (s : sink) (m : nat)
         (rest : list ChunkInfo),
    rs = done ++ todo -> sink_inv seen done todo s ->
    NoDup (seen ++ arrivals) -> (forall r, r ∈ arrivals -> r ∈ rs) ->
    receive_results (length arrivals + m) (arrivals ++ rest) s =
    receive_results m rest (receive_results (length arrivals) arrivals s).
Proof.
  induction arrivals as [| r arrivals IH]; intros seen done todo s m rest Hrs Hinv Hnd Hall.
  - reflexivity.
  - assert (Hnew : r ∉ seen).
    { apply NoDup_app in Hnd as (_ & Hdis & _). intros Hin.
      apply (Hdis r Hin). by apply elem_of_cons; left. }
    destruct (accept_spec seen done todo s r) as (done' & todo' & s' & Hacc & Hrs' & Hinv');
      try done.
    { apply Hall. by apply elem_of_cons; left. }
    cbn [length Nat.add app receive_results recv]. rewrite Hacc.
    apply (IH (seen ++ [r]) done' todo'); try done.
    + by rewrite <- app_assoc.
    + intros r0 Hr0. apply Hall. by apply elem_of_cons; right.
Qed.

Lemma start_inv : sink_inv [] [] rs (start io_Pipe).
Proof.
  split; try done.
  - intros k d. cbn. rewrite lookup_empty. split; [done |].
    intros (r & _ & Hin & _). by apply elem_of_nil in Hin.
  - intros r _ Hin. by apply elem_of_nil in Hin.
Qed.

(** After any number of arrivals the payloads written so far are an
    initial segment of the payloads in offset order. *)
Lemma receive_results_prefix (arrivals : list ChunkInfo) (k : nat) :
  arrivals ≡ₚ rs -> (k <= length arrivals)%nat ->
  writes (pw (receive_results k arrivals (start io_Pipe))) `prefix_of` (Data <$> rs).
Proof.
  intros Hperm Hk.
  destruct (receive_results_spec arrivals [] [] rs (start io_Pipe) k)
    as (done & todo & Hrs & Hinv).
  - reflexivity.
  - apply start_inv.
  - cbn. rewrite Hperm. by eapply contiguous_NoDup.
  - intros r Hr. by rewrite <- Hperm.
  - exact Hk.
  - rewrite (inv_writes _ _ _ _ Hinv), Hrs, fmap_app. by apply prefix_app_r.
Qed.

Lemma receive_results_all (arrivals : list ChunkInfo) :
  arrivals ≡ₚ rs ->
  sink_inv arrivals rs [] (receive_results (length arrivals) arrivals (start io_Pipe)).
Proof.
  intros Hperm.
  destruct (receive_results_spec arrivals [] [] rs (start io_Pipe) (length arrivals))
    as (done & todo & Hrs & Hinv).
  - reflexivity.
  - apply start_inv.
  - cbn. rewrite Hperm. by eapply contiguous_NoDup.
  - intros r Hr. by rewrite <- Hperm.
  - lia.
  - rewrite firstn_all in Hinv. cbn [app] in Hinv.
    destruct todo as [| r todo].
    + rewrite app_nil_r in Hrs. by subst done.
    + exfalso. apply (inv_head _ _ _ _ Hinv r); [done |].
      rewrite Hperm, Hrs. apply elem_of_app. right. by apply elem_of_cons; left.
Qed.

End Reassembly.

(** The results of a plan fetched from a store that holds [content]. *)
Section PlannedResults.
Import Planner.
Variables cs totalSize : Z.
Variable content : list byte.
Hypothesis Hts : 0 <= totalSize.
Hypothesis Hcs : 1 <= cs.
Hypothesis Hfit : totalSize + cs - 1 <= max_int64.
Hypothesis Hlen : Z.of_nat (length content) = totalSize.

Local Abbreviation n := ((totalSize + cs - 1) / cs).
Local Abbreviation res_at := (result_at content cs totalSize).

Lemma result_at_ideal (i : Z) :
  0 <= i < n ->
  res_at i =
    mkChunkInfo (i * cs) (Z.min (i * cs + cs) totalSize - 1)
      (take (Z.to_nat (Z.min (i * cs + cs) totalSize - i * cs))
         (drop (Z.to_nat (i * cs)) content)) false None.
Proof.
  intros Hi. unfold result_at. rewrite chunk_bounds_ideal by assumption.
  unfold complete_result, slice. cbn. do 3 f_equal. lia.
Qed.

Lemma result_at_length (i : Z) :
  0 <= i < n ->
  Z.of_nat (length (Data (res_at i))) = Z.min (i * cs + cs) totalSize - i * cs.
Proof.
  intros Hi. pose proof (ceil_bounds cs totalSize Hcs) as Hb.
  rewrite result_at_ideal by assumption. cbn.
  rewrite length_take, length_drop. nia.
Qed.

Lemma results_contiguous_from (k : nat) (i : Z) :
  0 <= i -> i + Z.of_nat k = n ->
  contiguous (i * cs) (res_at <$> seqZ i (Z.of_nat k)).
Proof.
  pose proof (ceil_bounds cs totalSize Hcs) as Hb.
  revert i. induction k as [| k IH]; intros i Hi Hk; [done |].
  rewrite seqZ_cons by lia. rewrite fmap_cons.
  replace (Z.pred (Z.of_nat (S k))) with (Z.of_nat k) by lia.
  pose proof (result_at_length i ltac:(lia)) as Hl.
  cbn [contiguous]. split_and!.
  - rewrite result_at_ideal by lia. reflexivity.
  - reflexivity.
  - intros Hnil. rewrite Hnil in Hl. cbn in Hl. nia.
  - destruct k as [| k]; [done |].
    rewrite Hl. replace (i * cs + (Z.min (i * cs + cs) totalSize - i * cs))
      with (Z.succ i * cs) by nia.
    apply IH; lia.
Qed.

Lemma results_concat_from (k : nat) (i : Z) :
  0 <= i -> i + Z.of_nat k = n ->
  concat (Data <$> (res_at <$> seqZ i (Z.of_nat k))) = drop (Z.to_nat (i * cs)) content.
Proof.
  pose proof (ceil_bounds cs totalSize Hcs) as Hb.
  revert i. induction k as [| k IH]; intros i Hi Hk.
  - cbn. symmetry. apply drop_ge. nia.
  - rewrite seqZ_cons by lia. rewrite !fmap_cons.
    replace (Z.pred (Z.of_nat (S k))) with (Z.of_nat k) by lia.
    cbn [concat]. rewrite IH by lia.
    rewrite result_at_ideal by lia. cbn [Data].
    destruct (Z_lt_le_dec (i * cs + cs) totalSize) as [Hlt | Hge].
    + rewrite Z.min_l by lia.
      replace (Z.to_nat (Z.succ i * cs))
        with (Z.to_nat (i * cs) + Z.to_nat (i * cs + cs - i * cs))%nat by nia.
      rewrite <- drop_drop. apply take_drop.
    + rewrite Z.min_r by lia.
      rewrite (drop_ge content (Z.to_nat (Z.succ i * cs))) by nia.
      rewrite app_nil_r. apply take_ge. rewrite length_drop. lia.
Qed.

Lemma planned_results_contiguous :
  contiguous 0 (complete_result content <$> (chunk_bounds cs totalSize <$> seqZ 0 n)).
Proof.
  pose proof (ceil_nonneg cs totalSize Hts Hcs) as Hn.
  rewrite <- list_fmap_compose.
  pose proof (results_contiguous_from (Z.to_nat n) 0 ltac:(lia) ltac:(lia)) as H.
  rewrite Z2Nat.id in H by lia. exact H.
Qed.

Lemma planned_results_concat :
  concat (Data <$> (complete_result content <$> (chunk_bounds cs totalSize <$> seqZ 0 n)))
  = content.
Proof.
  pose proof (ceil_nonneg cs totalSize Hts Hcs) as Hn.
  rewrite <- (list_fmap_compose (chunk_bounds cs totalSize)).
  pose proof (results_concat_from (Z.to_nat n) 0 ltac:(lia) ltac:(lia)) as H.
  rewrite Z2Nat.id in H by lia. exact H.
Qed.

End PlannedResults.

(** What the workers deliver for a plan over a healthy store has the
    shape the reassembly needs: back-to-back, non-empty, error-free
    results whose payloads concatenate to the file. *)
Lemma planned_results (cs totalSize : Z) (content : list byte) (plan : list ChunkInfo) :
  0 <= totalSize -> 1 <= cs -> totalSize + cs - 1 <= max_int64 ->
  Z.of_nat (length content) = totalSize ->
  Planner.download_plan cs totalSize = Done plan ->
  contiguous 0 (complete_result content <$> plan) /\
  concat (Data <$> (complete_result content <$> plan)) = content /\
  total_length (complete_result content <$> plan) <= max_int64 /\
  Z.of_nat (length (complete_result content <$> plan)) = Planner.numChunks_of cs totalSize.
Proof.
  intros Hts Hcs Hfit Hlen Hplan.
  rewrite download_plan_done in Hplan by assumption. injection Hplan as <-.
  pose proof (ceil_nonneg cs totalSize Hts Hcs) as Hn.
  split_and!.
  - by apply planned_results_contiguous.
  - by apply planned_results_concat.
  - unfold total_length. rewrite planned_results_concat by assumption. lia.
  - rewrite !length_fmap, length_seqZ, numChunks_of_ceil by assumption. lia.
Qed.

(** The receive loop on a permutation of the results of a file. *)
Lemma sink_goroutine_in_order (content : list byte) (rs arrivals : list ChunkInfo) :
  contiguous 0 rs -> concat (Data <$> rs) = content ->
  Z.of_nat (length content) <= max_int64 -> arrivals ≡ₚ rs ->
  let s := Sink.sink_goroutine (Z.of_nat (length rs)) arrivals Pipe.io_Pipe in
  Pipe.stream (Sink.pw s) = content /\
  Pipe.writes (Sink.pw s) = Data <$> rs /\
  Pipe.wclosed (Sink.pw s) = Some Pipe.EOF /\
  Sink.errors s = [] /\
  Sink.assembledData s = ∅ /\
  Sink.currentOffset s = Z.of_nat (length content) /\
  forall k : nat, (k <= length arrivals)%nat ->
    Pipe.writes (Sink.pw (Sink.receive_results k arrivals (Sink.start Pipe.io_Pipe)))
      `prefix_of` (Data <$> rs).
Proof.
  intros Hc Hcontent Hfit Hperm. cbv zeta.
  assert (Hfit' : total_length rs <= max_int64)
    by (unfold total_length; by rewrite Hcontent).
  pose proof (receive_results_all rs Hc Hfit' arrivals Hperm) as Hinv.
  unfold Sink.sink_goroutine. rewrite Nat2Z.id.
  rewrite <- (Permutation_length Hperm).
  cbn [Sink.pw Sink.errors Sink.assembledData Sink.currentOffset].
  destruct Hinv as [Hw Ho Hb Hd Hh He Hro Hwo].
  unfold Pipe.stream, Pipe.pw_Close. rewrite Hwo. cbn [Pipe.writes Pipe.wclosed].
  split_and!; try done.
  - by rewrite Hw.
  - apply map_eq. intros k. rewrite lookup_empty.
    destruct (_ !! k) as [d |] eqn:Hk; [| done].
    apply Hb in Hk as (r & Hin & _). by apply elem_of_nil in Hin.
  - rewrite Ho. unfold total_length. by rewrite Hcontent.
  - intros k Hk. by apply receive_results_prefix.
Qed.

(** ** Claims about the reassembly goroutine *)

(** C2. Let [rs] be the successful results of the chunks of a file
    [content] in offset order: back to back from offset 0, none empty,
    their payloads making up [content], whose size an [int64] can hold,
    and let the reader keep its side of the pipe open. Whatever
    permutation [arrivals] of [rs] the [results] channel
    delivers, the goroutine writes the payloads to the pipe exactly in
    offset order, so the stream read from the pipe is [content]; it is
    closed by a clean end of stream, nothing is left in the buffer and no
    error is queued; and after any number [k] of arrivals the payloads
    written so far are an initial segment of the payloads in offset order:
    no chunk is written before all chunks of lower offsets. *)
Theorem reassembly_restores_order (content : list byte) (rs arrivals : list ChunkInfo) :
  contiguous 0 rs -> concat (Data <$> rs) = content ->
  Z.of_nat (length content) <= max_int64 -> arrivals ≡ₚ rs ->
  let s := Sink.sink_goroutine (Z.of_nat (length rs)) arrivals Pipe.io_Pipe in
  Pipe.stream (Sink.pw s) = content /\
  Pipe.writes (Sink.pw s) = Data <$> rs /\
  Pipe.wclosed (Sink.pw s) = Some Pipe.EOF /\
  Sink.errors s = [] /\
  Sink.assembledData s = ∅ /\
  Sink.currentOffset s = Z.of_nat (length content) /\
  forall k : nat, (k <= length arrivals)%nat ->
    Pipe.writes (Sink.pw (Sink.receive_results k arrivals (Sink.start Pipe.io_Pipe)))
      `prefix_of` (Data <$> rs).
Proof. apply sink_goroutine_in_order. Qed.

Lemma reassembly_restores_order_witness :
  let content := [x01; x02; x03; x04; x05]%byte in
  let rs := [mkChunkInfo 0 1 [x01; x02] false None; mkChunkInfo 2 3 [x03; x04] false None;
             mkChunkInfo 4 4 [x05] false None]%byte in
  let arrivals := [mkChunkInfo 4 4 [x05] false None; mkChunkInfo 0 1 [x01; x02] false None;
                   mkChunkInfo 2 3 [x03; x04] false None]%byte in
  let s := Sink.sink_goroutine (Z.of_nat (length rs)) arrivals Pipe.io_Pipe in
  Pipe.stream (Sink.pw s) = content /\
  Pipe.writes (Sink.pw s) = Data <$> rs /\
  Pipe.wclosed (Sink.pw s) = Some Pipe.EOF /\
  Sink.errors s = [] /\
  Sink.assembledData s = ∅ /\
  Sink.currentOffset s = Z.of_nat (length content) /\
  forall k : nat, (k <= length arrivals)%nat ->
    Pipe.writes (Sink.pw (Sink.receive_results k arrivals (Sink.start Pipe.io_Pipe)))
      `prefix_of` (Data <$> rs).
Proof.
  apply (reassembly_restores_order
           [x01; x02; x03; x04; x05]%byte
           [mkChunkInfo 0 1 [x01; x02] false None; mkChunkInfo 2 3 [x03; x04] false None;
            mkChunkInfo 4 4 [x05] false None]%byte
           [mkChunkInfo 4 4 [x05] false None; mkChunkInfo 0 1 [x01; x02] false None;
            mkChunkInfo 2 3 [x03; x04] false None]%byte).
  - cbn. split_and!; (reflexivity || discriminate || exact I).
  - reflexivity.
  - vm_compute. discriminate.
  - apply (Permutation_cons_app [mkChunkInfo 0 1 [x01; x02] false None;
                                 mkChunkInfo 2 3 [x03; x04] false None]%byte []).
    reflexivity.
Defined.

(** The reversed arrival order of three chunks, run. *)
Example reassembly_reversed :
  let r0 := mkChunkInfo 0 1 [x01; x02]%byte false None in
  let r1 := mkChunkInfo 2 3 [x03; x04]%byte false None in
  let r2 := mkChunkInfo 4 4 [x05]%byte false None in
  Pipe.writes (Sink.pw (Sink.sink_goroutine 3 [r2; r1; r0] Pipe.io_Pipe))
  = [[x01; x02]; [x03; x04]; [x05]]%byte.
Proof. vm_compute. reflexivity. Qed.

(** ** The download workers *)

Lemma timeouts_app (l1 l2 : list effect) : timeouts (l1 ++ l2) = timeouts l1 ++ timeouts l2.
Proof. apply omap_app. Qed.

Lemma sleeps_app (l1 l2 : list effect) : sleeps (l1 ++ l2) = sleeps l1 ++ sleeps l2.
Proof. apply omap_app. Qed.

Lemma fetch_attempts_app (l1 l2 : list effect) :
  fetch_attempts (l1 ++ l2) = (fetch_attempts l1 + fetch_attempts l2)%nat.
Proof. unfold fetch_attempts. by rewrite omap_app, length_app. Qed.

Lemma timeouts_ctx d l : timeouts (CtxWithTimeout d :: l) = d :: timeouts l.
Proof. reflexivity. Qed.
Lemma timeouts_sleep d l : timeouts (Sleep d :: l) = timeouts l.
Proof. reflexivity. Qed.
Lemma timeouts_call a b l : timeouts (CallGetFileDataRange a b :: l) = timeouts l.
Proof. reflexivity. Qed.
Lemma sleeps_ctx d l : sleeps (CtxWithTimeout d :: l) = sleeps l.
Proof. reflexivity. Qed.
Lemma sleeps_sleep d l : sleeps (Sleep d :: l) = d :: sleeps l.
Proof. reflexivity. Qed.
Lemma sleeps_call a b l : sleeps (CallGetFileDataRange a b :: l) = sleeps l.
Proof. reflexivity. Qed.
Lemma fetch_attempts_ctx d l : fetch_attempts (CtxWithTimeout d :: l) = fetch_attempts l.
Proof. reflexivity. Qed.
Lemma fetch_attempts_sleep d l : fetch_attempts (Sleep d :: l) = fetch_attempts l.
Proof. reflexivity. Qed.
Lemma fetch_attempts_call a b l :
  fetch_attempts (CallGetFileDataRange a b :: l) = S (fetch_attempts l).
Proof. reflexivity. Qed.

Create Rewrite HintDb log_count.
#[global] Hint Rewrite timeouts_app sleeps_app fetch_attempts_app
  timeouts_ctx timeouts_sleep timeouts_call sleeps_ctx sleeps_sleep sleeps_call
  fetch_attempts_ctx fetch_attempts_sleep fetch_attempts_call : log_count.

Section WorkerFacts.
Import RangeRead Sink Workers.

(** [GetFileDataRange] itself creates no timeout, never sleeps and is
    not re-entered. *)
Lemma GetFileDataRange_quiet (w : World) (fileUUID : string) (start end_ : Z) :
  timeouts (GetFileDataRange w fileUUID start end_).1 = [] /\
  sleeps (GetFileDataRange w fileUUID start end_).1 = [] /\
  fetch_attempts (GetFileDataRange w fileUUID start end_).1 = 0%nat.
Proof.
  unfold GetFileDataRange.
  repeat match goal with
         | |- context [match ?x with _ => _ end] => destruct x
         end; cbn; done.
Qed.

Variable worlds : Z -> World.
Variable fileUUID : string.
Variable chunk : ChunkInfo.

Local Abbreviation try k := (GetFileDataRange (worlds k) fileUUID (Start chunk) (End chunk)).
Local Abbreviation called := (CallGetFileDataRange (Start chunk) (End chunk)).

(** The worker body for one chunk, attempt by attempt. *)
Lemma process_chunk_unrolled :
  process_chunk worlds fileUUID chunk =
  match try 0 with
  | (l0, inl rd) => (CtxWithTimeout (30 * second) :: called :: l0, deliver chunk rd)
  | (l0, inr _) =>
      match try 1 with
      | (l1, inl rd) =>
          (CtxWithTimeout (30 * second) :: called :: l0 ++ Sleep second :: called :: l1,
           deliver chunk rd)
      | (l1, inr _) =>
          match try 2 with
          | (l2, inl rd) =>
              (CtxWithTimeout (30 * second) :: called :: l0 ++ Sleep second
                 :: called :: l1 ++ Sleep (2 * second) :: called :: l2,
               deliver chunk rd)
          | (l2, inr e) =>
              (CtxWithTimeout (30 * second) :: called :: l0 ++ Sleep second
                 :: called :: l1 ++ Sleep (2 * second) :: called :: l2
                 ++ [Sleep (3 * second)],
               Sent (error_result e) Return)
          end
      end
  end.
Proof.
  unfold process_chunk.
  change (Z.to_nat maxRetries) with 3%nat.
  cbn [retry_fetch].
  change (0 <? maxRetries) with true. cbn iota.
  destruct (try 0) as [l0 [rd | e0]]; [reflexivity |].
  change (add64 0 1) with 1. change (1 <? maxRetries) with true. cbn iota.
  destruct (try 1) as [l1 [rd | e1]]; [reflexivity |].
  change (add64 1 1) with 2. change (2 <? maxRetries) with true. cbn iota.
  destruct (try 2) as [l2 [rd | e2]]; reflexivity.
Qed.

Lemma process_chunk_sends :
  exists log r next,
    process_chunk worlds fileUUID chunk = (log, Sent r next) /\
    ((exists e, r = error_result e /\ next = Return) \/
     (Error r = None /\ Start r = Start chunk /\ End r = End chunk /\ next = Continue)).
Proof.
  rewrite process_chunk_unrolled. unfold deliver.
  destruct (try 0) as [l0 [rd | e0]].
  { destruct (read_err rd); do 3 eexists; (split; [reflexivity |]); eauto 6. }
  destruct (try 1) as [l1 [rd | e1]].
  { destruct (read_err rd); do 3 eexists; (split; [reflexivity |]); eauto 6. }
  destruct (try 2) as [l2 [rd | e2]].
  { destruct (read_err rd); do 3 eexists; (split; [reflexivity |]); eauto 6. }
  do 3 eexists. split; [reflexivity |]. eauto.
Qed.

End WorkerFacts.

(** ** Claims about retries *)

(** C4 (amended). For every chunk a download worker takes, one
    30-second timeout context is created before the first attempt and
    shared by all attempts of the chunk; [GetFileDataRange] is attempted
    at most 3 times ([maxRetries]), stopping at the first success; every
    failed attempt is followed by a sleep of [attemptNumber * 1s]; the
    error of [GetFileDataRange] is surfaced only when all 3 attempts
    failed, and after a success the outcome is that of reading the opened
    body alone, whatever the earlier attempts answered. The last part of
    the statement records the upload side: one [UploadBytes] call per
    chunk that was read, no timeout context and no sleep. *)
Theorem retry_policy (worlds : Z -> World) (fileUUID : string) (chunk : ChunkInfo)
    (w : Upload.UploadWorld) (s3Key : string) (st : Upload.upload_state)
    (sl : Planner.UploadSlice) :
  let attempt k :=
    (RangeRead.GetFileDataRange (worlds k) fileUUID (Start chunk) (End chunk)).2 in
  let log := (Workers.process_chunk worlds fileUUID chunk).1 in
  let ending := (Workers.process_chunk worlds fileUUID chunk).2 in
  timeouts log = [30 * second] /\
  head log = Some (CtxWithTimeout (30 * second)) /\
  (1 <= fetch_attempts log <= Z.to_nat Workers.maxRetries)%nat /\
  match attempt 0, attempt 1, attempt 2 with
  | inl rd, _, _ =>
      fetch_attempts log = 1%nat /\ sleeps log = [] /\
      ending = Workers.deliver chunk rd
  | inr _, inl rd, _ =>
      fetch_attempts log = 2%nat /\ sleeps log = [1 * second] /\
      ending = Workers.deliver chunk rd
  | inr _, inr _, inl rd =>
      fetch_attempts log = 3%nat /\ sleeps log = [1 * second; 2 * second] /\
      ending = Workers.deliver chunk rd
  | inr _, inr _, inr e =>
      fetch_attempts log = 3%nat /\
      sleeps log = [1 * second; 2 * second; 3 * second] /\
      ending = Workers.Sent (Workers.error_result e) Sink.Return
  end /\
  let st' := Upload.upload_chunk w s3Key st sl in
  exists new,
    Upload.log st' = Upload.log st ++ new /\
    timeouts new = [] /\ sleeps new = [] /\
    match Upload.ReadAt w (Planner.offset sl) (Planner.size sl) with
    | (data, None) | (data, Some io_EOF) =>
        put_attempts new = 1%nat /\
        Upload.errors st' = Upload.errors st ++
          match Upload.UploadBytes w (Upload.chunk_key s3Key (Planner.chunkNum sl)) data with
          | Some e =>
              [Errorf ("failed to upload chunk " +:+ pretty (Planner.chunkNum sl) +:+ ": ") e ""]
          | None => []
          end
    | (_, Some e) =>
        put_attempts new = 0%nat /\
        Upload.errors st' = Upload.errors st ++
          [Errorf ("failed to read chunk " +:+ pretty (Planner.chunkNum sl) +:+ ": ") e ""]
    end.
Proof.
  cbv zeta.
  match goal with |- _ /\ _ /\ _ /\ _ /\ ?U => assert (HU : U) end.
  { unfold Upload.upload_chunk.
    destruct (Upload.ReadAt w _ _) as [data [e |]].
    + destruct e;
        try (eexists; split; [reflexivity |]; cbn; by split_and!).
      destruct (Upload.UploadBytes w _ data);
        (eexists; split; [reflexivity |]; cbn; split_and!; try done;
         by rewrite ?app_nil_r).
    + destruct (Upload.UploadBytes w _ data);
        (eexists; split; [reflexivity |]; cbn; split_and!; try done;
         by rewrite ?app_nil_r). }
  rewrite process_chunk_unrolled.
  pose proof (GetFileDataRange_quiet (worlds 0) fileUUID (Start chunk) (End chunk))
    as (T0 & S0 & A0).
  pose proof (GetFileDataRange_quiet (worlds 1) fileUUID (Start chunk) (End chunk))
    as (T1 & S1 & A1).
  pose proof (GetFileDataRange_quiet (worlds 2) fileUUID (Start chunk) (End chunk))
    as (T2 & S2 & A2).
  change (Z.to_nat Workers.maxRetries) with 3%nat.
  destruct (RangeRead.GetFileDataRange (worlds 0) _ _ _) as [l0 [rd0 | e0]];
    cbn [fst snd] in *.
  { autorewrite with log_count. rewrite T0, S0, A0. split_and!; (done || lia). }
  destruct (RangeRead.GetFileDataRange (worlds 1) _ _ _) as [l1 [rd1 | e1]];
    cbn [fst snd] in *.
  { autorewrite with log_count. rewrite T0, S0, A0, T1, S1, A1.
    split_and!; (done || (cbn; lia)). }
  destruct (RangeRead.GetFileDataRange (worlds 2) _ _ _) as [l2 [rd2 | e2]];
    cbn [fst snd] in *.
  { autorewrite with log_count. rewrite T0, S0, A0, T1, S1, A1, T2, S2, A2.
    split_and!; (done || (cbn; lia)). }
  autorewrite with log_count. rewrite T0, S0, A0, T1, S1, A1, T2, S2, A2.
  split_and!; (done || (cbn; lia)).
Qed.

(** C4 as stated fails on both paths. Upload: a one-byte upload whose
    single [UploadBytes] call fails returns that error after one attempt,
    with no timeout context and no backoff. Download: the three attempts
    of a chunk run under one timeout context, not one each. *)
Lemma retry_policy_counterexample :
  let w := {| Upload.ReadAt := fun _ _ => ([x00%byte], None);
              Upload.UploadBytes := fun _ _ =>
                Some (ErrorsNew "failed to upload data to S3: connection reset") |} in
  (exists e st,
     Upload.uploadFileParallel w "key" 1 [0%nat] = Done (Some e, st) /\
     put_attempts (Upload.log st) = 1%nat /\
     sleeps (Upload.log st) = [] /\ timeouts (Upload.log st) = []) /\
  let worlds := fun _ : Z =>
    {| GetFileInfo := inr errFileNotFound;
       GetObjectRange := fun _ _ _ => inr errS3Operation |} in
  let log := (Workers.process_chunk worlds "uuid" (mkChunkInfo 0 5242879 [] false None)).1 in
  fetch_attempts log = 3%nat /\ timeouts log = [30 * second].
Proof.
  cbv zeta. split.
  - do 2 eexists. split; [vm_compute; reflexivity |]. by vm_compute.
  - by vm_compute.
Qed.

(** ** The worker pool *)

Section PoolFacts.
Import Sink Workers.

Lemma held_insert_busy (ws : list wstate) (w : nat) (c : ChunkInfo) :
  ws !! w = Some Idle -> held (<[w := Busy c]> ws) ≡ₚ c :: held ws.
Proof.
  intros Hw. assert (Hlt : (w < length ws)%nat) by (by eapply lookup_lt_Some).
  rewrite insert_take_drop by done.
  rewrite <- (take_drop_middle ws w _ Hw) at 3.
  unfold held. rewrite !omap_app. cbn. by rewrite Permutation_middle.
Qed.

Lemma held_insert_free (ws : list wstate) (w : nat) (c : ChunkInfo) (st : wstate) :
  ws !! w = Some (Busy c) -> st = Idle \/ st = Exited ->
  c :: held (<[w := st]> ws) ≡ₚ held ws.
Proof.
  intros Hw Hst. assert (Hlt : (w < length ws)%nat) by (by eapply lookup_lt_Some).
  rewrite insert_take_drop by done.
  rewrite <- (take_drop_middle ws w _ Hw) at 3.
  unfold held. rewrite !omap_app. cbn.
  destruct Hst as [-> | ->]; cbn; by rewrite Permutation_middle.
Qed.

Lemma held_insert_same (ws : list wstate) (w : nat) :
  ws !! w = Some Idle -> held (<[w := Exited]> ws) = held ws.
Proof.
  intros Hw. assert (Hlt : (w < length ws)%nat) by (by eapply lookup_lt_Some).
  rewrite insert_take_drop by done.
  rewrite <- (take_drop_middle ws w _ Hw) at 3.
  unfold held. by rewrite !omap_app.
Qed.

Variable worlds : ChunkInfo -> Z -> World.
Variable fileUUID : string.
Variable plan : list ChunkInfo.

Lemma start_pool_inv : pool_inv plan (start_pool plan).
Proof.
  split; cbn; try done.
  - by rewrite app_nil_r.
  - intros c r Hin. by apply elem_of_nil in Hin.
  - intros w Hw. apply lookup_replicate in Hw as [? _]. discriminate.
Qed.

Lemma step_inv (p : pool) (w : nat) :
  pool_inv plan p -> pool_inv plan (step worlds fileUUID p w).
Proof.
  intros [Hpl Hres Hsh Hcr Hlen Hex]. unfold step. rewrite Hcr.
  destruct (workers p !! w) as [[| c |] |] eqn:Hw; try (by split).
  - destruct (queue p) as [| c q] eqn:Hq.
    + split; cbn; try done.
      * by rewrite held_insert_same.
      * by rewrite length_insert.
      * intros w' _. by left.
    + split; cbn; try done.
      * rewrite held_insert_busy by done. rewrite Hpl. cbn.
        by rewrite Permutation_middle.
      * by rewrite length_insert.
      * intros w' Hw'. destruct (decide (w = w')) as [<- | Hne].
        -- rewrite list_lookup_insert_eq in Hw' by (by eapply lookup_lt_Some).
           discriminate.
        -- rewrite list_lookup_insert_ne in Hw' by done.
           destruct (Hex w' Hw') as [? | ?]; [discriminate | by right].
  - destruct (process_chunk_sends (worlds c) fileUUID c)
      as (log & r & next & Hproc & Hr).
    rewrite Hproc. split; cbn [queue workers results served crashed]; try done.
    + rewrite fmap_app.
      set (H' := held (<[w := _]> (workers p))).
      assert (Hh : c :: H' ≡ₚ held (workers p))
        by (apply held_insert_free; [done | destruct next; eauto]).
      rewrite Hpl, <- Hh. apply Permutation_app_head.
      change ((c :: H') ++ (served p).*1) with (c :: (H' ++ (served p).*1)).
      rewrite (Permutation_app_comm ((served p).*1)).
      apply Permutation_middle.
    + by rewrite fmap_app, Hres.
    + intros c0 r0 Hin. apply elem_of_app in Hin as [Hin | Hin]; [by apply Hsh |].
      apply list_elem_of_singleton in Hin as [= -> ->].
      destruct Hr as [(e & -> & _) | (He & Hs & Hen & _)]; eauto.
    + by rewrite length_insert.
    + intros w' Hw'. destruct (decide (w = w')) as [<- | Hne].
      * rewrite list_lookup_insert_eq in Hw' by (by eapply lookup_lt_Some).
        destruct Hr as [(e & -> & ->) | (_ & _ & _ & ->)]; [| discriminate].
        right. exists (error_result e). split; [| done].
        apply elem_of_app. right. by apply list_elem_of_singleton.
      * rewrite list_lookup_insert_ne in Hw' by done.
        destruct (Hex w' Hw') as [? | (r0 & Hr0 & He0)]; [by left |].
        right. exists r0. split; [| done]. apply elem_of_app. by left.
Qed.

Lemma run_pool_inv (sched : list nat) (p : pool) :
  pool_inv plan p -> pool_inv plan (run_pool worlds fileUUID sched p).
Proof.
  revert p. induction sched as [| w sched IH]; intros p Hp; [done |].
  cbn. apply IH. by apply step_inv.
Qed.

(** A failing chunk stops its own worker and nothing else. *)
Lemma failure_cancels_nothing (p : pool) (w : nat) (c : ChunkInfo) (log : list effect)
    (e : error) :
  crashed p = None -> workers p !! w = Some (Busy c) ->
  process_chunk (worlds c) fileUUID c = (log, Sent (error_result e) Return) ->
  let p' := step worlds fileUUID p w in
  queue p' = queue p /\
  workers p' !! w = Some Exited /\
  (forall w', w' <> w -> workers p' !! w' = workers p !! w') /\
  results p' = results p ++ [error_result e] /\
  crashed p' = None.
Proof.
  intros Hcr Hw Hproc. cbv zeta. unfold step. rewrite Hcr, Hw, Hproc. cbn.
  split_and!; try done.
  - apply list_lookup_insert_eq. by eapply lookup_lt_Some.
  - intros w' Hne. by apply list_lookup_insert_ne.
Qed.

End PoolFacts.

Lemma held_quiescent (ws : list Workers.wstate) :
  (forall w st, ws !! w = Some st -> st = Workers.Exited) -> held ws = [].
Proof.
  induction ws as [| st ws IH]; intros Hall; [reflexivity |].
  pose proof (Hall 0%nat st eq_refl) as ->. cbn.
  apply IH. intros w st' Hw. by apply (Hall (S w)).
Qed.

(** ** Claims about failures and result delivery *)

(** C3 (what the code does). When the results of the chunks [rs] lying
    before a failed chunk have arrived and the error result of the failed
    chunk follows, the reassembly goroutine queues the error on the
    [errors] channel, which nothing receives from, and its deferred
    [pw.Close()] ends the stream cleanly: the reader gets the bytes of
    [rs] and then an ordinary end of stream, whatever results [post]
    follow and however many chunks [numChunks] the file has. On every run the write side is closed without an error, and
    a worker whose chunk has failed leaves the queue and the other workers
    as they are: nothing is cancelled. *)
Theorem failed_chunk_ends_stream_cleanly (rs post : list ChunkInfo) (e : error)
    (numChunks : nat) :
  contiguous 0 rs -> total_length rs <= max_int64 -> (length rs < numChunks)%nat ->
  let s := Sink.sink_goroutine (Z.of_nat numChunks)
             (rs ++ Workers.error_result e :: post) Pipe.io_Pipe in
  Pipe.stream (Sink.pw s) = concat (Data <$> rs) /\
  Pipe.wclosed (Sink.pw s) = Some Pipe.EOF /\
  Sink.errors s = [e] /\
  (forall n arrivals,
     Pipe.wclosed (Sink.pw (Sink.sink_goroutine n arrivals Pipe.io_Pipe))
     = Some Pipe.EOF) /\
  (forall worlds fileUUID p w c log,
     Workers.crashed p = None -> Workers.workers p !! w = Some (Workers.Busy c) ->
     Workers.process_chunk (worlds c) fileUUID c
       = (log, Workers.Sent (Workers.error_result e) Sink.Return) ->
     Workers.queue (Workers.step worlds fileUUID p w) = Workers.queue p /\
     forall w', w' <> w ->
       Workers.workers (Workers.step worlds fileUUID p w) !! w' = Workers.workers p !! w').
Proof.
  intros Hc Hfit Hlt. cbv zeta.
  assert (Hrun :
    Sink.receive_results numChunks (rs ++ Workers.error_result e :: post)
      (Sink.start Pipe.io_Pipe) =
    Sink.receive_results (S (numChunks - S (length rs))) (Workers.error_result e :: post)
      (Sink.receive_results (length rs) rs (Sink.start Pipe.io_Pipe))).
  { replace numChunks with (length rs + S (numChunks - S (length rs)))%nat at 1 by lia.
    apply (receive_results_app rs Hc Hfit rs [] [] rs (Sink.start Pipe.io_Pipe));
      [reflexivity | by apply start_inv | by eapply contiguous_NoDup | done]. }
  pose proof (receive_results_all rs Hc Hfit rs (Permutation_refl rs)) as Hinv.
  destruct Hinv as [Hw _ _ _ _ He _ _].
  split; [| split; [apply sink_goroutine_clean_eof |
                    split; [| split; [apply sink_goroutine_clean_eof |]]]].
  - unfold Sink.sink_goroutine. rewrite Nat2Z.id, Hrun.
    cbn [Sink.receive_results Sink.recv Sink.accept Workers.error_result Error Sink.pw].
    unfold Pipe.stream, Pipe.pw_Close.
    destruct (Pipe.wclosed _); cbn [Pipe.writes]; by rewrite Hw.
  - unfold Sink.sink_goroutine. rewrite Nat2Z.id, Hrun.
    cbn [Sink.receive_results Sink.recv Sink.accept Workers.error_result Error Sink.errors].
    by rewrite He.
  - intros worlds fileUUID p w c log Hcr Hwk Hproc.
    destruct (failure_cancels_nothing worlds fileUUID p w c log e Hcr Hwk Hproc)
      as (Hq & _ & Hother & _). by split.
Qed.

Lemma failed_chunk_ends_stream_cleanly_witness :
  let rs := [mkChunkInfo 0 1 [x01; x02] false None]%byte in
  let post := [mkChunkInfo 4 5 [x05; x06] false None]%byte in
  let e := ErrorsNew "failed to get object range from S3: timeout" in
  let s := Sink.sink_goroutine (Z.of_nat 3)
             (rs ++ Workers.error_result e :: post) Pipe.io_Pipe in
  Pipe.stream (Sink.pw s) = concat (Data <$> rs) /\
  Pipe.wclosed (Sink.pw s) = Some Pipe.EOF /\
  Sink.errors s = [e] /\
  (forall n arrivals,
     Pipe.wclosed (Sink.pw (Sink.sink_goroutine n arrivals Pipe.io_Pipe))
     = Some Pipe.EOF) /\
  (forall worlds fileUUID p w c log,
     Workers.crashed p = None -> Workers.workers p !! w = Some (Workers.Busy c) ->
     Workers.process_chunk (worlds c) fileUUID c
       = (log, Workers.Sent (Workers.error_result e) Sink.Return) ->
     Workers.queue (Workers.step worlds fileUUID p w) = Workers.queue p /\
     forall w', w' <> w ->
       Workers.workers (Workers.step worlds fileUUID p w) !! w' = Workers.workers p !! w').
Proof.
  apply (failed_chunk_ends_stream_cleanly
           [mkChunkInfo 0 1 [x01; x02] false None]%byte
           [mkChunkInfo 4 5 [x05; x06] false None]%byte
           (ErrorsNew "failed to get object range from S3: timeout") 3%nat).
  - cbn. split_and!; (reflexivity || discriminate || exact I).
  - vm_compute. discriminate.
  - cbn. lia.
Defined.

(** ** Workers that stop *)

Section StopFacts.
Import RangeRead Sink Workers.

Variable worlds : ChunkInfo -> Z -> World.
Variable fileUUID : string.












End StopFacts.




(** ** Range requests *)

Section RangeFacts.
Import RangeRead RangeHeader.

Lemma rejected_false (fileSize start end_ : Z) :
  rejected fileSize start end_ = false <-> 0 <= start <= end_ /\ end_ < fileSize.
Proof.
  unfold rejected. rewrite !orb_false_iff.
  rewrite !Z.ltb_ge, Z.gtb_ltb, Z.ltb_ge, Z.geb_leb, Z.leb_gt. lia.
Qed.

Lemma string_eqb_empty (r : string) :
  String.eqb r "" = bool_decide (r = EmptyString).
Proof.
  destruct (String.eqb_spec r "") as [-> | Hne].
  - by rewrite bool_decide_eq_true_2.
  - by rewrite bool_decide_eq_false_2.
Qed.

Lemma parse_specs_blank (specs : list string) (fileSize : Z) (ranges : list (Z * Z)) :
  filter (fun r => r <> EmptyString) (strings_TrimSpace <$> specs) = [] ->
  parse_specs specs fileSize ranges = inl ranges.
Proof.
  induction specs as [| r specs IH]; intros Hf; [reflexivity |].
  rewrite fmap_cons in Hf. cbn [parse_specs].
  destruct (String.eqb_spec (strings_TrimSpace r) "") as [He | Hne].
  - apply IH. by rewrite filter_cons_False in Hf by (rewrite He; auto).
  - rewrite filter_cons_True in Hf by done. discriminate.
Qed.

(** With one non-empty spec the parser's answer is decided by the
    bounds of that spec alone. *)
Lemma parse_specs_single (specs : list string) (fileSize : Z) (ranges : list (Z * Z))
    (r : string) :
  filter (fun r => r <> EmptyString) (strings_TrimSpace <$> specs) = [r] ->
  parse_specs specs fileSize ranges =
  match bounds_of_spec r fileSize with
  | inr e => inr e
  | inl (start, end_) =>
      if rejected fileSize start end_ then inr invalid_values
      else inl (ranges ++ [(start, end_)])
  end.
Proof.
  induction specs as [| r0 specs IH]; intros Hf; [discriminate |].
  rewrite fmap_cons in Hf. cbn [parse_specs].
  destruct (String.eqb_spec (strings_TrimSpace r0) "") as [He | Hne].
  - apply IH. by rewrite filter_cons_False in Hf by (rewrite He; auto).
  - rewrite filter_cons_True in Hf by done. injection Hf as -> Hrest.
    destruct (bounds_of_spec r fileSize) as [[start end_] | e]; [| reflexivity].
    destruct (rejected fileSize start end_); [reflexivity |].
    by apply parse_specs_blank.
Qed.

Lemma check_range_inside (sizeBytes start end_ : Z) :
  0 <= start <= end_ -> end_ < sizeBytes ->
  check_range sizeBytes start end_ = inl (start, end_).
Proof.
  intros Hs He. unfold check_range.
  destruct (Z.ltb_spec start 0); [lia |].
  destruct (Z.geb_spec end_ sizeBytes); [lia |].
  destruct (Z.gtb_spec start end_); [lia | reflexivity].
Qed.

End RangeFacts.

(** [GetFileDataRange] on its own clamps a range that sticks out of the
    file and only rejects one that is empty after clamping; rejecting
    out-of-bounds requests is the work of [parseRange]. *)
Example check_range_clamps :
  RangeRead.check_range 100 (-5) 1000 = inl (0, 99) /\
  RangeRead.check_range 100 70 60 =
    inr (ErrorsNew "некорректный диапазон: start=70, end=60").
Proof. split; reflexivity. Qed.

(** The scenario of [bytes=1000-1999] against a file of 10000 bytes. *)
Example parseRange_1000_1999 :
  RangeHeader.parseRange "bytes=1000-1999" 10000 = inl [(1000, 1999)].
Proof. reflexivity. Qed.

(** C7. Let a [Range] header ask for one range, read by the parser as
    [(start, end)], of a file of the size the store reports. If
    [0 <= start <= end < size] the request passes both checks unchanged
    and the object store is asked for exactly the bytes [start..end]: the
    answer is 206 with that body, or what the store's failure leads to.
    Otherwise the request is answered 416 "invalid range values" and
    nothing but the file record has been read: no call reaches the object
    store. *)
Theorem range_request_checked (w : World) (file : File)
    (fileUUID rangeHeader : string) (start end_ : Z) :
  GetFileInfo w = inl file ->
  rangeHeader <> EmptyString ->
  RangeHeader.requested rangeHeader (SizeBytes file) = Some (start, end_) ->
  let key :=
    if String.eqb (RangeRead.metadata_s3Path file) ""
    then RangeRead.standard_key file fileUUID
    else RangeRead.metadata_s3Path file in
  (0 <= start <= end_ /\ end_ < SizeBytes file ->
   RangeHeader.parseRange rangeHeader (SizeBytes file) = inl [(start, end_)] /\
   match GetObjectRange w key start end_ with
   | inl r =>
       RangeHeader.serve w fileUUID rangeHeader =
       ([RepoCall "GetFileInfo"; RepoCall "GetFileInfo"; S3GetObjectRange key start end_],
        RangeHeader.Streamed 206 start end_ r)
   | inr _ =>
       exists log resp,
         RangeHeader.serve w fileUUID rangeHeader =
         (RepoCall "GetFileInfo" :: RepoCall "GetFileInfo"
            :: S3GetObjectRange key start end_ :: log, resp) /\
         ((exists e, resp = RangeHeader.DataFailed 206 e) \/
          (exists r, resp = RangeHeader.Streamed 206 start end_ r))
   end) /\
  (~ (0 <= start <= end_ /\ end_ < SizeBytes file) ->
   RangeHeader.parseRange rangeHeader (SizeBytes file) = inr RangeHeader.invalid_values /\
   RangeHeader.serve w fileUUID rangeHeader =
   ([RepoCall "GetFileInfo"], RangeHeader.RangeNotSatisfiable "invalid range values")).
Proof.
  intros Hinfo Hne Hreq. cbv zeta.
  unfold RangeHeader.requested in Hreq.
  assert (Hparse :
    RangeHeader.parseRange rangeHeader (SizeBytes file) =
    if RangeHeader.rejected (SizeBytes file) start end_
    then inr RangeHeader.invalid_values else inl [(start, end_)]).
  { unfold RangeHeader.parseRange.
    destruct (negb (RangeHeader.strings_HasPrefix rangeHeader "bytes=")); [discriminate |].
    destruct (filter _ _) as [| r [| r' rest]] eqn:Hf; try discriminate.
    rewrite (parse_specs_single _ _ _ r Hf).
    destruct (RangeHeader.bounds_of_spec r (SizeBytes file)) as [[s e] | err];
      [| discriminate].
    by injection Hreq as -> ->. }
  assert (Hhdr : String.eqb rangeHeader "" = false).
  { by destruct (String.eqb_spec rangeHeader ""). }
  split.
  - intros Hin. apply rejected_false in Hin as Hrej. rewrite Hrej in Hparse.
    split; [exact Hparse |].
    unfold RangeHeader.serve. rewrite Hinfo, Hhdr, Hparse.
    unfold RangeRead.GetFileDataRange. rewrite Hinfo.
    rewrite check_range_inside by lia.
    destruct (GetObjectRange w _ start end_) as [r | err]; [reflexivity |].
    destruct (_ || _).
    + destruct (GetObjectRange w _ start end_) as [r | err'];
        do 2 eexists; (split; [reflexivity |]); eauto.
    + do 2 eexists. split; [reflexivity |]. eauto.
  - intros Hout.
    assert (Hrej : RangeHeader.rejected (SizeBytes file) start end_ = true).
    { destruct (RangeHeader.rejected _ _ _) eqn:Hr; [done |].
      by apply rejected_false in Hr. }
    rewrite Hrej in Hparse. split; [exact Hparse |].
    unfold RangeHeader.serve. by rewrite Hinfo, Hhdr, Hparse.
Qed.

Lemma range_request_checked_witness :
  let file := mkFile "uuid" "a.bin" "owner" 10000 1 1 None in
  let w := healthy file (repeat x00%byte 16) in
  let key := "personal_drive_files/owner/uuid" in
  (0 <= 1000 <= 1999 /\ 1999 < 10000 ->
   RangeHeader.parseRange "bytes=1000-1999" 10000 = inl [(1000, 1999)] /\
   match GetObjectRange w key 1000 1999 with
   | inl r =>
       RangeHeader.serve w "uuid" "bytes=1000-1999" =
       ([RepoCall "GetFileInfo"; RepoCall "GetFileInfo"; S3GetObjectRange key 1000 1999],
        RangeHeader.Streamed 206 1000 1999 r)
   | inr _ =>
       exists log resp,
         RangeHeader.serve w "uuid" "bytes=1000-1999" =
         (RepoCall "GetFileInfo" :: RepoCall "GetFileInfo"
            :: S3GetObjectRange key 1000 1999 :: log, resp) /\
         ((exists e, resp = RangeHeader.DataFailed 206 e) \/
          (exists r, resp = RangeHeader.Streamed 206 1000 1999 r))
   end) /\
  (~ (0 <= 1000 <= 1999 /\ 1999 < 10000) ->
   RangeHeader.parseRange "bytes=1000-1999" 10000 = inr RangeHeader.invalid_values /\
   RangeHeader.serve w "uuid" "bytes=1000-1999" =
   ([RepoCall "GetFileInfo"], RangeHeader.RangeNotSatisfiable "invalid range values")).
Proof.
  apply (range_request_checked
           (healthy (mkFile "uuid" "a.bin" "owner" 10000 1 1 None) (repeat x00%byte 16))
           (mkFile "uuid" "a.bin" "owner" 10000 1 1 None)
           "uuid" "bytes=1000-1999" 1000 1999).
  - reflexivity.
  - discriminate.
  - reflexivity.
Defined.

(** Requests sticking out of a file of 10000 bytes, each refused with 416
    before the object store is reached. *)
Example range_requests_refused :
  let w := healthy (mkFile "uuid" "a.bin" "owner" 10000 1 1 None) [] in
  RangeHeader.serve w "uuid" "bytes=-20000" =
    ([RepoCall "GetFileInfo"], RangeHeader.RangeNotSatisfiable "invalid range values") /\
  RangeHeader.serve w "uuid" "bytes=5-3" =
    ([RepoCall "GetFileInfo"], RangeHeader.RangeNotSatisfiable "invalid range values") /\
  RangeHeader.serve w "uuid" "bytes=0-10000" =
    ([RepoCall "GetFileInfo"], RangeHeader.RangeNotSatisfiable "invalid range values").
Proof. cbv zeta. split_and!; vm_compute; reflexivity. Qed.

(** ** Parallel upload *)

Section UploadFacts.
Import Planner Upload.

Variable w : UploadWorld.
Variable s3Key : string.

Lemma upload_chunk_spec (st : upload_state) (sl : UploadSlice) :
  let st' := upload_chunk w s3Key st sl in
  errors st' = errors st ++ option_list (chunk_failure w s3Key sl) /\
  deletes (log st') = deletes (log st) /\
  (forall k, is_Some (store st !! k) -> is_Some (store st' !! k)) /\
  (chunk_failure w s3Key sl = None ->
   store st' !! chunk_key s3Key (chunkNum sl) = Some (ReadAt w (offset sl) (size sl)).1).
Proof.
  cbv zeta. unfold upload_chunk, chunk_failure, deletes.
  destruct (ReadAt w (offset sl) (size sl)) as [data [e |]].
  - destruct e; cbn [store errors log option_list];
    rewrite ?omap_app, ?app_nil_r; cbn; rewrite ?app_nil_r;
    try (split_and!; [done | done | done | discriminate]).
  destruct (UploadBytes w _ data); cbn [store errors log option_list];
    rewrite ?omap_app, ?app_nil_r; cbn; rewrite ?app_nil_r.
  + split_and!; [done | done | done | discriminate].
  + split_and!; [done | done | | intros _; apply lookup_insert_eq].
    intros k Hk. destruct (decide (chunk_key s3Key (chunkNum sl) = k)) as [<- | Hne].
    * rewrite lookup_insert_eq. eauto.
    * by rewrite lookup_insert_ne.
  - destruct (UploadBytes w _ data); cbn [store errors log option_list];
    rewrite ?omap_app, ?app_nil_r; cbn; rewrite ?app_nil_r.
  + split_and!; [done | done | done | discriminate].
  + split_and!; [done | done | | intros _; apply lookup_insert_eq].
    intros k Hk. destruct (decide (chunk_key s3Key (chunkNum sl) = k)) as [<- | Hne].
    * rewrite lookup_insert_eq. eauto.
    * by rewrite lookup_insert_ne.
Qed.

Lemma upload_run_spec (order : list UploadSlice) (st : upload_state) :
  let st' := foldl (upload_chunk w s3Key) st order in
  errors st' = errors st ++ omap (chunk_failure w s3Key) order /\
  deletes (log st') = deletes (log st) /\
  (forall k, is_Some (store st !! k) -> is_Some (store st' !! k)) /\
  (forall sl, sl ∈ order -> chunk_failure w s3Key sl = None ->
   is_Some (store st' !! chunk_key s3Key (chunkNum sl))).
Proof.
  cbv zeta. revert st. induction order as [| sl order IH]; intros st.
  - cbn. rewrite app_nil_r. split_and!; try done.
  intros sl Hin. by apply elem_of_nil in Hin.
  - cbn [foldl].
  destruct (upload_chunk_spec st sl) as (He & Hd & Hs & Hk).
  destruct (IH (upload_chunk w s3Key st sl)) as (He' & Hd' & Hs' & Hk').
  split_and!.
  + rewrite He', He, <- app_assoc. f_equal. cbn [omap list_omap].
    by destruct (chunk_failure w s3Key sl).
  + by rewrite Hd', Hd.
  + intros k Hin. by apply Hs', Hs.
  + intros sl' Hin Hok. apply elem_of_cons in Hin as [-> | Hin].
    * apply Hs'. rewrite (Hk Hok). eauto.
    * by apply Hk'.
Qed.

Lemma in_order_all (plan : list UploadSlice) (sched : list nat) (sl : UploadSlice) :
  sched ≡ₚ seq 0 (length plan) -> sl ∈ in_order plan sched <-> sl ∈ plan.
Proof.
  intros Hperm. unfold in_order. rewrite list_elem_of_omap, list_elem_of_lookup.
  split.
  - intros (i & _ & Hi). eauto.
  - intros (i & Hi). exists i. split; [| done].
  rewrite Hperm. apply elem_of_seq. apply lookup_lt_Some in Hi. lia.
Qed.

Lemma omap_nil_iff {A B : Type} (f : A -> option B) (l : list A) :
  omap f l = [] <-> forall x, x ∈ l -> f x = None.
Proof.
  induction l as [| a l IH]; cbn.
  - split; [| done]. intros _ x Hin. by apply elem_of_nil in Hin.
  - destruct (f a) as [b |] eqn:Hfa.
  + split; [discriminate |]. intros Hall.
    pose proof (Hall a ltac:(by apply elem_of_cons; left)). congruence.
  + rewrite IH. split.
    * intros Hall x Hin. apply elem_of_cons in Hin as [-> | Hin]; auto.
    * intros Hall x Hin. apply Hall. by apply elem_of_cons; right.
Qed.

End UploadFacts.

(** What [uploadFileParallel] returns and leaves behind. *)
Lemma uploadFileParallel_spec (w : Upload.UploadWorld) (s3Key : string) (totalSize : Z)
    (sched : list nat) (plan : list Planner.UploadSlice) :
  Planner.upload_plan Planner.chunkSize totalSize = Done plan ->
  exists result st,
    Upload.uploadFileParallel w s3Key totalSize sched = Done (result, st) /\
    result = head (omap (chunk_failure w s3Key) (Upload.in_order plan sched)) /\
    (sched ≡ₚ seq 0 (length plan) ->
     (result = None <-> forall sl, sl ∈ plan -> chunk_failure w s3Key sl = None) /\
     (forall e, result = Some e ->
        exists sl, sl ∈ plan /\ chunk_failure w s3Key sl = Some e)) /\
    deletes (Upload.log st) = [] /\
    (forall sl, sl ∈ Upload.in_order plan sched -> chunk_failure w s3Key sl = None ->
       is_Some (Upload.store st !! Upload.chunk_key s3Key (Planner.chunkNum sl))).
Proof.
  intros Hplan.
  unfold Upload.uploadFileParallel, Upload.upload_parallel. rewrite Hplan.
  cbn [mbind outcome_bind obind].
  set (st0 := {| Upload.store := ∅; Upload.errors := []; Upload.log := [] |}).
  destruct (upload_run_spec w s3Key (Upload.in_order plan sched) st0)
    as (He & Hd & _ & Hk).
  do 2 eexists. split; [reflexivity |].
  rewrite He. cbn [Upload.errors st0 app].
  split_and!; try done.
  intros Hperm. split.
  - rewrite head_None, omap_nil_iff. split.
    + intros Hall sl Hin. apply Hall. by apply in_order_all.
    + intros Hall sl Hin. apply Hall. by apply (in_order_all plan sched).
  - intros e Hhead. apply head_Some_elem_of in Hhead.
    apply list_elem_of_omap in Hhead as (sl & Hin & Hf).
    exists sl. split; [by apply (in_order_all plan sched) | done].
Qed.

(** ** Claims about uploads *)

(** The outcome of [uploadFileParallel] in general (used for C8). Once
    the slices are planned, one goroutine per slice runs and all are
    waited for; the first error queued on [errors], if any, is returned.
    When every slice is handled, success is reported if and only if every
    slice was read and uploaded without error, and otherwise the error of
    a failed slice is returned. [DeleteObject] is never called: every
    chunk written by a successful [UploadBytes] is still in the object
    store when the upload as a whole returns an error. *)
Theorem upload_all_or_error (w : Upload.UploadWorld) (s3Key : string) (totalSize : Z)
    (sched : list nat) (plan : list Planner.UploadSlice) :
  Planner.upload_plan Planner.chunkSize totalSize = Done plan ->
  exists result st,
    Upload.uploadFileParallel w s3Key totalSize sched = Done (result, st) /\
    result = head (omap (chunk_failure w s3Key) (Upload.in_order plan sched)) /\
    (sched ≡ₚ seq 0 (length plan) ->
     (result = None <-> forall sl, sl ∈ plan -> chunk_failure w s3Key sl = None) /\
     (forall e, result = Some e ->
        exists sl, sl ∈ plan /\ chunk_failure w s3Key sl = Some e)) /\
    deletes (Upload.log st) = [] /\
    (forall sl, sl ∈ Upload.in_order plan sched -> chunk_failure w s3Key sl = None ->
       is_Some (Upload.store st !! Upload.chunk_key s3Key (Planner.chunkNum sl))).
Proof. apply uploadFileParallel_spec. Qed.

Lemma upload_all_or_error_witness :
  let w := {| Upload.ReadAt := fun _ n => (zeros n, None);
              Upload.UploadBytes := fun _ _ => None |} in
  let plan := [Planner.mkUploadSlice 0 0 1] in
  exists result st,
    Upload.uploadFileParallel w "files/a" 1 [0%nat] = Done (result, st) /\
    result = head (omap (chunk_failure w "files/a") (Upload.in_order plan [0%nat])) /\
    ([0%nat] ≡ₚ seq 0 (length plan) ->
     (result = None <-> forall sl, sl ∈ plan -> chunk_failure w "files/a" sl = None) /\
     (forall e, result = Some e ->
        exists sl, sl ∈ plan /\ chunk_failure w "files/a" sl = Some e)) /\
    deletes (Upload.log st) = [] /\
    (forall sl, sl ∈ Upload.in_order plan [0%nat] -> chunk_failure w "files/a" sl = None ->
       is_Some (Upload.store st !! Upload.chunk_key "files/a" (Planner.chunkNum sl))).
Proof.
  apply (upload_all_or_error
           {| Upload.ReadAt := fun _ n => (zeros n, None);
              Upload.UploadBytes := fun _ _ => None |}
           "files/a" 1 [0%nat] [Planner.mkUploadSlice 0 0 1]).
  vm_compute. reflexivity.
Defined.

(** C8 (what the code does where the claim asks for a clean-up). A file
    of 10 MiB + 1 byte is cut in two chunks; the first is uploaded, the
    put of the second fails. The upload returns that error, as claimed,
    but the first chunk is still in the object store and no delete was
    attempted, although [UploadFile] and [createFileVersion] delete what
    they wrote when a later step fails. *)
Lemma upload_leaves_chunks_behind :
  let w := {| Upload.ReadAt := fun _ n => (zeros n, None);
              Upload.UploadBytes := fun key _ =>
                if String.eqb key "files/a/chunk_1"
                then Some (ErrorsNew "failed to upload data to S3: timeout")
                else None |} in
  exists st,
    Upload.uploadFileParallel w "files/a" 10485761 [0; 1]%nat =
      Done (Some (Errorf "failed to upload chunk 1: "
                    (ErrorsNew "failed to upload data to S3: timeout") ""), st) /\
    is_Some (Upload.store st !! "files/a/chunk_0") /\
    deletes (Upload.log st) = [].
Proof.
  cbv zeta.
  set (w := {| Upload.ReadAt := fun _ n => (zeros n, None);
               Upload.UploadBytes := fun key _ =>
                 if String.eqb key "files/a/chunk_1"
                 then Some (ErrorsNew "failed to upload data to S3: timeout")
                 else None |}).
  assert (Hplan : Planner.upload_plan Planner.chunkSize 10485761 =
                  Done [Planner.mkUploadSlice 0 0 10485760;
                        Planner.mkUploadSlice 1 10485760 1])
    by (vm_compute; reflexivity).
  destruct (uploadFileParallel_spec w "files/a" 10485761 [0; 1]%nat _ Hplan)
    as (result & st & Hrun & Hres & _ & Hdel & Hkeep).
  exists st. split_and!.
  - rewrite Hrun, Hres. reflexivity.
  - apply (Hkeep (Planner.mkUploadSlice 0 0 10485760)).
    + apply elem_of_cons. by left.
    + reflexivity.
  - exact Hdel.
Qed.

(** ** The size limit of [UploadFile] *)

Section GateFacts.
Import UploadGate.

Variable env : Env.
Variable h : FileHeader.
Variable file : option (list byte).
Variable folderID : Z.
Variable userID : string.

(** With a header whose size is over the limit, [UploadFile] ends in the
    quota check, the parameter check or the size check. *)
Lemma UploadFile_oversize :
  Size h > maxFileSize ->
  UploadFile env (Some h) file folderID userID =
  ([RepoCall "CheckSpaceAvailable"],
   match CheckSpaceAvailable env userID (Size h) with
   | inr e => Failed (Errorf "failed to check available space: " e "")
   | inl false => Failed (ErrorsNew "not enough storage space available")
   | inl true =>
       if match file with None => true | Some _ => false end || String.eqb userID ""
       then Failed (Errorf "" errInvalidFile ": missing required parameters")
       else Failed too_large
   end).
Proof.
  intros Hbig. unfold UploadFile, call.
  destruct (CheckSpaceAvailable env userID (Size h)) as [[|] | e]; cbn; try reflexivity.
  destruct (_ || _); [reflexivity |].
  destruct (Z.gtb_spec (Size h) maxFileSize); [reflexivity | lia].
Qed.

Lemma UploadFile_accepted :
  Size h <= maxFileSize ->
  CheckSpaceAvailable env userID (Size h) = inl true ->
  file <> None -> userID <> EmptyString ->
  UploadFile env (Some h) file folderID userID =
  (RepoCall "CheckSpaceAvailable" :: (store_upload env h folderID userID).1,
   (store_upload env h folderID userID).2).
Proof.
  intros Hsmall Hspace Hfile Huser. unfold UploadFile, call. rewrite Hspace. cbn.
  destruct file; [| done]. cbn.
  destruct (String.eqb_spec userID ""); [done |]. cbn.
  destruct (Z.gtb_spec (Size h) maxFileSize); [lia |].
  by destruct (store_upload env h folderID userID).
Qed.

End GateFacts.

(** C10 (amended). For every upload request with a header whose declared
    size exceeds 100 MiB, [UploadFile] returns an error after the quota
    check alone: no call reaches the object store. The error is decided
    by the checks in their order: the wrapped error of the quota check
    when that check fails, "not enough storage space available" when it
    answers no, the invalid-file error of the parameter check when the
    file or the user id is missing, and the file-too-large error
    otherwise, that is, exactly when the quota check has answered that
    space is available and the file and the user id are present. The
    errors of the quota refusal and of the parameter check are not the
    file-too-large error. A file of at most 100 MiB that passes those
    two checks is not stopped by the size check: the upload goes on with
    the folder lookup. *)
Theorem upload_size_gate (env : UploadGate.Env) (h : UploadGate.FileHeader)
    (file : option (list byte)) (folderID : Z) (userID : string) :
  (UploadGate.Size h > UploadGate.maxFileSize ->
   UploadGate.UploadFile env (Some h) file folderID userID =
     ([RepoCall "CheckSpaceAvailable"],
      match UploadGate.CheckSpaceAvailable env userID (UploadGate.Size h) with
      | inr e => Failed (Errorf "failed to check available space: " e "")
      | inl false => Failed (ErrorsNew "not enough storage space available")
      | inl true =>
          if match file with None => true | Some _ => false end || String.eqb userID ""
          then Failed (Errorf "" errInvalidFile ": missing required parameters")
          else Failed UploadGate.too_large
      end) /\
   (exists e, (UploadGate.UploadFile env (Some h) file folderID userID).2 = Failed e) /\
   (UploadGate.UploadFile env (Some h) file folderID userID).1
     = [RepoCall "CheckSpaceAvailable"] /\
   filter (fun ev => RangeHeader.is_s3_call ev = true)
     (UploadGate.UploadFile env (Some h) file folderID userID).1 = [] /\
   (UploadGate.CheckSpaceAvailable env userID (UploadGate.Size h) = inl true ->
    file <> None -> userID <> EmptyString ->
    (UploadGate.UploadFile env (Some h) file folderID userID).2
      = Failed UploadGate.too_large /\
    errors_Is UploadGate.too_large errFileTooLarge = true) /\
   ((UploadGate.UploadFile env (Some h) file folderID userID).2
      = Failed UploadGate.too_large ->
    UploadGate.CheckSpaceAvailable env userID (UploadGate.Size h) = inl true /\
    file <> None /\ userID <> EmptyString) /\
   errors_Is (ErrorsNew "not enough storage space available") errFileTooLarge = false /\
   errors_Is (Errorf "" errInvalidFile ": missing required parameters") errFileTooLarge
     = false) /\
  (UploadGate.Size h <= UploadGate.maxFileSize ->
   UploadGate.CheckSpaceAvailable env userID (UploadGate.Size h) = inl true ->
   file <> None -> userID <> EmptyString ->
   UploadGate.UploadFile env (Some h) file folderID userID =
   (RepoCall "CheckSpaceAvailable" :: (UploadGate.store_upload env h folderID userID).1,
    (UploadGate.store_upload env h folderID userID).2)).
Proof.
  split.
  - intros Hbig. rewrite UploadFile_oversize by done. cbn [fst snd].
    split_and!; try done.
    + destruct (UploadGate.CheckSpaceAvailable env userID (UploadGate.Size h))
        as [[|] | e]; eauto.
      destruct (_ || _); eauto.
    + intros Hspace Hfile Huser. rewrite Hspace.
      destruct file; [| done]. cbn.
      by destruct (String.eqb_spec userID "").
    + destruct (UploadGate.CheckSpaceAvailable env userID (UploadGate.Size h))
        as [[|] | e]; [| discriminate | discriminate].
      destruct file; cbn [orb]; [| discriminate].
      destruct (String.eqb_spec userID ""); [discriminate |].
      by intros _.
  - apply UploadFile_accepted.
Qed.

(** A file of 200 MiB: refused by the quota check for a user with
    50 MiB left, by the size check for a user with room. *)
Lemma upload_size_gate_witness :
  let h := UploadGate.mkFileHeader "a.bin" (200 * 1024 * 1024) "" in
  UploadGate.Size h > UploadGate.maxFileSize /\
  UploadGate.UploadFile (sample_env (50 * 1024 * 1024)) (Some h) (Some []) 0 "alice" =
    ([RepoCall "CheckSpaceAvailable"],
     Failed (ErrorsNew "not enough storage space available")) /\
  UploadGate.UploadFile (sample_env (2 ^ 40)) (Some h) (Some []) 0 "alice" =
    ([RepoCall "CheckSpaceAvailable"], Failed UploadGate.too_large) /\
  UploadGate.UploadFile (sample_env (2 ^ 40)) (Some h) None 0 "alice" =
    ([RepoCall "CheckSpaceAvailable"],
     Failed (Errorf "" errInvalidFile ": missing required parameters")).
Proof.
  cbv zeta.
  assert (Hbig : 200 * 1024 * 1024 > UploadGate.maxFileSize) by (vm_compute; reflexivity).
  split; [exact Hbig |].
  split_and!.
  - exact (proj1 (proj1 (upload_size_gate (sample_env (50 * 1024 * 1024))
                           (UploadGate.mkFileHeader "a.bin" (200 * 1024 * 1024) "")
                           (Some []) 0 "alice") Hbig)).
  - exact (proj1 (proj1 (upload_size_gate (sample_env (2 ^ 40))
                           (UploadGate.mkFileHeader "a.bin" (200 * 1024 * 1024) "")
                           (Some []) 0 "alice") Hbig)).
  - exact (proj1 (proj1 (upload_size_gate (sample_env (2 ^ 40))
                           (UploadGate.mkFileHeader "a.bin" (200 * 1024 * 1024) "")
                           None 0 "alice") Hbig)).
Defined.

(** An accepted upload at the limit, run: the object is written. *)
Example upload_at_limit :
  let h := UploadGate.mkFileHeader "a.bin" UploadGate.maxFileSize "" in
  exists f,
    (UploadGate.UploadFile (sample_env (2 ^ 40)) (Some h) (Some []) 0 "alice").2 = Done f /\
    filter (fun ev => RangeHeader.is_s3_call ev = true)
      (UploadGate.UploadFile (sample_env (2 ^ 40)) (Some h) (Some []) 0 "alice").1
    = [S3UploadFile "personal_drive_files/alice/0b7d"].
Proof. cbv zeta. eexists. split; vm_compute; reflexivity. Qed.

(** C10 as stated fails on the kind of error: a file of 200 MiB sent by
    a user with 50 MiB of quota left is refused by the quota check, which
    runs before the size check, with "not enough storage space available",
    not with the file-too-large error. *)
Lemma upload_size_gate_counterexample :
  let h := UploadGate.mkFileHeader "a.bin" (200 * 1024 * 1024) "" in
  UploadGate.Size h > UploadGate.maxFileSize /\
  UploadGate.UploadFile (sample_env (50 * 1024 * 1024)) (Some h) (Some []) 0 "alice" =
    ([RepoCall "CheckSpaceAvailable"],
     Failed (ErrorsNew "not enough storage space available")) /\
  errors_Is (ErrorsNew "not enough storage space available") errFileTooLarge = false.
Proof. cbv zeta. split_and!; vm_compute; reflexivity. Qed.

(** ** A download from a healthy store, end to end *)

Section HealthyDownload.
Import Planner RangeRead Workers.

Variable file : File.
Variable content : list byte.
Variable fileUUID : string.

Lemma process_chunk_healthy (c : ChunkInfo) :
  0 <= Start c <= End c -> End c < SizeBytes file ->
  exists log,
    process_chunk (fun _ => healthy file content) fileUUID c =
    (log, Sent (complete_result content c) Sink.Continue).
Proof.
  intros Hs He. rewrite process_chunk_unrolled.
  unfold GetFileDataRange, healthy. cbn [GetFileInfo GetObjectRange].
  rewrite check_range_inside by lia. eexists. reflexivity.
Qed.

(** Every result on the channel is the outcome of the worker body on the
    descriptor it was sent for. *)
Lemma served_outcomes (worlds : ChunkInfo -> Z -> World) (sched : list nat) :
  forall p,
    (forall c r, (c, r) ∈ served p ->
       exists log next, process_chunk (worlds c) fileUUID c = (log, Sent r next)) ->
    forall c r, (c, r) ∈ served (run_pool worlds fileUUID sched p) ->
      exists log next, process_chunk (worlds c) fileUUID c = (log, Sent r next).
Proof.
  induction sched as [| w sched IH]; intros p Hp; [exact Hp |].
  cbn [run_pool foldl]. apply IH. clear IH.
  unfold step. destruct (crashed p); [exact Hp |].
  destruct (workers p !! w) as [[| c0 |] |]; try exact Hp.
  - destruct (queue p); exact Hp.
  - destruct (process_chunk (worlds c0) fileUUID c0) as [log [r0 next | pn]] eqn:Hproc;
      [| exact Hp].
    cbn [served]. intros c r Hin.
    apply elem_of_app in Hin as [Hin | Hin]; [by apply Hp |].
    apply list_elem_of_singleton in Hin as [= -> ->]. eauto.
Qed.

(** A file of [totalSize] bytes held by a healthy store, downloaded in
    chunks of [cs] bytes: whatever the schedule of the five workers, once
    they have all returned the reader has received exactly the content,
    followed by a clean end of stream. *)
Lemma download_end_to_end (cs totalSize : Z) (plan : list ChunkInfo) (sched : list nat) :
  0 <= totalSize -> 1 <= cs -> totalSize + cs - 1 <= max_int64 ->
  Z.of_nat (length content) = totalSize -> SizeBytes file = totalSize ->
  download_plan cs totalSize = Done plan ->
  let p := run_pool (fun _ _ => healthy file content) fileUUID sched (start_pool plan) in
  quiescent p ->
  let s := Sink.sink_goroutine (numChunks_of cs totalSize) (results p) Pipe.io_Pipe in
  Pipe.stream (Sink.pw s) = content /\
  Pipe.wclosed (Sink.pw s) = Some Pipe.EOF /\
  Sink.errors s = [].
Proof.
  intros Hts Hcs Hfit Hlen Hsize Hplan p Hq. cbv zeta.
  destruct (planned_results cs totalSize content plan Hts Hcs Hfit Hlen Hplan)
    as (Hcont & Hconcat & Htot & Hcount).
  pose proof (run_pool_inv (fun _ _ => healthy file content) fileUUID plan sched _
                (start_pool_inv plan)) as [Hpl Hres Hsh Hcr Hwk Hex].
  fold p in Hpl, Hres, Hsh, Hcr, Hwk, Hex.
  assert (Hvalid : forall c, c ∈ plan -> 0 <= Start c <= End c /\ End c < SizeBytes file).
  { intros c Hin. rewrite download_plan_done in Hplan by assumption.
    injection Hplan as <-.
    apply list_elem_of_lookup in Hin as [i Hi].
    destruct (ideal_covers cs totalSize Hts Hcs Hfit) as [Hran _].
    specialize (Hran i (Start c, End c)). rewrite Hsize. apply Hran.
    rewrite <- (download_ranges_ideal cs totalSize Hts Hcs Hfit).
    unfold download_ranges. by rewrite list_lookup_fmap, Hi. }
  assert (Hout : forall c r, (c, r) ∈ served p -> r = complete_result content c).
  { intros c r Hin.
    assert (Hc : c ∈ plan).
    { rewrite Hpl. apply elem_of_app. right. apply elem_of_app. right.
      apply list_elem_of_fmap. by exists (c, r). }
    destruct (served_outcomes (fun _ _ => healthy file content) sched (start_pool plan)
                ltac:(intros ? ? H; by apply elem_of_nil in H) c r Hin)
      as (log & next & Hproc).
    destruct (Hvalid c Hc) as [Hs He].
    destruct (process_chunk_healthy c Hs He) as (log' & Hproc').
    rewrite Hproc' in Hproc. by injection Hproc as _ <- _. }
  assert (Hresults : results p = complete_result content <$> (fst <$> served p)).
  { rewrite Hres. clear - Hout. induction (served p) as [| [c r] l IH]; [reflexivity |].
    cbn. rewrite (Hout c r) by (by apply elem_of_cons; left).
    f_equal. apply IH. intros c' r' Hin. apply Hout. by apply elem_of_cons; right. }
  assert (Hall : plan ≡ₚ fst <$> served p).
  { destruct (workers p !! 0%nat) as [st |] eqn:H0.
    - pose proof (Hq _ _ H0) as ->.
      destruct (Hex _ H0) as [Hqe | (r & Hr & He)].
      + by rewrite Hpl, Hqe, (held_quiescent _ Hq).
      + rewrite Hresults in Hr. apply list_elem_of_fmap in Hr as (c & -> & _).
        by cbn in He.
    - apply lookup_ge_None in H0. rewrite Hwk in H0.
      change (Z.to_nat maxWorkers) with 5%nat in H0. lia. }
  assert (Hperm : results p ≡ₚ complete_result content <$> plan)
    by (by rewrite Hresults, Hall).
  rewrite <- Hcount.
  destruct (sink_goroutine_in_order content (complete_result content <$> plan) (results p)
              Hcont Hconcat ltac:(lia) Hperm) as (Hstream & _ & Hclosed & Herr & _).
  by split_and!.
Qed.

End HealthyDownload.

(** Ten bytes in chunks of four, the three workers that get a chunk
    finishing in the order 2, 0, 1: the reader still receives the ten
    bytes in order. *)
Example download_out_of_order :
  let content := [x00; x01; x02; x03; x04; x05; x06; x07; x08; x09]%byte in
  let file := mkFile "uuid" "a.bin" "owner" 10 1 1 None in
  exists plan,
    Planner.download_plan 4 10 = Done plan /\
    let p := Workers.run_pool (fun _ _ => healthy file content) "uuid"
               [0; 1; 2; 2; 0; 1; 3; 4; 0; 1; 2]%nat (Workers.start_pool plan) in
    (Start <$> Workers.results p) = [8; 0; 4] /\
    Pipe.writes (Sink.pw (Sink.sink_goroutine 3 (Workers.results p) Pipe.io_Pipe))
    = [[x00; x01; x02; x03]; [x04; x05; x06; x07]; [x08; x09]]%byte.
Proof.
  cbv zeta. eexists. split; [vm_compute; reflexivity |].
  split; vm_compute; reflexivity.
Qed.

(* ===================================================================== *)
(** * Part III. Properties of the code around the transfer engine *)
(* ===================================================================== *)

(** ** Decimal numbers as text *)

Section Decimals.
Import RangeHeader.

Lemma append_cons (c : ascii) (a b : string) : String c a +:+ b = String c (a +:+ b).
Proof. reflexivity. Qed.

Lemma append_nil_r (a : string) : a +:+ EmptyString = a.
Proof. induction a as [| c a IH]; [done |]. by rewrite append_cons, IH. Qed.

Lemma append_assoc (a b c : string) : (a +:+ b) +:+ c = a +:+ (b +:+ c).
Proof. induction a as [| x a IH]; [done |]. by rewrite !append_cons, IH. Qed.

Lemma every_app (P : ascii -> Prop) (a b : string) :
  every P (a +:+ b) <-> every P a /\ every P b.
Proof.
  induction a as [| c a IH].
  - change (EmptyString +:+ b) with b. cbn. tauto.
  - rewrite append_cons. cbn [every]. rewrite IH. tauto.
Qed.

Lemma every_impl (P Q : ascii -> Prop) (s : string) :
  (forall c, P c -> Q c) -> every P s -> every Q s.
Proof.
  intros HPQ. induction s as [| c s IH]; cbn; [done |].
  intros [Hc Hs]. split; auto.
Qed.

Lemma decimal_char (x : N) : (x < 10)%N -> decimal (pretty_N_char x).
Proof.
  intros Hx. unfold decimal.
  assert (x = 0 \/ x = 1 \/ x = 2 \/ x = 3 \/ x = 4 \/ x = 5 \/ x = 6 \/ x = 7
          \/ x = 8 \/ x = 9)%N as Hcases by lia.
  repeat (destruct Hcases as [-> | Hcases]; [vm_compute; lia |]). subst. vm_compute. lia.
Qed.

Lemma digit_of_char (x : N) : (x < 10)%N -> digit_of (pretty_N_char x) = Some (Z.of_N x).
Proof.
  intros Hx.
  assert (x = 0 \/ x = 1 \/ x = 2 \/ x = 3 \/ x = 4 \/ x = 5 \/ x = 6 \/ x = 7
          \/ x = 8 \/ x = 9)%N as Hcases by lia.
  repeat (destruct Hcases as [-> | Hcases]; [reflexivity |]). subst. reflexivity.
Qed.

(** The digits [pretty_N_go] puts in front of its accumulator. *)
Lemma pretty_N_go_digits (x : N) :
  forall s, exists d, pretty_N_go x s = d +:+ s /\ every decimal d /\
                      ((0 < x)%N -> d <> EmptyString).
Proof.
  induction (N.lt_wf_0 x) as [x _ IH]. intros s.
  destruct (N.eq_dec x 0%N) as [-> | Hpos].
  - exists EmptyString. rewrite pretty_N_go_0. split_and!; [done | done | lia].
  - rewrite pretty_N_go_step by lia.
    destruct (IH (x `div` 10)%N ltac:(apply N.div_lt; lia)
                (String (pretty_N_char (x `mod` 10)) s)) as (d & Hd & Hdec & _).
    exists (d +:+ String (pretty_N_char (x `mod` 10)) EmptyString).
    split_and!.
    + rewrite Hd. by rewrite append_assoc.
    + apply every_app. split; [done |]. cbn. split; [| done].
      apply decimal_char. apply N.mod_lt. lia.
    + intros _. destruct d; discriminate.
Qed.

Lemma pretty_nonneg_digits (z : Z) :
  0 <= z -> every decimal (pretty z) /\ pretty z <> EmptyString.
Proof.
  intros Hz. destruct z as [| p | p]; [| | lia].
  - split; [| discriminate]. split; [| done]. vm_compute. lia.
  - change (pretty (Z.pos p)) with (pretty_N_go (N.pos p) EmptyString).
    destruct (pretty_N_go_digits (N.pos p) EmptyString) as (d & Hd & Hdec & Hne).
    rewrite Hd.
    rewrite append_nil_r.
    split; [done |]. apply Hne. lia.
Qed.

Lemma parse_digits_pretty_go (x : N) :
  Z.of_N x <= 2 ^ 64 - 1 ->
  forall s, parse_digits (pretty_N_go x s) 0 = parse_digits s (Z.of_N x).
Proof.
  induction (N.lt_wf_0 x) as [x _ IH]. intros Hx s.
  destruct (N.eq_dec x 0%N) as [-> | Hpos].
  - by rewrite pretty_N_go_0.
  - rewrite pretty_N_go_step by lia.
    pose proof (N.div_lt x 10 ltac:(lia) ltac:(lia)) as Hlt.
    pose proof (N.mod_lt x 10 ltac:(lia)) as Hmod.
    pose proof (N.div_mod x 10 ltac:(lia)) as Hdm.
    rewrite IH by lia.
    cbn [parse_digits]. rewrite digit_of_char by done.
    replace (Z.of_N (x `div` 10) * 10 + Z.of_N (x `mod` 10)) with (Z.of_N x) by lia.
    destruct (Z.gtb_spec (Z.of_N x) (2 ^ 64 - 1)); [lia | reflexivity].
Qed.

(** [strconv.ParseInt] reads back what [%d] writes. *)
Lemma ParseInt_pretty (z : Z) :
  0 <= z <= max_int64 -> strconv_ParseInt (pretty z) = inl z.
Proof.
  intros Hz. unfold max_int64 in Hz.
  destruct z as [| p | p]; [reflexivity | | lia].
  change (pretty (Z.pos p)) with (pretty_N_go (N.pos p) EmptyString).
  pose proof (parse_digits_pretty_go (N.pos p) ltac:(lia) EmptyString) as Hparse.
  destruct (pretty_N_go_digits (N.pos p) EmptyString) as (d & Hd & Hdec & Hne).
  specialize (Hne ltac:(lia)).
  destruct (pretty_N_go (N.pos p) EmptyString) as [| c rest] eqn:Hs.
  { destruct d; [done | discriminate]. }
  assert (Hc : decimal c).
  { destruct d as [| c' d]; [done |]. rewrite append_cons in Hd.
    injection Hd as -> _. by destruct Hdec. }
  unfold strconv_ParseInt.
  assert (Ascii.eqb c "-" = false) as ->.
  { apply Ascii.eqb_neq. intros ->. vm_compute in Hc. lia. }
  assert (Ascii.eqb c "+" = false) as ->.
  { apply Ascii.eqb_neq. intros ->. vm_compute in Hc. lia. }
  cbn [orb negb andb]. rewrite Hparse. cbn [parse_digits].
  change (Z.of_N (N.pos p)) with (Z.pos p).
  destruct (Z.geb_spec (Z.pos p) (2 ^ 63)); [lia | reflexivity].
Qed.

(** *** Splitting and trimming *)

Lemma strings_Split_nonempty (s : string) (sep : ascii) : strings_Split s sep <> [].
Proof.
  induction s as [| c s IH]; cbn; [done |].
  destruct (strings_Split s sep); [done |]. by destruct (Ascii.eqb c sep).
Qed.

Lemma strings_Split_none (s : string) (sep : ascii) :
  every (fun c => c <> sep) s -> strings_Split s sep = [s].
Proof.
  induction s as [| c s IH]; cbn; [done |].
  intros [Hc Hs]. rewrite (IH Hs).
  by apply Ascii.eqb_neq in Hc as ->.
Qed.

Lemma strings_Split_at (a b : string) (sep : ascii) :
  every (fun c => c <> sep) a ->
  strings_Split (a +:+ String sep b) sep = a :: strings_Split b sep.
Proof.
  induction a as [| c a IH].
  - intros _. change (EmptyString +:+ String sep b) with (String sep b). cbn.
    destruct (strings_Split b sep) eqn:Hb.
    + by apply strings_Split_nonempty in Hb.
    + by rewrite Ascii.eqb_refl.
  - intros [Hc Ha]. rewrite append_cons. cbn [strings_Split]. rewrite (IH Ha).
    by apply Ascii.eqb_neq in Hc as ->.
Qed.

Lemma strip_one_plain (c : ascii) (l : list ascii) :
  plain c ->
  strip_one space_runes (c :: l) = None /\
  strip_one (map (@rev nat) space_runes) (c :: l) = None.
Proof.
  unfold plain. intros Hc. unfold space_runes. cbn [map rev app].
  cbn [strip_one strip_bytes].
  split;
    repeat match goal with
           | |- context [Nat.eqb (nat_of_ascii c) ?n] =>
               rewrite (proj2 (Nat.eqb_neq (nat_of_ascii c) n)) by lia
           end;
    reflexivity.
Qed.

Lemma every_list (P : ascii -> Prop) (s : string) :
  every P s <-> Forall P (list_ascii_of_string s).
Proof.
  induction s as [| c s IH]; cbn.
  - split; [constructor | done].
  - rewrite Forall_cons, IH. tauto.
Qed.

(** Text without a space at either end is left alone by
    [strings.TrimSpace]. *)
Lemma strings_TrimSpace_plain (s : string) : every plain s -> strings_TrimSpace s = s.
Proof.
  intros Hs. apply every_list in Hs. unfold strings_TrimSpace.
  set (l := list_ascii_of_string s) in *.
  assert (Hlead : trim_leading space_runes (length l) l = l).
  { destruct l as [| c l']; [reflexivity |]. cbn [length trim_leading].
    apply Forall_cons in Hs as [Hc _].
    by rewrite (proj1 (strip_one_plain c l' Hc)). }
  rewrite Hlead.
  assert (Htrail : trim_leading (map (@rev nat) space_runes) (length l) (rev l) = rev l).
  { apply Forall_rev in Hs.
    destruct (rev l) as [| c l'] eqn:Hrev.
    - by destruct (length l).
    - destruct (length l) eqn:Hlen.
      + apply nil_length_inv in Hlen. rewrite Hlen in Hrev. discriminate.
      + cbn [trim_leading]. apply Forall_cons in Hs as [Hc _].
        by rewrite (proj2 (strip_one_plain c l' Hc)). }
  rewrite Htrail, rev_involutive. apply string_of_list_ascii_of_string.
Qed.

Lemma substring_all (s : string) : String.substring 0 (String.length s) s = s.
Proof. induction s as [| c s IH]; cbn; [done |]. by rewrite IH. Qed.

Lemma TrimPrefix_bytes (r : string) :
  strings_HasPrefix ("bytes=" +:+ r) "bytes=" = true /\
  strings_TrimPrefix ("bytes=" +:+ r) "bytes=" = r.
Proof.
  assert (Hp : strings_HasPrefix ("bytes=" +:+ r) "bytes=" = true).
  { change ("bytes=" +:+ r) with (String "b" (String "y" (String "t" (String "e"
      (String "s" (String "=" r)))))).
    unfold strings_HasPrefix. cbn. by destruct r. }
  split; [exact Hp |]. unfold strings_TrimPrefix. rewrite Hp.
  change ("bytes=" +:+ r) with (String "b" (String "y" (String "t" (String "e"
    (String "s" (String "=" r)))))).
  cbn. rewrite Nat.sub_0_r. apply substring_all.
Qed.

Lemma decimal_plain (c : ascii) : decimal c -> plain c.
Proof. unfold decimal, plain. lia. Qed.

Lemma decimal_not (c : ascii) (sep : ascii) :
  (nat_of_ascii sep < 48)%nat -> decimal c -> c <> sep.
Proof. unfold decimal. intros Hsep Hc ->. lia. Qed.

End Decimals.

(** ** Range headers *)

Section RangeForms.
Import RangeRead RangeHeader.

Lemma parse_specs_sound (specs : list string) (fileSize : Z) :
  forall acc ranges,
    parse_specs specs fileSize acc = inl ranges ->
    Forall (fun r => 0 <= r.1 <= r.2 /\ r.2 < fileSize) acc ->
    Forall (fun r => 0 <= r.1 <= r.2 /\ r.2 < fileSize) ranges.
Proof.
  induction specs as [| r specs IH]; intros acc ranges Hparse Hacc.
  - by injection Hparse as <-.
  - cbn [parse_specs] in Hparse.
    destruct (String.eqb (strings_TrimSpace r) ""); [by eapply IH |].
    destruct (bounds_of_spec _ fileSize) as [[start end_] | e]; [| discriminate].
    destruct (rejected fileSize start end_) eqn:Hrej; [discriminate |].
    apply rejected_false in Hrej.
    eapply IH; [exact Hparse |].
    apply Forall_app. split; [done |]. by apply Forall_singleton.
Qed.

(** A header holding the single spec [r], a text without blanks and
    commas. *)
Lemma parseRange_one (r : string) (fileSize : Z) :
  every plain r -> every (fun c => c <> ","%char) r -> r <> EmptyString ->
  parseRange ("bytes=" +:+ r) fileSize =
  match bounds_of_spec r fileSize with
  | inr e => inr e
  | inl (start, end_) =>
      if rejected fileSize start end_ then inr invalid_values
      else inl [(start, end_)]
  end.
Proof.
  intros Hplain Hcomma Hne. unfold parseRange.
  destruct (TrimPrefix_bytes r) as [-> ->]. cbn [negb].
  rewrite (strings_Split_none r "," Hcomma). cbn [parse_specs].
  rewrite (strings_TrimSpace_plain r Hplain).
  destruct (String.eqb_spec r ""); [done |].
  destruct (bounds_of_spec r fileSize) as [[start end_] | e]; [| reflexivity].
  by destruct (rejected fileSize start end_).
Qed.

Lemma pretty_plain (z : Z) :
  0 <= z ->
  every plain (pretty z) /\ every (fun c => c <> ","%char) (pretty z) /\
  every (fun c => c <> "-"%char) (pretty z) /\ String.eqb (pretty z) "" = false.
Proof.
  intros Hz. destruct (pretty_nonneg_digits z Hz) as [Hdec Hne].
  split_and!.
  - eapply every_impl; [| exact Hdec]. apply decimal_plain.
  - eapply every_impl; [| exact Hdec]. intros c. apply decimal_not. vm_compute. lia.
  - eapply every_impl; [| exact Hdec]. intros c. apply decimal_not. vm_compute. lia.
  - by destruct (String.eqb_spec (pretty z) "").
Qed.

Lemma dash_plain : plain "-"%char /\ "-"%char <> ","%char.
Proof. split; [vm_compute; lia | discriminate]. Qed.

(** The three forms of a byte range, as the parser reads them. *)
Lemma bounds_closed (start end_ fileSize : Z) :
  0 <= start <= max_int64 -> 0 <= end_ <= max_int64 ->
  bounds_of_spec (pretty start +:+ "-" +:+ pretty end_) fileSize = inl (start, end_).
Proof.
  intros Hs He. unfold bounds_of_spec.
  destruct (pretty_plain start ltac:(lia)) as (_ & _ & Hds & Hns).
  destruct (pretty_plain end_ ltac:(lia)) as (_ & _ & Hde & Hne).
  change ("-" +:+ pretty end_) with (String "-" (pretty end_)).
  rewrite (strings_Split_at _ _ "-" Hds), (strings_Split_none _ "-" Hde).
  by rewrite Hns, Hne, !ParseInt_pretty.
Qed.

Lemma bounds_suffix (n fileSize : Z) :
  0 <= n <= max_int64 ->
  bounds_of_spec ("-" +:+ pretty n) fileSize = inl (sub64 fileSize n, sub64 fileSize 1).
Proof.
  intros Hn. unfold bounds_of_spec.
  destruct (pretty_plain n ltac:(lia)) as (_ & _ & Hd & Hne).
  change ("-" +:+ pretty n) with (EmptyString +:+ String "-" (pretty n)).
  rewrite (strings_Split_at EmptyString _ "-" I), (strings_Split_none _ "-" Hd).
  by rewrite ParseInt_pretty.
Qed.

Lemma bounds_open (n fileSize : Z) :
  0 <= n <= max_int64 ->
  bounds_of_spec (pretty n +:+ "-") fileSize = inl (n, sub64 fileSize 1).
Proof.
  intros Hn. unfold bounds_of_spec.
  destruct (pretty_plain n ltac:(lia)) as (_ & _ & Hd & Hne).
  change (pretty n +:+ "-") with (pretty n +:+ String "-" EmptyString).
  rewrite (strings_Split_at _ _ "-" Hd). cbn [strings_Split].
  by rewrite Hne, ParseInt_pretty.
Qed.

Lemma parseRange_single_inside (rangeHeader : string) (fileSize start end_ : Z) :
  parseRange rangeHeader fileSize = inl [(start, end_)] ->
  0 <= start <= end_ /\ end_ < fileSize.
Proof.
  unfold parseRange.
  destruct (strings_HasPrefix rangeHeader "bytes="); [| discriminate].
  cbn [negb]. intros Hparse.
  apply parse_specs_sound in Hparse; [| constructor].
  by inversion Hparse.
Qed.

End RangeForms.

(** X1. Whatever the header, every range [parseRange] returns lies
    inside the file: [0 <= start <= end < fileSize]; and a header is
    only accepted when it starts with [bytes=]. *)
Theorem parseRange_sound (rangeHeader : string) (fileSize : Z) (ranges : list (Z * Z)) :
  RangeHeader.parseRange rangeHeader fileSize = inl ranges ->
  RangeHeader.strings_HasPrefix rangeHeader "bytes=" = true /\
  forall start end_, (start, end_) ∈ ranges -> 0 <= start <= end_ /\ end_ < fileSize.
Proof.
  unfold RangeHeader.parseRange. intros Hparse.
  destruct (RangeHeader.strings_HasPrefix rangeHeader "bytes="); [| discriminate].
  split; [reflexivity |]. cbn [negb] in Hparse.
  apply parse_specs_sound in Hparse; [| constructor].
  intros start end_ Hin.
  by apply (proj1 (Forall_forall _ _) Hparse (start, end_)).
Qed.

Lemma parseRange_sound_witness :
  RangeHeader.strings_HasPrefix "bytes=0-4, 10-19" "bytes=" = true /\
  forall start end_, (start, end_) ∈ [(0, 4); (10, 19)] ->
                     0 <= start <= end_ /\ end_ < 100.
Proof.
  apply (parseRange_sound "bytes=0-4, 10-19" 100 [(0, 4); (10, 19)]).
  vm_compute. reflexivity.
Defined.

(** X2. The [Range] value the object-store client writes for a range
    inside a file, [bytes=start-end], is read back by the handler's
    [parseRange] as exactly that one range. *)
Theorem range_header_round_trip (start end_ fileSize : Z) :
  0 <= start <= end_ -> end_ < fileSize -> fileSize <= max_int64 ->
  RangeHeader.parseRange (S3Client.range_header start end_) fileSize
  = inl [(start, end_)].
Proof.
  intros Hs He Hfit. unfold S3Client.range_header.
  destruct (pretty_plain start ltac:(lia)) as (Hps & Hcs & _ & _).
  destruct (pretty_plain end_ ltac:(lia)) as (Hpe & Hce & _ & _).
  destruct dash_plain as [Hpd Hcd].
  rewrite parseRange_one.
  - rewrite bounds_closed by lia.
    by rewrite (proj2 (rejected_false fileSize start end_)) by lia.
  - change ("-" +:+ pretty end_) with (String "-" (pretty end_)).
    apply every_app. split; [done |]. by split.
  - change ("-" +:+ pretty end_) with (String "-" (pretty end_)).
    apply every_app. split; [done |]. by split.
  - destruct (pretty start) eqn:Hp; [| discriminate].
    by destruct (pretty_nonneg_digits start ltac:(lia)) as [_ Hne].
Qed.

Lemma range_header_round_trip_witness :
  RangeHeader.parseRange (S3Client.range_header 5242880 10485759) 23000000
  = inl [(5242880, 10485759)].
Proof.
  apply (range_header_round_trip 5242880 10485759 23000000);
    unfold max_int64; lia.
Defined.

(** X3. A suffix range [bytes=-n] denotes the last [n] bytes of the
    file and is accepted exactly when [1 <= n <= fileSize]; an open
    range [bytes=n-] denotes the bytes from [n] to the end and is
    accepted exactly when [n < fileSize]. Every other [n] is refused as
    "invalid range values". *)
Theorem suffix_and_open_ranges (n fileSize : Z) :
  0 <= n <= max_int64 -> 0 <= fileSize <= max_int64 ->
  RangeHeader.parseRange ("bytes=-" +:+ pretty n) fileSize =
    (if (1 <=? n) && (n <=? fileSize)
     then inl [(fileSize - n, fileSize - 1)]
     else inr RangeHeader.invalid_values) /\
  RangeHeader.parseRange ("bytes=" +:+ pretty n +:+ "-") fileSize =
    (if n <? fileSize
     then inl [(n, fileSize - 1)]
     else inr RangeHeader.invalid_values).
Proof.
  intros Hn Hsize. unfold max_int64 in *.
  destruct (pretty_plain n ltac:(lia)) as (Hp & Hc & _ & _).
  destruct dash_plain as [Hpd Hcd].
  assert (Hw1 : sub64 fileSize n = fileSize - n).
  { apply wrap64_small. unfold in_int64, min_int64, max_int64. lia. }
  assert (Hw2 : sub64 fileSize 1 = fileSize - 1).
  { apply wrap64_small. unfold in_int64, min_int64, max_int64. lia. }
  split.
  - change ("bytes=-" +:+ pretty n) with ("bytes=" +:+ "-" +:+ pretty n).
    rewrite parseRange_one.
    + rewrite bounds_suffix by (unfold max_int64; lia). rewrite Hw1, Hw2.
      destruct (RangeHeader.rejected fileSize (fileSize - n) (fileSize - 1)) eqn:Hrej.
      * destruct (Z.leb_spec 1 n), (Z.leb_spec n fileSize); cbn [andb]; try reflexivity.
        assert (RangeHeader.rejected fileSize (fileSize - n) (fileSize - 1) = false)
          by (apply rejected_false; lia).
        congruence.
      * apply rejected_false in Hrej.
        destruct (Z.leb_spec 1 n), (Z.leb_spec n fileSize); cbn [andb];
          (reflexivity || lia).
    + change ("-" +:+ pretty n) with (String "-" (pretty n)). by split.
    + change ("-" +:+ pretty n) with (String "-" (pretty n)). by split.
    + discriminate.
  - rewrite parseRange_one.
    + rewrite bounds_open by (unfold max_int64; lia). rewrite Hw2.
      destruct (RangeHeader.rejected fileSize n (fileSize - 1)) eqn:Hrej.
      * destruct (Z.ltb_spec n fileSize); [| reflexivity].
        assert (RangeHeader.rejected fileSize n (fileSize - 1) = false)
          by (apply rejected_false; lia).
        congruence.
      * apply rejected_false in Hrej.
        destruct (Z.ltb_spec n fileSize); (reflexivity || lia).
    + apply every_app. split; [done |]. by split.
    + apply every_app. split; [done |]. by split.
    + destruct (pretty n) eqn:Hpn; [| discriminate].
      by destruct (pretty_nonneg_digits n ltac:(lia)) as [_ Hne].
Qed.

Lemma suffix_and_open_ranges_witness :
  RangeHeader.parseRange ("bytes=-" +:+ pretty 500) 10000 =
    (if (1 <=? 500) && (500 <=? 10000)
     then inl [(10000 - 500, 10000 - 1)]
     else inr RangeHeader.invalid_values) /\
  RangeHeader.parseRange ("bytes=" +:+ pretty 500 +:+ "-") 10000 =
    (if 500 <? 10000
     then inl [(500, 10000 - 1)]
     else inr RangeHeader.invalid_values).
Proof.
  apply (suffix_and_open_ranges 500 10000); unfold max_int64; lia.
Defined.

(** ** [GetFileDataRange] and the handlers in front of it *)

Section RangeReads.
Import RangeRead RangeHeader.

Lemma check_range_inl (sizeBytes start end_ s e : Z) :
  0 <= sizeBytes <= max_int64 ->
  check_range sizeBytes start end_ = inl (s, e) ->
  s = Z.max 0 start /\ e = Z.min end_ (sizeBytes - 1) /\ 0 <= s <= e /\ e < sizeBytes.
Proof.
  intros Hsize. unfold check_range.
  assert (Hw : sub64 sizeBytes 1 = sizeBytes - 1).
  { apply wrap64_small. unfold in_int64, min_int64, max_int64 in *. lia. }
  rewrite Hw.
  destruct (Z.ltb_spec start 0), (Z.geb_spec end_ sizeBytes);
    match goal with |- context [?a >? ?b] => destruct (Z.gtb_spec a b) end;
    intros [= <- <-]; lia.
Qed.

Lemma check_range_empty (start end_ : Z) :
  exists e, check_range 0 start end_ = inr e.
Proof.
  unfold check_range. change (sub64 0 1) with (-1).
  destruct (Z.ltb_spec start 0), (Z.geb_spec end_ 0);
    match goal with |- context [?a >? ?b] => destruct (Z.gtb_spec a b) end;
    eauto; lia.
Qed.

(** The reads [GetFileDataRange] makes once the range is accepted. *)
Lemma GetFileDataRange_log (w : World) (file : File) (fileUUID : string)
    (start end_ s e : Z) :
  GetFileInfo w = inl file ->
  check_range (SizeBytes file) start end_ = inl (s, e) ->
  let key :=
    if String.eqb (metadata_s3Path file) "" then standard_key file fileUUID
    else metadata_s3Path file in
  exists rest,
    (GetFileDataRange w fileUUID start end_).1 =
      RepoCall "GetFileInfo" :: S3GetObjectRange key s e :: rest /\
    (rest = [] \/ rest = [S3GetObjectRange (alternative_key file) s e] \/
     rest = [S3GetObjectRange (alternative_key file) s e; RepoCall "Update"]).
Proof.
  intros Hinfo Hcheck. cbv zeta. unfold GetFileDataRange. rewrite Hinfo, Hcheck.
  destruct (GetObjectRange w _ s e) as [data | err]; [eauto |].
  destruct (_ || _); [| eauto].
  destruct (GetObjectRange w (alternative_key file) s e); cbn [fst]; eauto.
Qed.

End RangeReads.

(** X4. [GetFileDataRange] never asks the object store for a byte
    outside the file. Whatever [start] and [end] it is called with, every
    read it issues is for the range clamped to the file,
    [max(0, start) .. min(end, size - 1)], which is not empty and lies
    inside [0 .. size - 1]; and one call issues at most two reads. *)
Theorem GetFileDataRange_reads_inside (w : World) (file : File) (fileUUID : string)
    (start end_ : Z) :
  GetFileInfo w = inl file ->
  0 <= SizeBytes file <= max_int64 ->
  (forall key s e,
     S3GetObjectRange key s e ∈ (RangeRead.GetFileDataRange w fileUUID start end_).1 ->
     s = Z.max 0 start /\ e = Z.min end_ (SizeBytes file - 1) /\
     0 <= s <= e /\ e < SizeBytes file) /\
  (length (filter (fun ev => RangeHeader.is_s3_call ev = true)
             (RangeRead.GetFileDataRange w fileUUID start end_).1) <= 2)%nat.
Proof.
  intros Hinfo Hsize.
  destruct (RangeRead.check_range (SizeBytes file) start end_) as [[s0 e0] | err] eqn:Hcheck.
  - destruct (GetFileDataRange_log w file fileUUID start end_ s0 e0 Hinfo Hcheck)
      as (rest & -> & Hrest).
    pose proof (check_range_inl _ _ _ _ _ Hsize Hcheck) as Hbounds.
    split.
    + intros key s e Hin.
      assert (s = s0 /\ e = e0) as [-> ->]; [| exact Hbounds].
      apply elem_of_cons in Hin as [Hin | Hin]; [discriminate |].
      apply elem_of_cons in Hin as [[= _ -> ->] | Hin]; [done |].
      destruct Hrest as [-> | [-> | ->]].
      * by apply elem_of_nil in Hin.
      * by apply list_elem_of_singleton in Hin as [= _ -> ->].
      * apply elem_of_cons in Hin as [[= _ -> ->] | Hin]; [done |].
        by apply list_elem_of_singleton in Hin.
    + destruct Hrest as [-> | [-> | ->]]; apply Nat.leb_le; reflexivity.
  - unfold RangeRead.GetFileDataRange. rewrite Hinfo, Hcheck. cbn [fst]. split.
    + intros key s e Hin. by apply list_elem_of_singleton in Hin.
    + apply Nat.leb_le. reflexivity.
Qed.

Lemma GetFileDataRange_reads_inside_witness :
  let file := mkFile "uuid" "a.bin" "owner" 100 1 1 None in
  let w := healthy file (repeat x00%byte 100) in
  (forall key s e,
     S3GetObjectRange key s e ∈ (RangeRead.GetFileDataRange w "uuid" (-5) 1000).1 ->
     s = Z.max 0 (-5) /\ e = Z.min 1000 (SizeBytes file - 1) /\
     0 <= s <= e /\ e < SizeBytes file) /\
  (length (filter (fun ev => RangeHeader.is_s3_call ev = true)
             (RangeRead.GetFileDataRange w "uuid" (-5) 1000).1) <= 2)%nat.
Proof.
  apply (GetFileDataRange_reads_inside
           (healthy (mkFile "uuid" "a.bin" "owner" 100 1 1 None) (repeat x00%byte 100))
           (mkFile "uuid" "a.bin" "owner" 100 1 1 None) "uuid" (-5) 1000).
  - reflexivity.
  - cbn. unfold max_int64. lia.
Defined.

(** X5. A file of zero bytes cannot be fetched. [GetFileDataRange]
    refuses every range of it before it reaches the object store, so
    the download and the streaming handler answer a request without
    [Range] header by the headers of a 200 followed by the failure, and
    a request with any [Range] header by 416. *)
Theorem empty_file_never_served (w : World) (file : File)
    (fileUUID rangeHeader : string) :
  GetFileInfo w = inl file ->
  SizeBytes file = 0 ->
  (forall start end_, exists e,
     RangeRead.GetFileDataRange w fileUUID start end_ = ([RepoCall "GetFileInfo"], inr e)) /\
  (rangeHeader = EmptyString ->
   exists e, RangeHeader.serve w fileUUID rangeHeader =
             ([RepoCall "GetFileInfo"; RepoCall "GetFileInfo"],
              RangeHeader.DataFailed 200 e)) /\
  (rangeHeader <> EmptyString ->
   exists msg, RangeHeader.serve w fileUUID rangeHeader =
               ([RepoCall "GetFileInfo"], RangeHeader.RangeNotSatisfiable msg)).
Proof.
  intros Hinfo Hsize.
  assert (Hget : forall start end_, exists e,
            RangeRead.GetFileDataRange w fileUUID start end_
            = ([RepoCall "GetFileInfo"], inr e)).
  { intros start end_. unfold RangeRead.GetFileDataRange. rewrite Hinfo, Hsize.
    destruct (check_range_empty start end_) as [e ->]. eauto. }
  split_and!; [exact Hget | |].
  - intros ->. unfold RangeHeader.serve. rewrite Hinfo. cbn [String.eqb].
    destruct (Hget 0 (sub64 (SizeBytes file) 1)) as [e ->]. eauto.
  - intros Hne. unfold RangeHeader.serve. rewrite Hinfo.
    destruct (String.eqb_spec rangeHeader ""); [done |].
    destruct (RangeHeader.parseRange rangeHeader (SizeBytes file))
      as [[| [s e] [| r' rest]] | err] eqn:Hparse; eauto.
    apply parseRange_single_inside in Hparse. lia.
Qed.

Lemma empty_file_never_served_witness :
  let file := mkFile "uuid" "empty.txt" "owner" 0 1 1 None in
  let w := healthy file [] in
  (forall start end_, exists e,
     RangeRead.GetFileDataRange w "uuid" start end_ = ([RepoCall "GetFileInfo"], inr e)) /\
  (exists e, RangeHeader.serve w "uuid" "" =
             ([RepoCall "GetFileInfo"; RepoCall "GetFileInfo"],
              RangeHeader.DataFailed 200 e)) /\
  (exists msg, RangeHeader.serve w "uuid" "bytes=0-0" =
               ([RepoCall "GetFileInfo"], RangeHeader.RangeNotSatisfiable msg)).
Proof.
  pose (file := mkFile "uuid" "empty.txt" "owner" 0 1 1 None).
  destruct (empty_file_never_served (healthy file []) file "uuid" ""
              eq_refl eq_refl) as (Hget & Hplain & _).
  destruct (empty_file_never_served (healthy file []) file "uuid" "bytes=0-0"
              eq_refl eq_refl) as (_ & _ & Hrange).
  split_and!; [exact Hget | by apply Hplain | by apply Hrange].
Defined.

(** The client's text for a missing object is what the service looks
    for. *)
Lemma not_found_text (key : string) :
  strings_Contains (error_text (ErrorsNew ("object not found: " +:+ key))) "not found"
  = true.
Proof.
  cbn [error_text].
  change ("object not found: " +:+ key) with
    (String "o" (String "b" (String "j" (String "e" (String "c" (String "t"
      (String " " (String "n" (String "o" (String "t" (String " " (String "f"
      (String "o" (String "u" (String "n" (String "d" (String ":" (String " " key)))))))))))))))))).
  cbn. by destruct key.
Qed.

(** Where the client returns, [GetFileDataRange] over the client is
    [GetFileDataRange] on the answers the client gives. *)
Lemma ClientRead_agrees (info : File + error) (sdk : S3Client.Sdk) (w : World)
    (fileUUID : string) (start end_ : Z) :
  GetFileInfo w = info -> through_client sdk w ->
  match ClientRead.GetFileDataRange info sdk fileUUID start end_ with
  | (log, Done data) =>
      RangeRead.GetFileDataRange w fileUUID start end_ = (log, inl data)
  | (log, Failed e) =>
      RangeRead.GetFileDataRange w fileUUID start end_ = (log, inr e)
  | (_, Panicked _) => True
  end.
Proof.
  intros <- Hw. unfold ClientRead.GetFileDataRange, RangeRead.GetFileDataRange.
  destruct (GetFileInfo w) as [file | err];
    [| by destruct (strings_Contains (error_text err) "access denied")].
  destruct (RangeRead.check_range _ _ _) as [[s e] | err]; [| done].
  set (key := if String.eqb _ _ then _ else _).
  pose proof (Hw key s e) as Hkey.
  destruct (S3Client.GetObjectRange sdk key s e) as [object | err | p];
    rewrite ?Hkey; [done | | done].
  destruct (_ || _); [| done].
  pose proof (Hw (RangeRead.alternative_key file) s e) as Halt.
  destruct (S3Client.GetObjectRange sdk (RangeRead.alternative_key file) s e)
    as [object | err' | p]; rewrite ?Halt; done.
Qed.

(** X6. An object the store does not have makes [GetFileDataRange] try
    the recordings path. When the SDK answers [NoSuchKey] for the first
    key, the client's error reads "object not found: ...", which is what
    the service looks for: the same range is then read at
    [recordings/personal_recordings/<owner>/<name>]. If the SDK has that
    object and its answer carries the content length and the content
    type, the bytes are returned and the record is updated with the
    path; if the answer lacks one of the two, the client dereferences a
    nil pointer and the call panics after the second read; otherwise
    the error of the second read is returned. *)
Theorem missing_object_falls_back (sdk : S3Client.Sdk) (file : File)
    (fileUUID : string) (start end_ s e : Z) :
  RangeRead.check_range (SizeBytes file) start end_ = inl (s, e) ->
  let key :=
    if String.eqb (RangeRead.metadata_s3Path file) ""
    then RangeRead.standard_key file fileUUID
    else RangeRead.metadata_s3Path file in
  let alt := RangeRead.alternative_key file in
  sdk key (Some (S3Client.range_header s e)) = inr S3Client.NoSuchKey ->
  ClientRead.GetFileDataRange (inl file) sdk fileUUID start end_ =
  match sdk alt (Some (S3Client.range_header s e)) with
  | inl result =>
      match S3Client.ContentLength result, S3Client.ContentType result with
      | Some _, Some _ =>
          ([RepoCall "GetFileInfo"; S3GetObjectRange key s e; S3GetObjectRange alt s e;
            RepoCall "Update"], Done (S3Client.Body result))
      | _, _ =>
          ([RepoCall "GetFileInfo"; S3GetObjectRange key s e; S3GetObjectRange alt s e],
           Panicked NilPointerDereference)
      end
  | inr S3Client.NoSuchKey =>
      ([RepoCall "GetFileInfo"; S3GetObjectRange key s e; S3GetObjectRange alt s e],
       Failed (Errorf "ошибка получения данных из S3: "
                 (ErrorsNew ("object not found: " +:+ alt)) ""))
  | inr (S3Client.SdkError err) =>
      ([RepoCall "GetFileInfo"; S3GetObjectRange key s e; S3GetObjectRange alt s e],
       Failed (Errorf "ошибка получения данных из S3: "
                 (Errorf "failed to get object range from S3: " err "") ""))
  end.
Proof.
  intros Hcheck key alt Hmiss.
  unfold ClientRead.GetFileDataRange.
  rewrite Hcheck. fold key. fold alt.
  unfold S3Client.GetObjectRange at 1. rewrite Hmiss.
  rewrite not_found_text. cbn [orb].
  unfold S3Client.GetObjectRange, S3Client.new_s3Object.
  destruct (sdk alt (Some (S3Client.range_header s e))) as [result | [| err]];
    [| done | done].
  by destruct (S3Client.ContentLength result), (S3Client.ContentType result).
Qed.

(** A recording that lies under the recordings path only: served when
    the answer of the SDK is complete, a panic when it has no content
    type. *)
Lemma missing_object_falls_back_witness :
  let file := mkFile "uuid" "meeting.mp4" "owner" 100 1 1 None in
  let answering (type : option string) : S3Client.Sdk := fun key _ =>
    if String.eqb key "recordings/personal_recordings/owner/meeting.mp4"
    then inl (S3Client.mkGetObjectOutput (mkReader [x01; x02; x03]%byte None)
                (Some 3) type)
    else inr S3Client.NoSuchKey in
  ClientRead.GetFileDataRange (inl file) (answering (Some "video/mp4")) "uuid" 10 12 =
  ([RepoCall "GetFileInfo";
    S3GetObjectRange "personal_drive_files/owner/uuid" 10 12;
    S3GetObjectRange "recordings/personal_recordings/owner/meeting.mp4" 10 12;
    RepoCall "Update"], Done (mkReader [x01; x02; x03]%byte None)) /\
  ClientRead.GetFileDataRange (inl file) (answering None) "uuid" 10 12 =
  ([RepoCall "GetFileInfo";
    S3GetObjectRange "personal_drive_files/owner/uuid" 10 12;
    S3GetObjectRange "recordings/personal_recordings/owner/meeting.mp4" 10 12],
   Panicked NilPointerDereference).
Proof.
  cbv zeta. split.
  - exact (missing_object_falls_back
             (fun key _ =>
                if String.eqb key "recordings/personal_recordings/owner/meeting.mp4"
                then inl (S3Client.mkGetObjectOutput (mkReader [x01; x02; x03]%byte None)
                            (Some 3) (Some "video/mp4"))
                else inr S3Client.NoSuchKey)
             (mkFile "uuid" "meeting.mp4" "owner" 100 1 1 None) "uuid" 10 12 10 12
             eq_refl eq_refl).
  - exact (missing_object_falls_back
             (fun key _ =>
                if String.eqb key "recordings/personal_recordings/owner/meeting.mp4"
                then inl (S3Client.mkGetObjectOutput (mkReader [x01; x02; x03]%byte None)
                            (Some 3) None)
                else inr S3Client.NoSuchKey)
             (mkFile "uuid" "meeting.mp4" "owner" 100 1 1 None) "uuid" 10 12 10 12
             eq_refl eq_refl).
Defined.

Lemma slice_length (content : list byte) (start end_ : Z) :
  0 <= start <= end_ -> end_ < Z.of_nat (length content) ->
  Z.of_nat (length (slice content start end_)) = end_ - start + 1.
Proof.
  intros Hs He. unfold slice. rewrite length_take, length_drop. lia.
Qed.

Lemma slice_whole (content : list byte) :
  slice content 0 (Z.of_nat (length content) - 1) = content.
Proof.
  unfold slice. cbn [Z.to_nat drop].
  replace (Z.to_nat (Z.of_nat (length content) - 1 - 0 + 1)) with (length content) by lia.
  apply firstn_all.
Qed.

(** X7. What a client receives from a store that holds the file. For a
    request whose [Range] header is accepted as the single range
    [start..end], the download and the streaming handler answer 206 with
    exactly the bytes [start..end] of the content, and the
    [Content-Length] they declared is the number of those bytes; for a
    request without [Range] header they answer 200 with the whole
    content and its length. *)
Theorem range_response_exact (file : File) (content : list byte)
    (fileUUID rangeHeader : string) (start end_ : Z) :
  Z.of_nat (length content) = SizeBytes file ->
  0 < SizeBytes file <= max_int64 ->
  let key :=
    if String.eqb (RangeRead.metadata_s3Path file) ""
    then RangeRead.standard_key file fileUUID
    else RangeRead.metadata_s3Path file in
  (rangeHeader <> EmptyString ->
   RangeHeader.parseRange rangeHeader (SizeBytes file) = inl [(start, end_)] ->
   RangeHeader.serve (healthy file content) fileUUID rangeHeader =
     ([RepoCall "GetFileInfo"; RepoCall "GetFileInfo"; S3GetObjectRange key start end_],
      RangeHeader.Streamed 206 start end_ (mkReader (slice content start end_) None)) /\
   Headers.Content_Length file 206 start end_ =
     pretty (Z.of_nat (length (slice content start end_)))) /\
  (RangeHeader.serve (healthy file content) fileUUID "" =
     ([RepoCall "GetFileInfo"; RepoCall "GetFileInfo";
       S3GetObjectRange key 0 (SizeBytes file - 1)],
      RangeHeader.Streamed 200 0 (SizeBytes file - 1) (mkReader content None)) /\
   Headers.Content_Length file 200 0 (SizeBytes file - 1) =
     pretty (Z.of_nat (length content))).
Proof.
  intros Hlen Hsize. cbv zeta. unfold max_int64 in Hsize. split.
  - intros Hne Hparse.
    pose proof (parseRange_single_inside _ _ _ _ Hparse) as Hin.
    split.
    + unfold RangeHeader.serve, healthy. cbn [GetFileInfo].
      destruct (String.eqb_spec rangeHeader ""); [done |].
      rewrite Hparse. unfold RangeRead.GetFileDataRange. cbn [GetFileInfo GetObjectRange].
      by rewrite check_range_inside by lia.
    + unfold Headers.Content_Length, Headers.strconv_FormatInt. cbn [Z.eqb Pos.eqb].
      rewrite slice_length by lia.
      unfold add64, sub64. rewrite (wrap64_small (end_ - start)), wrap64_small;
        [done | |]; unfold in_int64, min_int64, max_int64; lia.
  - assert (Hw : sub64 (SizeBytes file) 1 = SizeBytes file - 1).
    { apply wrap64_small. unfold in_int64, min_int64, max_int64. lia. }
    split.
    + unfold RangeHeader.serve, healthy. cbn [GetFileInfo String.eqb]. rewrite Hw.
      unfold RangeRead.GetFileDataRange. cbn [GetFileInfo GetObjectRange].
      rewrite check_range_inside by lia.
      by rewrite <- Hlen, slice_whole.
    + unfold Headers.Content_Length, Headers.strconv_FormatInt. cbn [Z.eqb Pos.eqb].
      by rewrite Hlen.
Qed.

Lemma range_response_exact_witness :
  let content := [x00; x01; x02; x03; x04; x05; x06; x07; x08; x09]%byte in
  let file := mkFile "uuid" "a.bin" "owner" 10 1 1 None in
  let key := "personal_drive_files/owner/uuid" in
  (RangeHeader.serve (healthy file content) "uuid" "bytes=2-5" =
     ([RepoCall "GetFileInfo"; RepoCall "GetFileInfo"; S3GetObjectRange key 2 5],
      RangeHeader.Streamed 206 2 5 (mkReader [x02; x03; x04; x05]%byte None)) /\
   Headers.Content_Length file 206 2 5 = "4") /\
  (RangeHeader.serve (healthy file content) "uuid" "" =
     ([RepoCall "GetFileInfo"; RepoCall "GetFileInfo"; S3GetObjectRange key 0 9],
      RangeHeader.Streamed 200 0 9 (mkReader content None)) /\
   Headers.Content_Length file 200 0 9 = "10").
Proof.
  destruct (range_response_exact
              (mkFile "uuid" "a.bin" "owner" 10 1 1 None)
              [x00; x01; x02; x03; x04; x05; x06; x07; x08; x09]%byte
              "uuid" "bytes=2-5" 2 5 eq_refl
              ltac:(cbn; unfold max_int64; lia)) as [Hrange Hwhole].
  split; [| exact Hwhole].
  apply Hrange; [discriminate | reflexivity].
Defined.

(** ** Who may do what *)

(** X8. The access levels are nested: whatever a "view" share allows an
    "edit" share allows, and whatever any share allows a "full" share
    allows. Deleting and sharing are allowed by a "full" share only; an
    access type other than the three allows nothing. *)
Theorem access_levels_nested (accessType operation : string) :
  (Access.checkAccessLevel "view" operation = true ->
   Access.checkAccessLevel "edit" operation = true) /\
  (Access.checkAccessLevel accessType operation = true ->
   Access.checkAccessLevel "full" operation = true /\
   (accessType = "view" \/ accessType = "edit" \/ accessType = "full")%string) /\
  (Access.checkAccessLevel accessType Access.OperationDelete = true <->
   accessType = "full"%string) /\
  (Access.checkAccessLevel accessType Access.OperationShare = true <->
   accessType = "full"%string).
Proof.
  unfold Access.checkAccessLevel.
  split_and!.
  - cbn [String.eqb Ascii.eqb Bool.eqb andb]. intros H.
    apply orb_true_iff in H as [-> | ->]; [reflexivity |].
    by rewrite !orb_true_r.
  - destruct (String.eqb_spec accessType "view") as [-> | _]; [by auto |].
    destruct (String.eqb_spec accessType "edit") as [-> | _]; [by auto |].
    destruct (String.eqb_spec accessType "full") as [-> | _]; [by auto | done].
  - destruct (String.eqb_spec accessType "view") as [-> | _]; [done |].
    destruct (String.eqb_spec accessType "edit") as [-> | _]; [done |].
    by destruct (String.eqb_spec accessType "full") as [-> | ?].
  - destruct (String.eqb_spec accessType "view") as [-> | _]; [done |].
    destruct (String.eqb_spec accessType "edit") as [-> | _]; [done |].
    by destruct (String.eqb_spec accessType "full") as [-> | ?].
Qed.

Section ShareLoops.
Import Access.

Variable repo : Repo.
Variable clock : Clock.
Variable userID : string.

Lemma expired_live (share : Share) (t : nat) :
  live clock share -> (expired clock share t).2 = false.
Proof.
  unfold live, expired. intros Hlive.
  destruct (ExpiresAt share) as [at_ |]; [| reflexivity].
  cbn [snd]. apply Z.ltb_ge. by apply Hlive.
Qed.

Lemma expired_false (share : Share) (t : nat) :
  (expired clock share t).2 = false -> seen_alive clock share.
Proof.
  unfold seen_alive, expired. intros Hexp at_ Hat. rewrite Hat in Hexp.
  cbn [snd] in Hexp. apply Z.ltb_ge in Hexp. eauto.
Qed.

(** The loop of [CheckPermission] and [CheckSharedFolderPermission]. *)
Lemma allowing_share_true (operation : string) (shares : list Share) :
  forall t t',
    allowing_share clock userID operation shares t = (t', true) ->
    exists share, share ∈ shares /\ names share userID = true /\
                  checkAccessLevel (AccessType share) operation = true /\
                  seen_alive clock share.
Proof.
  induction shares as [| share rest IH]; intros t t' Hrun; [discriminate |].
  cbn [allowing_share] in Hrun.
  destruct (expired clock share t) as [t1 old] eqn:Hexp.
  assert (Hrest : allowing_share clock userID operation rest t1 = (t', true) ->
                  exists share0, share0 ∈ share :: rest /\ names share0 userID = true /\
                    checkAccessLevel (AccessType share0) operation = true /\
                    seen_alive clock share0).
  { intros Hr. destruct (IH _ _ Hr) as (s & Hin & Hs). exists s.
    split; [by apply elem_of_cons; right | exact Hs]. }
  destruct old; [by apply Hrest |].
  destruct (names share userID && checkAccessLevel (AccessType share) operation) eqn:Hgrant;
    [| by apply Hrest].
  apply andb_true_iff in Hgrant as [Hn Hl].
  exists share. split_and!; [by apply elem_of_cons; left | done | done |].
  apply (expired_false share t). by rewrite Hexp.
Qed.

Lemma allowing_share_live (operation : string) (shares : list Share) (share : Share) :
  share ∈ shares -> names share userID = true ->
  checkAccessLevel (AccessType share) operation = true -> live clock share ->
  forall t, exists t', allowing_share clock userID operation shares t = (t', true).
Proof.
  intros Hin Hn Hl Hlive.
  induction shares as [| share0 rest IH]; intros t; [by apply elem_of_nil in Hin |].
  cbn [allowing_share].
  destruct (expired clock share0 t) as [t1 old] eqn:Hexp.
  apply elem_of_cons in Hin as [<- | Hin].
  - pose proof (expired_live share t Hlive) as Hl'. rewrite Hexp in Hl'.
    cbn [snd] in Hl'. subst old. rewrite Hn, Hl. cbn [andb]. eauto.
  - destruct old; [by apply IH |].
    destruct (_ && _); [eauto | by apply IH].
Qed.

(** The first loop of [GetFileInfo]. *)
Lemma naming_share_true (shares : list Share) :
  forall t t',
    naming_share clock userID shares t = (t', true) ->
    exists share, share ∈ shares /\ names share userID = true /\ seen_alive clock share.
Proof.
  induction shares as [| share rest IH]; intros t t' Hrun; [discriminate |].
  cbn [naming_share] in Hrun.
  destruct (expired clock share t) as [t1 old] eqn:Hexp.
  assert (Hrest : naming_share clock userID rest t1 = (t', true) ->
                  exists share0, share0 ∈ share :: rest /\ names share0 userID = true /\
                                 seen_alive clock share0).
  { intros Hr. destruct (IH _ _ Hr) as (s & Hin & Hs). exists s.
    split; [by apply elem_of_cons; right | exact Hs]. }
  destruct old; [by apply Hrest |].
  destruct (names share userID) eqn:Hn; [| by apply Hrest].
  exists share. split_and!; [by apply elem_of_cons; left | done |].
  apply (expired_false share t). by rewrite Hexp.
Qed.

Lemma naming_share_live (shares : list Share) (share : Share) :
  share ∈ shares -> names share userID = true -> live clock share ->
  forall t, exists t', naming_share clock userID shares t = (t', true).
Proof.
  intros Hin Hn Hlive.
  induction shares as [| share0 rest IH]; intros t; [by apply elem_of_nil in Hin |].
  cbn [naming_share].
  destruct (expired clock share0 t) as [t1 old] eqn:Hexp.
  apply elem_of_cons in Hin as [<- | Hin].
  - pose proof (expired_live share t Hlive) as Hl'. rewrite Hexp in Hl'.
    cbn [snd] in Hl'. subst old. rewrite Hn. eauto.
  - destruct old; [by apply IH |].
    destruct (names share0 userID); [eauto | by apply IH].
Qed.

(** The loop of [GetFileInfo] over the shares of one folder. *)
Lemma folder_share_loop_true (file : File) (currentFolderID : Z) (shares : list Share) :
  forall t t',
    folder_share_loop repo clock userID file currentFolderID shares t = (t', inl true) ->
    exists share sharedFolder fileFolder,
      share ∈ shares /\ names share userID = true /\ seen_alive clock share /\
      FolderGetByID repo currentFolderID = inl sharedFolder /\
      FolderGetByID repo (FolderID file) = inl fileFolder /\
      RangeHeader.strings_HasPrefix (Path fileFolder) (Path sharedFolder) = true.
Proof.
  induction shares as [| share rest IH]; intros t t' Hrun; [discriminate |].
  cbn [folder_share_loop] in Hrun.
  destruct (expired clock share t) as [t1 old] eqn:Hexp.
  assert (Hrest :
    folder_share_loop repo clock userID file currentFolderID rest t1 = (t', inl true) ->
    exists share0 sharedFolder fileFolder,
      share0 ∈ share :: rest /\ names share0 userID = true /\ seen_alive clock share0 /\
      FolderGetByID repo currentFolderID = inl sharedFolder /\
      FolderGetByID repo (FolderID file) = inl fileFolder /\
      RangeHeader.strings_HasPrefix (Path fileFolder) (Path sharedFolder) = true).
  { intros Hr. destruct (IH _ _ Hr) as (s & sf & ff & Hin & Hs). exists s, sf, ff.
    split; [by apply elem_of_cons; right | exact Hs]. }
  destruct old; [by apply Hrest |].
  destruct (names share userID) eqn:Hn; [| by apply Hrest].
  destruct (FolderGetByID repo currentFolderID) as [sharedFolder | e]; [| discriminate].
  destruct (FolderGetByID repo (FolderID file)) as [fileFolder | e]; [| discriminate].
  destruct (RangeHeader.strings_HasPrefix (Path fileFolder) (Path sharedFolder)) eqn:Hpre;
    [| by apply Hrest].
  exists share, sharedFolder, fileFolder.
  split_and!; try done; [by apply elem_of_cons; left |].
  apply (expired_false share t). by rewrite Hexp.
Qed.

End ShareLoops.

Section FolderLoops.
Import Access.

Variable repo : Repo.
Variable clock : Clock.
Variable userID : string.

Lemma shared_folder_loop_true (operation : string) (fuel : nat) :
  forall folder currentFolderID t t',
    shared_folder_loop repo clock userID operation fuel folder currentFolderID t
    = Some (t', inl true) ->
    exists target shares share,
      rises repo folder currentFolderID target /\ target <> 0 /\
      GetSharesByResource repo (pretty target) ResourceTypeFolder = inl shares /\
      share ∈ shares /\ names share userID = true /\
      checkAccessLevel (AccessType share) operation = true /\ seen_alive clock share.
Proof.
  induction fuel as [| fuel IH]; intros folder cur t t' Hrun; [discriminate |].
  cbn [shared_folder_loop] in Hrun.
  destruct (Z.eqb_spec cur 0) as [| Hcur]; [discriminate |].
  destruct (GetSharesByResource repo (pretty cur) ResourceTypeFolder)
    as [shares | e] eqn:Hshares; [| discriminate].
  destruct (allowing_share clock userID operation shares t) as [t1 found] eqn:Hscan.
  destruct found.
  - destruct (allowing_share_true clock userID operation shares _ _ Hscan)
      as (share & Hin & Hn & Hl & Ha).
    exists cur, shares, share. split_and!; try done. constructor.
  - destruct (ParentID folder) as [parentID |] eqn:Hparent; [| discriminate].
    destruct (FolderGetByID repo parentID) as [parent | e] eqn:Hget; [| discriminate].
    destruct (IH _ _ _ _ Hrun) as (target & shares' & share & Hrise & Hrest).
    exists target, shares', share. split; [| exact Hrest].
    by apply (rises_up repo folder parent cur parentID target).
Qed.

Lemma shared_folder_loop_granted (operation : string) (folder : Folder) (id : Z) :
  granted_above repo clock userID operation folder id ->
  exists n, forall fuel t, (n <= fuel)%nat ->
    exists t', shared_folder_loop repo clock userID operation fuel folder id t
               = Some (t', inl true).
Proof.
  induction 1 as [folder id shares share Hid Hshares Hin Hn Hl Hlive
                 | folder parent id parentID shares Hid Hshares Hparent Hget _ IH].
  - exists 1%nat. intros fuel t Hfuel. destruct fuel as [| fuel]; [lia |].
    cbn [shared_folder_loop].
    destruct (Z.eqb_spec id 0); [done |]. rewrite Hshares.
    destruct (allowing_share_live clock userID operation shares share Hin Hn Hl Hlive t)
      as [t' ->]. eauto.
  - destruct IH as [n IH]. exists (S n). intros fuel t Hfuel.
    destruct fuel as [| fuel]; [lia |]. cbn [shared_folder_loop].
    destruct (Z.eqb_spec id 0); [done |]. rewrite Hshares.
    destruct (allowing_share clock userID operation shares t) as [t1 [|]]; [eauto |].
    rewrite Hparent, Hget. apply IH. lia.
Qed.

Lemma hierarchy_loop_file (file : File) (fuel : nat) :
  forall currentFolderID t t' f,
    hierarchy_loop repo clock userID file fuel currentFolderID t = Some (t', inl f) ->
    f = file /\
    exists folder target shares share sharedFolder fileFolder,
      FolderGetByID repo currentFolderID = inl folder /\
      rises repo folder currentFolderID target /\ target <> 0 /\
      GetSharesByResource repo (pretty target) ResourceTypeFolder = inl shares /\
      share ∈ shares /\ names share userID = true /\ seen_alive clock share /\
      FolderGetByID repo target = inl sharedFolder /\
      FolderGetByID repo (FolderID file) = inl fileFolder /\
      RangeHeader.strings_HasPrefix (Path fileFolder) (Path sharedFolder) = true.
Proof.
  induction fuel as [| fuel IH]; intros cur t t' f Hrun; [discriminate |].
  cbn [hierarchy_loop] in Hrun.
  destruct (Z.eqb_spec cur 0) as [| Hcur]; [discriminate |].
  destruct (FolderGetByID repo cur) as [folder | e] eqn:Hget; [| discriminate].
  destruct (GetSharesByResource repo (pretty cur) ResourceTypeFolder)
    as [shares | e] eqn:Hshares; [| discriminate].
  destruct (folder_share_loop repo clock userID file cur shares t)
    as [t1 [[|] | e]] eqn:Hscan; [| | discriminate].
  - injection Hrun as _ <-. split; [reflexivity |].
    destruct (folder_share_loop_true repo clock userID file cur shares _ _ Hscan)
      as (share & sharedFolder & fileFolder & Hin & Hn & Ha & Hsf & Hff & Hpre).
    exists folder, cur, shares, share, sharedFolder, fileFolder.
    split_and!; try done. constructor.
  - destruct (ParentID folder) as [parentID |] eqn:Hparent; [| discriminate].
    destruct (IH _ _ _ _ Hrun)
      as (-> & folder' & target & shares' & share & sf & ff & Hget' & Hrise & Hrest).
    split; [reflexivity |].
    exists folder, target, shares', share, sf, ff.
    split_and!; try done; try apply Hrest.
    by apply (rises_up repo folder folder' cur parentID target).
Qed.

(** With no share naming the user the loops find nothing. *)
Lemma naming_share_none (shares : list Share) :
  (forall share, share ∈ shares -> names share userID = false) ->
  forall t, exists t', naming_share clock userID shares t = (t', false).
Proof.
  induction shares as [| share rest IH]; intros Hnone t; [by eexists |].
  cbn [naming_share]. destruct (expired clock share t) as [t1 old].
  assert (Hrest : forall share0, share0 ∈ rest -> names share0 userID = false).
  { intros s Hin. apply Hnone. by apply elem_of_cons; right. }
  destruct old; [by apply IH |].
  rewrite (Hnone share) by (by apply elem_of_cons; left). by apply IH.
Qed.

End FolderLoops.

(** X9. [CheckSharedFolderPermission] answers yes only for a reason:
    the folder itself or a folder reached from it through parent links
    carries a share that names the user (by a token or in its list of
    user ids), whose access type allows the operation, and that was not
    past its expiry when it was looked at. *)
Theorem shared_permission_sound (repo : Access.Repo) (clock : Access.Clock)
    (userID : string) (folderID : Z) (operation : string) (fuel t t' : nat) :
  Access.CheckSharedFolderPermission repo clock userID folderID operation fuel t
  = Some (t', inl true) ->
  exists folder target shares share,
    Access.FolderGetByID repo folderID = inl folder /\
    rises repo folder (Access.ID folder) target /\ target <> 0 /\
    Access.GetSharesByResource repo (pretty target) Access.ResourceTypeFolder = inl shares /\
    share ∈ shares /\ Access.names share userID = true /\
    Access.checkAccessLevel (Access.AccessType share) operation = true /\
    seen_alive clock share.
Proof.
  unfold Access.CheckSharedFolderPermission. intros Hrun.
  destruct (Access.FolderGetByID repo folderID) as [folder | e]; [| discriminate].
  destruct (shared_folder_loop_true repo clock userID operation fuel _ _ _ _ Hrun)
    as (target & shares & share & Hrest).
  by exists folder, target, shares, share.
Qed.

(** X10. A share on a folder covers what lies below it. If the folder
    or one of its ancestors carries a share that names the user, allows
    the operation and is never past its expiry, and the shares of the
    folders below that one can be read, [CheckSharedFolderPermission]
    ends and answers yes. *)
Theorem shared_permission_inherited (repo : Access.Repo) (clock : Access.Clock)
    (userID : string) (folderID : Z) (operation : string) (folder : Access.Folder) :
  Access.FolderGetByID repo folderID = inl folder ->
  granted_above repo clock userID operation folder (Access.ID folder) ->
  exists n, forall fuel t, (n <= fuel)%nat ->
    exists t', Access.CheckSharedFolderPermission repo clock userID folderID
                 operation fuel t = Some (t', inl true).
Proof.
  intros Hget Hgrant. unfold Access.CheckSharedFolderPermission. rewrite Hget.
  by apply shared_folder_loop_granted.
Qed.

Lemma shared_permission_sound_witness :
  exists folder target shares share,
    Access.FolderGetByID sample_repo 2 = inl folder /\
    rises sample_repo folder (Access.ID folder) target /\ target <> 0 /\
    Access.GetSharesByResource sample_repo (pretty target) Access.ResourceTypeFolder
      = inl shares /\
    share ∈ shares /\ Access.names share "bob" = true /\
    Access.checkAccessLevel (Access.AccessType share) "upload" = true /\
    seen_alive sample_clock share.
Proof.
  apply (shared_permission_sound sample_repo sample_clock "bob" 2 "upload" 5 0 0).
  vm_compute. reflexivity.
Defined.

Lemma shared_permission_inherited_witness :
  exists n, forall fuel t, (n <= fuel)%nat ->
    exists t', Access.CheckSharedFolderPermission sample_repo sample_clock "bob" 2
                 "upload" fuel t = Some (t', inl true).
Proof.
  apply (shared_permission_inherited sample_repo sample_clock "bob" 2 "upload"
           (Access.mkFolder 2 "docs" "alice" (Some 1) "1.2")).
  - reflexivity.
  - apply (granted_higher _ _ _ _ _ (Access.mkFolder 1 "Root" "alice" None "1") 2 1 []).
    + lia.
    + reflexivity.
    + reflexivity.
    + reflexivity.
    + apply (granted_here _ _ _ _ _ 1
               [Access.mkShare "s1" "1" "folder" "alice" "edit" "" None "{bob}"]
               (Access.mkShare "s1" "1" "folder" "alice" "edit" "" None "{bob}")).
      * lia.
      * reflexivity.
      * apply elem_of_cons. by left.
      * reflexivity.
      * reflexivity.
      * intros at_ Hat. discriminate.
Defined.

(** X11. [CheckPermission] on a resource whose owner can be read: the
    owner is always allowed, without a look at the shares. Anyone else
    is allowed if a share of the resource names them, allows the
    operation and is never past its expiry; and is allowed only if a
    share of the resource names them, allows the operation and was not
    past its expiry when it was looked at. *)
Theorem CheckPermission_decides (repo : Access.Repo) (clock : Access.Clock)
    (userID resourceID resourceType operation ownerID : string) (t : nat) :
  Access.GetResourceOwner repo resourceID resourceType = inl ownerID ->
  (ownerID = userID ->
   Access.CheckPermission repo clock userID resourceID resourceType operation t
   = (t, inl true)) /\
  (ownerID <> userID ->
   forall shares,
     Access.GetSharesByResource repo resourceID resourceType = inl shares ->
     ((exists share, share ∈ shares /\ Access.names share userID = true /\
         Access.checkAccessLevel (Access.AccessType share) operation = true /\
         live clock share) ->
      exists t', Access.CheckPermission repo clock userID resourceID resourceType
                   operation t = (t', inl true)) /\
     (forall t', Access.CheckPermission repo clock userID resourceID resourceType
                   operation t = (t', inl true) ->
      exists share, share ∈ shares /\ Access.names share userID = true /\
        Access.checkAccessLevel (Access.AccessType share) operation = true /\
        seen_alive clock share)).
Proof.
  intros Howner. unfold Access.CheckPermission. rewrite Howner. split.
  - intros ->. by rewrite String.eqb_refl.
  - intros Hne shares Hshares.
    destruct (String.eqb_spec ownerID userID); [done |]. rewrite Hshares. split.
    + intros (share & Hin & Hn & Hl & Hlive).
      destruct (allowing_share_live clock userID operation shares share Hin Hn Hl Hlive t)
        as [t' ->]. eauto.
    + intros t' Hrun.
      destruct (Access.allowing_share clock userID operation shares t)
        as [t1 found] eqn:Hscan.
      injection Hrun as -> ->.
      by apply (allowing_share_true clock userID operation shares t t').
Qed.

Lemma CheckPermission_decides_witness :
  Access.CheckPermission sample_repo sample_clock "alice" "f1" "file" "delete" 0
  = (0%nat, inl true) /\
  forall t', Access.CheckPermission sample_repo sample_clock "bob" "1" "folder" "upload" 0
             = (t', inl true) ->
    exists share,
      share ∈ [Access.mkShare "s1" "1" "folder" "alice" "edit" "" None "{bob}"] /\
      Access.names share "bob" = true /\
      Access.checkAccessLevel (Access.AccessType share) "upload" = true /\
      seen_alive sample_clock share.
Proof.
  split.
  - by apply (CheckPermission_decides sample_repo sample_clock
                "alice" "f1" "file" "delete" "alice" 0 eq_refl).
  - apply (CheckPermission_decides sample_repo sample_clock
             "bob" "1" "folder" "upload" "alice" 0 eq_refl);
      [discriminate | reflexivity].
Defined.

(** X12. Who is sure to get the file from [GetFileInfo]: its owner,
    without a look at the shares; and any user named by a share of the
    file that is never past its expiry, whatever the access type of the
    share. A share with a token names every user, and a list of user ids
    names every user whose id occurs in it as a piece of text. *)
Theorem GetFileInfo_grants (repo : Access.Repo) (clock : Access.Clock)
    (fileUUID userID : string) (file : File) (fuel t : nat) :
  Access.FileGetByUUID repo fileUUID = inl file ->
  (OwnerID file = userID ->
   Access.GetFileInfo repo clock fileUUID userID fuel t = Some (t, inl file)) /\
  (forall shares share,
     Access.GetSharesByResource repo fileUUID Access.ResourceTypeFile = inl shares ->
     share ∈ shares -> live clock share ->
     Access.Token share <> EmptyString \/
       strings_Contains (Access.UserIDs share) userID = true ->
     exists t', Access.GetFileInfo repo clock fileUUID userID fuel t
                = Some (t', inl file)).
Proof.
  intros Hfile. unfold Access.GetFileInfo. rewrite Hfile. split.
  - intros ->. by rewrite String.eqb_refl.
  - intros shares share Hshares Hin Hlive Hnames.
    destruct (String.eqb (OwnerID file) userID); [eauto |]. rewrite Hshares.
    assert (Hn : Access.names share userID = true).
    { unfold Access.names. destruct Hnames as [Htok | ->]; [| apply orb_true_r].
      by destruct (String.eqb_spec (Access.Token share) ""). }
    destruct (naming_share_live clock userID shares share Hin Hn Hlive t) as [t' ->].
    eauto.
Qed.

Lemma GetFileInfo_grants_witness :
  let file := mkFile "f1" "report.pdf" "alice" 100 2 1 None in
  Access.GetFileInfo sample_repo sample_clock "f1" "alice" 0 0 = Some (0%nat, inl file) /\
  exists t', Access.GetFileInfo sample_repo sample_clock "f1" "carol" 0 0
             = Some (t', inl file).
Proof.
  pose (file := mkFile "f1" "report.pdf" "alice" 100 2 1 None).
  split.
  - by apply (GetFileInfo_grants sample_repo sample_clock "f1" "alice" file 0 0 eq_refl).
  - apply (proj2 (GetFileInfo_grants sample_repo sample_clock "f1" "carol" file 0 0 eq_refl)
             [Access.mkShare "s2" "f1" "file" "alice" "view" "" None "{carol}"]
             (Access.mkShare "s2" "f1" "file" "alice" "view" "" None "{carol}")).
    + reflexivity.
    + apply elem_of_cons. by left.
    + intros at_ Hat. discriminate.
    + right. reflexivity.
Defined.

(** X13. [GetFileInfo] hands out a file only for a reason. When it
    returns a file, that is the stored record of the identifier, and the
    user is its owner, or is named by a share of the file that was not
    past its expiry when looked at, or is named by such a share of a
    folder reached from the file's folder through parent links, whose
    path is a prefix of the path of the file's folder. *)
Theorem GetFileInfo_sound (repo : Access.Repo) (clock : Access.Clock)
    (fileUUID userID : string) (fuel t t' : nat) (f : File) :
  Access.GetFileInfo repo clock fileUUID userID fuel t = Some (t', inl f) ->
  Access.FileGetByUUID repo fileUUID = inl f /\
  (OwnerID f = userID \/
   (exists shares share,
      Access.GetSharesByResource repo fileUUID Access.ResourceTypeFile = inl shares /\
      share ∈ shares /\ Access.names share userID = true /\ seen_alive clock share) \/
   (exists folder target shares share sharedFolder fileFolder,
      Access.FolderGetByID repo (FolderID f) = inl folder /\
      rises repo folder (FolderID f) target /\ target <> 0 /\
      Access.GetSharesByResource repo (pretty target) Access.ResourceTypeFolder
        = inl shares /\
      share ∈ shares /\ Access.names share userID = true /\ seen_alive clock share /\
      Access.FolderGetByID repo target = inl sharedFolder /\
      Access.FolderGetByID repo (FolderID f) = inl fileFolder /\
      RangeHeader.strings_HasPrefix (Access.Path fileFolder) (Access.Path sharedFolder)
        = true)).
Proof.
  unfold Access.GetFileInfo. intros Hrun.
  destruct (Access.FileGetByUUID repo fileUUID) as [file | e]; [| discriminate].
  destruct (String.eqb_spec (OwnerID file) userID) as [Hown | Hne].
  { injection Hrun as _ <-. auto. }
  destruct (Access.GetSharesByResource repo fileUUID Access.ResourceTypeFile)
    as [shares | e] eqn:Hshares; [| discriminate].
  destruct (Access.naming_share clock userID shares t) as [t1 found] eqn:Hscan.
  destruct found.
  - injection Hrun as _ <-. split; [reflexivity |]. right. left.
    destruct (naming_share_true clock userID shares _ _ Hscan) as (share & Hshare).
    by exists shares, share.
  - apply hierarchy_loop_file in Hrun as [-> Hreason].
    split; [reflexivity |]. right. right. exact Hreason.
Qed.

Lemma GetFileInfo_sound_witness :
  let f := mkFile "f1" "report.pdf" "alice" 100 2 1 None in
  Access.FileGetByUUID sample_repo "f1" = inl f /\
  (OwnerID f = "bob"%string \/
   (exists shares share,
      Access.GetSharesByResource sample_repo "f1" Access.ResourceTypeFile = inl shares /\
      share ∈ shares /\ Access.names share "bob" = true /\
      seen_alive sample_clock share) \/
   (exists folder target shares share sharedFolder fileFolder,
      Access.FolderGetByID sample_repo (FolderID f) = inl folder /\
      rises sample_repo folder (FolderID f) target /\ target <> 0 /\
      Access.GetSharesByResource sample_repo (pretty target) Access.ResourceTypeFolder
        = inl shares /\
      share ∈ shares /\ Access.names share "bob" = true /\
      seen_alive sample_clock share /\
      Access.FolderGetByID sample_repo target = inl sharedFolder /\
      Access.FolderGetByID sample_repo (FolderID f) = inl fileFolder /\
      RangeHeader.strings_HasPrefix (Access.Path fileFolder) (Access.Path sharedFolder)
        = true)).
Proof.
  apply (GetFileInfo_sound sample_repo sample_clock "f1" "bob" 5 0 0
           (mkFile "f1" "report.pdf" "alice" 100 2 1 None)).
  vm_compute. reflexivity.
Defined.

(** X14. A stranger reads nothing. For a user who does not own the
    file and whom no share of the store names, [GetFileInfo] never
    returns the file; and [GetFileDataRange], given that answer, returns
    an error without a read of the object store, whatever the store
    holds and whether it is taken as it answers or reached through the
    client. *)
Theorem stranger_reads_nothing (repo : Access.Repo) (clock : Access.Clock)
    (sdk : S3Client.Sdk) (fileUUID userID : string) (fuel t t' : nat)
    (info : File + error) (start end_ : Z) :
  (forall file, Access.FileGetByUUID repo fileUUID = inl file -> OwnerID file <> userID) ->
  (forall resourceID resourceType shares share,
     Access.GetSharesByResource repo resourceID resourceType = inl shares ->
     share ∈ shares -> Access.names share userID = false) ->
  Access.GetFileInfo repo clock fileUUID userID fuel t = Some (t', info) ->
  exists e e',
    info = inr e /\
    ClientRead.GetFileDataRange info sdk fileUUID start end_
    = ([RepoCall "GetFileInfo"], Failed e') /\
    forall w, GetFileInfo w = info ->
      RangeRead.GetFileDataRange w fileUUID start end_
      = ([RepoCall "GetFileInfo"], inr e').
Proof.
  intros Hown Hnone Hrun.
  destruct info as [f | e].
  - exfalso. unfold Access.GetFileInfo in Hrun.
    destruct (Access.FileGetByUUID repo fileUUID) as [file | e] eqn:Hfile; [| discriminate].
    destruct (String.eqb_spec (OwnerID file) userID) as [Heq | _];
      [by apply (Hown file) |].
    destruct (Access.GetSharesByResource repo fileUUID Access.ResourceTypeFile)
      as [shares | e] eqn:Hshares; [| discriminate].
    destruct (naming_share_none clock userID shares
                (fun share => Hnone _ _ _ share Hshares) t) as [t1 Hscan].
    rewrite Hscan in Hrun.
    apply hierarchy_loop_file in Hrun
      as (_ & folder & target & shares' & share & sf & ff & _ & _ & _ & Hsh & Hin & Hn & _).
    rewrite (Hnone _ _ _ _ Hsh Hin) in Hn. discriminate.
  - exists e. unfold RangeRead.GetFileDataRange, ClientRead.GetFileDataRange.
    destruct (strings_Contains (error_text e) "access denied") eqn:Hdenied;
      eexists; (split; [reflexivity |]); (split; [reflexivity |]);
      intros w ->; by rewrite Hdenied.
Qed.

Lemma stranger_reads_nothing_witness :
  exists e e',
    (inr errAccessDenied : File + error) = inr e /\
    ClientRead.GetFileDataRange (inr errAccessDenied)
      (fun _ _ => inr S3Client.NoSuchKey) "f1" 0 99
    = ([RepoCall "GetFileInfo"], Failed e') /\
    forall w, GetFileInfo w = inr errAccessDenied ->
      RangeRead.GetFileDataRange w "f1" 0 99 = ([RepoCall "GetFileInfo"], inr e').
Proof.
  apply (stranger_reads_nothing sample_repo sample_clock
           (fun _ _ => inr S3Client.NoSuchKey) "f1" "mallory" 5 0 0
           (inr errAccessDenied) 0 99).
  - intros file. unfold sample_repo. cbn. intros [= <-]. discriminate.
  - intros resourceID resourceType shares share. unfold sample_repo. cbn.
    destruct (_ && _).
    + intros [= <-] Hin. apply list_elem_of_singleton in Hin as ->. reflexivity.
    + destruct (_ && _).
      * intros [= <-] Hin. apply list_elem_of_singleton in Hin as ->. reflexivity.
      * intros [= <-] Hin. by apply elem_of_nil in Hin.
  - vm_compute. reflexivity.
Defined.

(** ** Deleting, renaming and moving *)

Section FileOpsFacts.
Import FileOps.

Lemma delete_versions_log (versions : list FileVersion) :
  delete_versions versions =
  ((fun version => S3DeleteObject (S3Key version)) <$> versions, Done tt).
Proof.
  induction versions as [| version rest IH]; [reflexivity |].
  cbn [delete_versions]. rewrite IH. reflexivity.
Qed.

Lemma deletes_versions (versions : list FileVersion) :
  deletes ((fun version => S3DeleteObject (S3Key version)) <$> versions)
  = S3Key <$> versions.
Proof.
  induction versions as [| version rest IH]; [reflexivity |].
  cbn. by rewrite <- IH.
Qed.

End FileOpsFacts.

Ltac run_calls :=
  unfold UploadGate.call, UploadGate.call_, UploadGate.emit, UploadGate.fail;
  cbn [mbind mret UploadGate.M_bind UploadGate.M_ret UploadGate.mbind_ UploadGate.mret
       app fst snd negb andb orb].

(** X15. [DeleteFile] deletes nothing for a user without the right to.
    A delete request to the object store or the deletion of the file's
    row only happens when the file exists and the user owns it or the
    permission service has answered yes for deleting in its folder. *)
Theorem DeleteFile_needs_right (env : FileOps.Svc) (fileUUID userID : string)
    (ev : effect) :
  ev ∈ (FileOps.DeleteFile env fileUUID userID).1 ->
  ev = RepoCall "Delete" \/ (exists key, ev = S3DeleteObject key) ->
  exists file,
    FileOps.GetByUUID env fileUUID = inl file /\
    (OwnerID file = userID \/
     FileOps.CheckSharedFolderPermission env userID (FolderID file)
       Access.OperationDelete = inl true).
Proof.
  unfold FileOps.DeleteFile. intros Hin Hev.
  assert (Hnot : forall l : list effect,
            ev ∈ l ->
            Forall (fun x => exists name, x = RepoCall name /\ name <> "Delete"%string) l ->
            False).
  { intros l Hl Hall.
    apply (proj1 (Forall_forall _ _) Hall) in Hl as (name & -> & Hname).
    destruct Hev as [[= ->] | [key [=]]]. done. }
  destruct (FileOps.GetByUUID env fileUUID) as [file | e].
  - exists file. split; [reflexivity |].
    destruct (String.eqb_spec (OwnerID file) userID) as [| Hne]; [by left |]. right.
    destruct (FileOps.CheckSharedFolderPermission env userID (FolderID file)
                Access.OperationDelete) as [[|] | e]; [reflexivity | |];
      exfalso; revert Hin; run_calls; intros Hin;
      apply (Hnot _ Hin); repeat constructor; eexists; (split; [reflexivity | discriminate]).
  - exfalso. revert Hin. run_calls. intros Hin.
    apply (Hnot _ Hin). repeat constructor; eexists; (split; [reflexivity | discriminate]).
Qed.

Lemma DeleteFile_needs_right_witness :
  exists file,
    FileOps.GetByUUID sample_svc "f1" = inl file /\
    (OwnerID file = "alice"%string \/
     FileOps.CheckSharedFolderPermission sample_svc "alice" (FolderID file)
       Access.OperationDelete = inl true).
Proof.
  apply (DeleteFile_needs_right sample_svc "f1" "alice" (RepoCall "Delete")).
  - vm_compute. repeat constructor.
  - by left.
Defined.

(** X16. What [DeleteFile] does for a user with the right to delete,
    once the transaction is open and the versions are read: it asks the
    object store to delete the object of every version, in their order
    and whatever the store answers, and only then deletes the row. If
    the row cannot be deleted the call fails although the objects have
    been asked to go; otherwise the preview object is asked to go too
    and the outcome is the outcome of the commit. *)
Theorem DeleteFile_removes_versions (env : FileOps.Svc) (fileUUID userID : string)
    (file : File) (versions : list FileOps.FileVersion) :
  FileOps.GetByUUID env fileUUID = inl file ->
  OwnerID file = userID \/
    FileOps.CheckSharedFolderPermission env userID (FolderID file)
      Access.OperationDelete = inl true ->
  FileOps.BeginTx env = None ->
  FileOps.GetFileVersions env fileUUID = inl versions ->
  exists before after,
    FileOps.DeleteFile env fileUUID userID =
      (before ++ ((fun version => S3DeleteObject (FileOps.S3Key version)) <$> versions)
         ++ RepoCall "Delete" :: after.1, after.2) /\
    deletes before = [] /\
    after =
      match FileOps.RepoDelete env fileUUID with
      | Some e => ([], Failed (Errorf "failed to delete file from database: " e ""))
      | None =>
          ([S3DeleteObject ("previews/" +:+ fileUUID); RepoCall "Commit"],
           match FileOps.Commit env with
           | Some e => Failed (Errorf "failed to commit transaction: " e "")
           | None => Done tt
           end)
      end.
Proof.
  intros Hfile Hright Htx Hversions.
  set (after :=
    match FileOps.RepoDelete env fileUUID with
    | Some e => ([], Failed (Errorf "failed to delete file from database: " e ""))
    | None =>
        ([S3DeleteObject ("previews/" +:+ fileUUID); RepoCall "Commit"],
         match FileOps.Commit env with
         | Some e => Failed (Errorf "failed to commit transaction: " e "")
         | None => Done tt
         end)
    end : list effect * outcome unit).
  unfold FileOps.DeleteFile. rewrite Hfile.
  destruct (String.eqb_spec (OwnerID file) userID) as [Hown | Hne].
  - exists [RepoCall "GetByUUID"; RepoCall "BeginTx"; RepoCall "GetFileVersions"], after.
    split_and!; [| reflexivity | reflexivity].
    rewrite Htx, Hversions. run_calls. rewrite delete_versions_log. run_calls.
    subst after. destruct (FileOps.RepoDelete env fileUUID); [reflexivity |].
    by destruct (FileOps.Commit env).
  - destruct Hright as [Hown | Hperm]; [done |].
    exists [RepoCall "GetByUUID"; RepoCall "CheckSharedFolderPermission";
            RepoCall "BeginTx"; RepoCall "GetFileVersions"], after.
    split_and!; [| reflexivity | reflexivity].
    rewrite Hperm, Htx, Hversions. run_calls. rewrite delete_versions_log. run_calls.
    subst after. destruct (FileOps.RepoDelete env fileUUID); [reflexivity |].
    by destruct (FileOps.Commit env).
Qed.

Lemma DeleteFile_removes_versions_witness :
  exists before after,
    FileOps.DeleteFile sample_svc "f1" "alice" =
      (before ++ [S3DeleteObject "personal_drive_files/alice/f1";
                  S3DeleteObject "personal_drive_files/alice/f1"]
         ++ RepoCall "Delete" :: after.1, after.2) /\
    deletes before = [] /\
    after = ([S3DeleteObject "previews/f1"; RepoCall "Commit"], Done tt).
Proof.
  exact (DeleteFile_removes_versions sample_svc "f1" "alice"
           (mkFile "f1" "report.pdf" "alice" 100 2 2 None)
           [FileOps.mkFileVersion 1 "personal_drive_files/alice/f1" 90;
            FileOps.mkFileVersion 2 "personal_drive_files/alice/f1" 100]
           eq_refl (or_introl eq_refl) eq_refl eq_refl).
Defined.

(** *** The result of a run, apart from its effects *)

Section Results.
Import UploadGate.

Lemma bind_result {A B : Type} (m : M A) (k : A -> M B) :
  (m ≫= k).2 =
  match m.2 with
  | Done a => (k a).2
  | Failed e => Failed e
  | Panicked p => Panicked p
  end.
Proof.
  destruct m as [l [a | e | p]]; cbn; try reflexivity. by destruct (k a).
Qed.

Lemma call_result {A : Type} (ev : effect) (r : A + error) (pre : string) :
  (call ev r pre).2 =
  match r with
  | inl a => Done a
  | inr e => Failed (Errorf pre e "")
  end.
Proof. by destruct r. Qed.

Lemma call__result (ev : effect) (r : option error) (pre : string) :
  (call_ ev r pre).2 =
  match r with
  | None => Done tt
  | Some e => Failed (Errorf pre e "")
  end.
Proof. by destruct r. Qed.

Lemma emit_result (ev : effect) : (emit ev).2 = Done tt.
Proof. reflexivity. Qed.

Lemma fail_result {A : Type} (e : error) : (@fail A e).2 = Failed e.
Proof. reflexivity. Qed.

Lemma mret_result {A : Type} (a : A) : (mret a : M A).2 = Done a.
Proof. reflexivity. Qed.

End Results.

Ltac result_step :=
  repeat first
    [ rewrite bind_result | rewrite call_result | rewrite call__result
    | rewrite emit_result | rewrite fail_result | rewrite mret_result
    | progress cbn beta iota ].

Ltac result_case x :=
  let H := fresh "Hcase" in
  destruct x eqn:H; result_step; try discriminate.

(** X17. When [MoveFile] succeeds. The move is carried out exactly when
    the user may see the file; owns it, or has edit permission on the
    file itself or, failing that, on its folder; the permission check
    for uploading into the target folder has answered, with yes unless
    the user owns the file; no file of that name lies in the target
    folder; and the transaction, the update and the commit succeed. The
    owner of a file needs no right on the target folder. *)
Theorem MoveFile_succeeds_iff (env : FileOps.Svc) (fileUUID : string) (newFolderID : Z)
    (userID : string) :
  (FileOps.MoveFile env fileUUID newFolderID userID).2 = Done tt <->
  exists file hasTargetPermission,
    FileOps.GetFileInfo_ env fileUUID userID = inl file /\
    (OwnerID file = userID \/
     FileOps.CheckPermission env userID fileUUID Access.ResourceTypeFile
       Access.OperationEdit = inl true \/
     (FileOps.CheckPermission env userID fileUUID Access.ResourceTypeFile
        Access.OperationEdit = inl false /\
      FileOps.CheckSharedFolderPermission env userID (FolderID file)
        Access.OperationEdit = inl true)) /\
    FileOps.CheckSharedFolderPermission env userID newFolderID Access.OperationUpload
      = inl hasTargetPermission /\
    (hasTargetPermission = true \/ OwnerID file = userID) /\
    FileOps.CheckFileExists env newFolderID (Name file) = inl None /\
    FileOps.BeginTx env = None /\
    FileOps.UpdateFileFolder env fileUUID newFolderID (FolderID file) = None /\
    FileOps.Commit env = None.
Proof.
  unfold FileOps.MoveFile. split.
  - result_step.
    destruct (FileOps.GetFileInfo_ env fileUUID userID) as [file | e] eqn:Hinfo;
      result_step; [| discriminate].
    intros Hrun. exists file.
    match type of Hrun with
    | match ?m with _ => _ end = _ =>
        destruct m as [[] | e | p] eqn:Hauth; [| discriminate | discriminate]
    end.
    assert (Hsource :
      OwnerID file = userID \/
      FileOps.CheckPermission env userID fileUUID Access.ResourceTypeFile
        Access.OperationEdit = inl true \/
      (FileOps.CheckPermission env userID fileUUID Access.ResourceTypeFile
         Access.OperationEdit = inl false /\
       FileOps.CheckSharedFolderPermission env userID (FolderID file)
         Access.OperationEdit = inl true)).
    { destruct (String.eqb_spec (OwnerID file) userID) as [Hown | Hne]; [by left |].
      right. revert Hauth. result_step.
      destruct (FileOps.CheckPermission env userID fileUUID Access.ResourceTypeFile
                  Access.OperationEdit) as [[|] | e];
        result_step; try discriminate; [by left |].
      destruct (FileOps.CheckSharedFolderPermission env userID (FolderID file)
                  Access.OperationEdit) as [[|] | e];
        result_step; try discriminate. by right. }
    revert Hrun. result_step.
    destruct (FileOps.CheckSharedFolderPermission env userID newFolderID
                Access.OperationUpload) as [hasTarget | e] eqn:Htarget;
      result_step; [| discriminate].
    destruct (negb hasTarget && negb (String.eqb (OwnerID file) userID)) eqn:Hgate;
      result_step; [discriminate |].
    destruct (FileOps.CheckFileExists env newFolderID (Name file))
      as [[existing |] | e]; result_step; try discriminate.
    destruct (FileOps.BeginTx env); result_step; try discriminate.
    destruct (FileOps.UpdateFileFolder env fileUUID newFolderID (FolderID file));
      result_step; try discriminate.
    destruct (FileOps.Commit env); result_step; try discriminate.
    intros _. exists hasTarget. split_and!; try done.
    apply andb_false_iff in Hgate as [Hg | Hg].
    + left. by destruct hasTarget.
    + right. apply negb_false_iff in Hg. by apply String.eqb_eq.
  - intros (file & hasTarget & Hinfo & Hsource & Htarget & Hallowed & Hfree & Htx
            & Hupd & Hcommit).
    assert (Hgate : negb hasTarget && negb (String.eqb (OwnerID file) userID) = false).
    { destruct Hallowed as [-> | ->]; [reflexivity |].
      by rewrite String.eqb_refl, andb_false_r. }
    result_step. rewrite Hinfo. result_step.
    match goal with
    | |- match ?m with _ => _ end = _ => assert (Hauth : m = Done tt)
    end.
    { destruct (String.eqb_spec (OwnerID file) userID) as [Hown | Hne]; [reflexivity |].
      destruct Hsource as [Hown | [Hdirect | [Hdirect Hfolder]]]; [done | |];
        result_step; rewrite Hdirect; result_step; [reflexivity |].
      rewrite Hfolder. by result_step. }
    rewrite Hauth. result_step. rewrite Htarget. result_step. rewrite Hgate. result_step.
    rewrite Hfree. result_step. rewrite Htx. result_step. rewrite Hupd. result_step.
    by rewrite Hcommit.
Qed.

Lemma MoveFile_succeeds_iff_witness :
  (FileOps.MoveFile sample_svc "f1" 7 "alice").2 = Done tt /\
  (FileOps.MoveFile sample_svc "f1" 7 "mallory").2 <> Done tt.
Proof.
  split.
  - apply (MoveFile_succeeds_iff sample_svc "f1" 7 "alice").
    exists (mkFile "f1" "report.pdf" "alice" 100 2 2 None), false.
    split_and!; try reflexivity; by auto.
  - intros Hrun.
    apply (MoveFile_succeeds_iff sample_svc "f1" 7 "mallory") in Hrun
      as (file & hasTarget & Hinfo & _).
    discriminate Hinfo.
Defined.

(** X18. When [RenameFile] succeeds. The new name is written exactly
    when the user may see the file; owns it, or has edit permission on
    its folder or, failing that, on the file itself; the folder holds no
    other file of the new name (the file itself may already bear it);
    and the update succeeds. *)
Theorem RenameFile_succeeds_iff (env : FileOps.Svc) (fileUUID newName userID : string) :
  (FileOps.RenameFile env fileUUID newName userID).2 = Done tt <->
  exists file,
    FileOps.GetFileInfo_ env fileUUID userID = inl file /\
    (OwnerID file = userID \/
     FileOps.CheckSharedFolderPermission env userID (FolderID file)
       Access.OperationEdit = inl true \/
     (FileOps.CheckSharedFolderPermission env userID (FolderID file)
        Access.OperationEdit = inl false /\
      FileOps.CheckPermission env userID fileUUID Access.ResourceTypeFile
        Access.OperationEdit = inl true)) /\
    (FileOps.CheckFileExists env (FolderID file) newName = inl None \/
     exists existing,
       FileOps.CheckFileExists env (FolderID file) newName = inl (Some existing) /\
       UUID existing = fileUUID) /\
    FileOps.UpdateFileName env fileUUID newName = None.
Proof.
  unfold FileOps.RenameFile. split.
  - result_step.
    destruct (FileOps.GetFileInfo_ env fileUUID userID) as [file | e] eqn:Hinfo;
      result_step; [| discriminate].
    intros Hrun. exists file.
    match type of Hrun with
    | match ?m with _ => _ end = _ =>
        destruct m as [[] | e | p] eqn:Hauth; [| discriminate | discriminate]
    end.
    assert (Hright :
      OwnerID file = userID \/
      FileOps.CheckSharedFolderPermission env userID (FolderID file)
        Access.OperationEdit = inl true \/
      (FileOps.CheckSharedFolderPermission env userID (FolderID file)
         Access.OperationEdit = inl false /\
       FileOps.CheckPermission env userID fileUUID Access.ResourceTypeFile
         Access.OperationEdit = inl true)).
    { destruct (String.eqb_spec (OwnerID file) userID) as [Hown | Hne]; [by left |].
      right. revert Hauth. result_step.
      destruct (FileOps.CheckSharedFolderPermission env userID (FolderID file)
                  Access.OperationEdit) as [[|] | e];
        result_step; try discriminate; [by left |].
      destruct (FileOps.CheckPermission env userID fileUUID Access.ResourceTypeFile
                  Access.OperationEdit) as [[|] | e];
        result_step; try discriminate. by right. }
    revert Hrun. result_step.
    destruct (FileOps.CheckFileExists env (FolderID file) newName)
      as [[existing |] | e] eqn:Hexists; result_step; try discriminate.
    + destruct (String.eqb_spec (UUID existing) fileUUID) as [Hsame | Hother];
        result_step; [| discriminate].
      destruct (FileOps.UpdateFileName env fileUUID newName); [discriminate |].
      intros _. split_and!; eauto.
    + destruct (FileOps.UpdateFileName env fileUUID newName); [discriminate |].
      intros _. split_and!; eauto.
  - intros (file & Hinfo & Hright & Hname & Hupd).
    result_step. rewrite Hinfo. result_step.
    match goal with
    | |- match ?m with _ => _ end = _ => assert (Hauth : m = Done tt)
    end.
    { destruct (String.eqb_spec (OwnerID file) userID) as [Hown | Hne]; [reflexivity |].
      destruct Hright as [Hown | [Hfolder | [Hfolder Hdirect]]]; [done | |];
        result_step; rewrite Hfolder; result_step; [reflexivity |].
      rewrite Hdirect. by result_step. }
    rewrite Hauth. result_step.
    destruct Hname as [-> | (existing & -> & Hsame)]; result_step.
    + by rewrite Hupd.
    + rewrite Hsame, String.eqb_refl. result_step. by rewrite Hupd.
Qed.

Lemma RenameFile_succeeds_iff_witness :
  (FileOps.RenameFile sample_svc "f1" "final.pdf" "bob").2 = Done tt /\
  (FileOps.RenameFile sample_svc "f1" "final.pdf" "mallory").2 <> Done tt.
Proof.
  split.
  - apply (RenameFile_succeeds_iff sample_svc "f1" "final.pdf" "bob").
    exists (mkFile "f1" "report.pdf" "alice" 100 2 2 None).
    split_and!; try reflexivity; by auto.
  - intros Hrun.
    apply (RenameFile_succeeds_iff sample_svc "f1" "final.pdf" "mallory") in Hrun
      as (file & Hinfo & _).
    discriminate Hinfo.
Defined.

(** ** The quota in front of an upload *)

(** X19. With the quota service in place and a stored usage that does
    not overflow when the file is added, [UploadFile] refuses a file
    that does not fit into what is left of the user's limit with "not
    enough storage space available", before anything else is looked at
    or stored; and whenever it returns a file, the file fitted into the
    limit, was at most 100 MiB, and the file and the user id were
    present. *)
Theorem quota_gate (env : UploadGate.Env)
    (GetQuota : string -> Quota.StorageQuota + error) (h : UploadGate.FileHeader)
    (file : option (list byte)) (folderID : Z) (userID : string)
    (quota : Quota.StorageQuota) :
  GetQuota userID = inl quota ->
  0 <= Quota.UsedBytes quota -> 0 <= UploadGate.Size h ->
  Quota.UsedBytes quota + UploadGate.Size h <= max_int64 ->
  (Quota.TotalBytesLimit quota < Quota.UsedBytes quota + UploadGate.Size h ->
   UploadGate.UploadFile (Quota.with_quota env GetQuota) (Some h) file folderID userID =
   ([RepoCall "CheckSpaceAvailable"],
    Failed (ErrorsNew "not enough storage space available"))) /\
  (forall f,
     (UploadGate.UploadFile (Quota.with_quota env GetQuota) (Some h) file folderID userID).2
       = Done f ->
     Quota.UsedBytes quota + UploadGate.Size h <= Quota.TotalBytesLimit quota /\
     UploadGate.Size h <= UploadGate.maxFileSize /\
     userID <> EmptyString /\ file <> None).
Proof.
  intros Hquota Hused Hsize Hfit.
  assert (Hcheck :
    UploadGate.CheckSpaceAvailable (Quota.with_quota env GetQuota) userID (UploadGate.Size h)
    = inl (Quota.UsedBytes quota + UploadGate.Size h <=? Quota.TotalBytesLimit quota)).
  { cbn [Quota.with_quota UploadGate.CheckSpaceAvailable].
    unfold Quota.CheckSpaceAvailable. rewrite Hquota. unfold add64.
    rewrite wrap64_small; [reflexivity |].
    unfold in_int64, min_int64, max_int64 in *. lia. }
  unfold UploadGate.UploadFile. split.
  - intros Hover. rewrite Hcheck. run_calls.
    destruct (Z.leb_spec (Quota.UsedBytes quota + UploadGate.Size h)
                (Quota.TotalBytesLimit quota)); [lia | reflexivity].
  - intros f. result_step. rewrite Hcheck. result_step.
    destruct (Z.leb_spec (Quota.UsedBytes quota + UploadGate.Size h)
                (Quota.TotalBytesLimit quota)) as [Hin | Hout];
      cbn [negb]; [| discriminate].
    destruct file as [data |]; cbn [orb]; [| discriminate].
    destruct (String.eqb_spec userID ""); [discriminate |].
    destruct (Z.gtb_spec (UploadGate.Size h) UploadGate.maxFileSize); [discriminate |].
    intros _. split_and!; (done || lia).
Qed.

Lemma quota_gate_witness :
  let GetQuota := fun _ : string => inl (Quota.mkStorageQuota 5368709120 5368709000) in
  let h := UploadGate.mkFileHeader "a.bin" 1000 "" in
  UploadGate.UploadFile (Quota.with_quota (sample_env 0) GetQuota) (Some h) (Some [])
    0 "alice" =
  ([RepoCall "CheckSpaceAvailable"],
   Failed (ErrorsNew "not enough storage space available")).
Proof.
  apply (quota_gate (sample_env 0)
           (fun _ => inl (Quota.mkStorageQuota 5368709120 5368709000))
           (UploadGate.mkFileHeader "a.bin" 1000 "") (Some []) 0 "alice"
           (Quota.mkStorageQuota 5368709120 5368709000) eq_refl);
    cbn; unfold max_int64; lia.
Defined.

(** ** The upload progress table *)

Section ProgressFacts.
Import Progress.

Variable float64 : Type.

Lemma setProgress_dom (table : gmap string (uploadProgress float64)) (id : string)
    (progress : float64) (status error : string) (version : Z) :
  dom (setProgress float64 table id progress status error version) = dom table.
Proof.
  unfold setProgress. destruct (table !! id) as [p |] eqn:Hid; [| reflexivity].
  apply set_eq. intros k. rewrite dom_insert, elem_of_union, elem_of_singleton.
  split; [| by right]. intros [-> | Hk]; [| done].
  apply elem_of_dom. eauto.
Qed.

Lemma after_calls_dom (calls : list (string * float64 * string * string * Z)) :
  forall table : gmap string (uploadProgress float64),
    dom (after_calls table calls) = dom table.
Proof.
  induction calls as [| [[[[id progress] status] error] version] calls IH];
    intros table; [reflexivity |].
  unfold after_calls in *. cbn [foldl]. by rewrite IH, setProgress_dom.
Qed.

End ProgressFacts.

(** X20. [setProgress] never adds or removes an entry of the progress
    table: after any series of calls the table has the keys it had
    before. The table is created empty and [setProgress] is its only
    writer, so it stays empty, and a tick of [GetUploadProgress] finds no
    entry to report, for any user. *)
Theorem progress_table_stays_empty (float64 : Type)
    (calls : list (string * float64 * string * string * Z))
    (table : gmap string (Progress.uploadProgress float64)) (userID : string) :
  dom (after_calls table calls) = dom table /\
  after_calls (Progress.progressMap_init float64) calls = ∅ /\
  Progress.tick_events float64 (after_calls (Progress.progressMap_init float64) calls)
    userID = [].
Proof.
  split; [apply after_calls_dom |].
  assert (Hempty : after_calls (Progress.progressMap_init float64) calls = ∅).
  { apply dom_empty_iff_L. rewrite after_calls_dom. apply dom_empty_L. }
  split; [exact Hempty |]. rewrite Hempty.
  unfold Progress.tick_events. by rewrite map_to_list_empty.
Qed.

(** ** A complete parallel upload *)

Section UploadContent.
Import Planner Upload.

Variable content : list byte.
Variable s3Key : string.

Lemma chunk_key_inj (a b : Z) : chunk_key s3Key a = chunk_key s3Key b -> a = b.
Proof.
  unfold chunk_key. intros Heq.
  apply String.app_inj in Heq. apply String.app_inj in Heq.
  by apply (inj pretty).
Qed.

Lemma chunk_key_other (a : Z) : chunk_key s3Key a <> s3Key.
Proof.
  unfold chunk_key. intros Heq.
  rewrite <- (append_nil_r s3Key) in Heq at 2.
  apply String.app_inj in Heq. discriminate.
Qed.

Lemma readable_never_fails (sl : UploadSlice) :
  chunk_failure (readable content) s3Key sl = None.
Proof. reflexivity. Qed.

(** Every object in the store after a run was there before or was put
    for a slice of the run. *)
Lemma upload_readable_run (order : list UploadSlice) :
  forall st k d,
    store (foldl (upload_chunk (readable content) s3Key) st order) !! k = Some d ->
    store st !! k = Some d \/
    exists sl, sl ∈ order /\ k = chunk_key s3Key (chunkNum sl) /\
               d = slice_data content sl.
Proof.
  induction order as [| sl order IH]; intros st k d Hk; [by left |].
  cbn [foldl] in Hk. apply IH in Hk as [Hk | (sl' & Hin & -> & ->)].
  - unfold upload_chunk, readable in Hk. cbn in Hk.
    destruct (decide (chunk_key s3Key (chunkNum sl) = k)) as [<- | Hne].
    + rewrite lookup_insert_eq in Hk. injection Hk as <-.
      right. exists sl. split_and!; [by apply elem_of_cons; left | done | done].
    + rewrite lookup_insert_ne in Hk by done. by left.
  - right. exists sl'. split_and!; [by apply elem_of_cons; right | done | done].
Qed.

End UploadContent.

(** X21. A parallel upload of a readable file to a store that accepts
    every put, with every goroutine run once in any order, reports
    success and leaves one object per planned slice under
    [<key>/chunk_<i>], holding exactly the bytes of that slice; the
    objects in the order of the plan concatenate to the content of the
    file. Nothing is deleted, and no object is written under the key
    itself. *)
Theorem parallel_upload_stores_content (content : list byte) (s3Key : string)
    (totalSize : Z) (sched : list nat) (plan : list Planner.UploadSlice) :
  0 <= totalSize -> totalSize + Planner.chunkSize - 1 <= max_int64 ->
  Z.of_nat (length content) = totalSize ->
  Planner.upload_plan Planner.chunkSize totalSize = Done plan ->
  sched ≡ₚ seq 0 (length plan) ->
  exists st,
    Upload.uploadFileParallel (readable content) s3Key totalSize sched = Done (None, st) /\
    (forall sl, sl ∈ plan ->
       Upload.store st !! Upload.chunk_key s3Key (Planner.chunkNum sl)
       = Some (slice_data content sl)) /\
    concat (slice_data content <$> plan) = content /\
    deletes (Upload.log st) = [] /\
    Upload.store st !! s3Key = None.
Proof.
  intros Hts Hfit Hlen Hplan Hperm.
  assert (Hcs : 1 <= Planner.chunkSize) by (unfold Planner.chunkSize; lia).
  pose proof (upload_plan_done Planner.chunkSize totalSize Hts Hcs Hfit) as Hdone.
  rewrite Hplan in Hdone. injection Hdone as Hshape.
  set (n := (totalSize + Planner.chunkSize - 1) `div` Planner.chunkSize) in *.
  unfold Upload.uploadFileParallel, Upload.upload_parallel. rewrite Hplan.
  cbn [mbind outcome_bind obind].
  set (st0 := {| Upload.store := ∅; Upload.errors := []; Upload.log := [] |}).
  set (st := foldl (Upload.upload_chunk (readable content) s3Key) st0
               (Upload.in_order plan sched)).
  destruct (upload_run_spec (readable content) s3Key (Upload.in_order plan sched) st0)
    as (Herr & Hdel & _ & Hpresent).
  fold st in Herr, Hdel, Hpresent.
  assert (Hnone : omap (chunk_failure (readable content) s3Key)
                    (Upload.in_order plan sched) = []).
  { apply omap_nil_iff. intros sl _. apply readable_never_fails. }
  rewrite Hnone in Herr. cbn in Herr.
  assert (Hnum : forall sl sl', sl ∈ plan -> sl' ∈ plan ->
                   Planner.chunkNum sl = Planner.chunkNum sl' -> sl = sl').
  { intros sl sl' Hin Hin' Heq. rewrite Hshape in Hin, Hin'.
    apply list_elem_of_fmap in Hin as (i & -> & _).
    apply list_elem_of_fmap in Hin' as (i' & -> & _).
    cbn in Heq. by subst. }
  exists st. split_and!.
  - by rewrite Herr.
  - intros sl Hin.
    assert (Hrun : sl ∈ Upload.in_order plan sched) by (by apply in_order_all).
    destruct (Hpresent sl Hrun (readable_never_fails content s3Key sl)) as [d Hd].
    rewrite Hd. f_equal.
    apply upload_readable_run in Hd as [Hd | (sl' & Hin' & Hkey & ->)].
    + unfold st0 in Hd. cbn [Upload.store] in Hd. by rewrite lookup_empty in Hd.
    + apply chunk_key_inj in Hkey. apply in_order_all in Hin'; [| done].
      by rewrite (Hnum sl sl' Hin Hin' Hkey).
  - rewrite <- (planned_results_concat Planner.chunkSize totalSize content Hts Hcs Hfit Hlen)
      at 2.
    fold n. rewrite Hshape, <- !list_fmap_compose. f_equal.
    apply list_fmap_ext. intros j i Hi. apply lookup_seqZ in Hi as [-> Hj].
    unfold compose, slice_data, complete_result, Planner.slice_end.
    rewrite slice_bounds_ideal, chunk_bounds_ideal by (fold n; lia).
    cbn. f_equal. lia.
  - by rewrite Hdel.
  - destruct (Upload.store st !! s3Key) as [d |] eqn:Hd; [| reflexivity].
    apply upload_readable_run in Hd as [Hd | (sl & _ & Hkey & _)].
    + unfold st0 in Hd. cbn [Upload.store] in Hd. by rewrite lookup_empty in Hd.
    + symmetry in Hkey. by apply chunk_key_other in Hkey.
Qed.

Lemma parallel_upload_stores_content_witness :
  exists st,
    Upload.uploadFileParallel (readable [x01; x02; x03]%byte) "files/a" 3 [0%nat]
    = Done (None, st) /\
    (forall sl, sl ∈ [Planner.mkUploadSlice 0 0 3] ->
       Upload.store st !! Upload.chunk_key "files/a" (Planner.chunkNum sl)
       = Some (slice_data [x01; x02; x03]%byte sl)) /\
    concat (slice_data [x01; x02; x03]%byte <$> [Planner.mkUploadSlice 0 0 3])
    = [x01; x02; x03]%byte /\
    deletes (Upload.log st) = [] /\
    Upload.store st !! "files/a" = None.
Proof.
  apply (parallel_upload_stores_content [x01; x02; x03]%byte "files/a" 3 [0%nat]
           [Planner.mkUploadSlice 0 0 3]).
  - lia.
  - unfold Planner.chunkSize, max_int64. lia.
  - reflexivity.
  - vm_compute. reflexivity.
  - reflexivity.
Defined.

(** ** A complete parallel download *)

Section DownloadCompletes.
Import Planner RangeRead Workers.

Variable file : File.
Variable content : list byte.
Variable fileUUID : string.

Local Abbreviation store := (fun (_ : ChunkInfo) (_ : Z) => healthy file content).

Lemma run_pool_app (sched sched' : list nat) (p : pool) :
  run_pool store fileUUID (sched ++ sched') p
  = run_pool store fileUUID sched' (run_pool store fileUUID sched p).
Proof. unfold run_pool. apply foldl_app. Qed.

Lemma step_take (p : pool) (w : nat) (c : ChunkInfo) (q : list ChunkInfo) :
  crashed p = None -> workers p !! w = Some Idle -> queue p = c :: q ->
  step store fileUUID p w =
  {| queue := q; workers := <[w := Busy c]> (workers p); results := results p;
     served := served p; trace := trace p; crashed := None |}.
Proof. intros Hcr Hw Hq. unfold step. by rewrite Hcr, Hw, Hq. Qed.

Lemma step_serve (p : pool) (w : nat) (c r : ChunkInfo) (log : list effect) :
  crashed p = None -> workers p !! w = Some (Busy c) ->
  process_chunk (store c) fileUUID c = (log, Sent r Sink.Continue) ->
  step store fileUUID p w =
  {| queue := queue p; workers := <[w := Idle]> (workers p);
     results := results p ++ [r]; served := served p ++ [(c, r)];
     trace := trace p ++ log; crashed := None |}.
Proof. intros Hcr Hw Hproc. unfold step. by rewrite Hcr, Hw, Hproc. Qed.

(** Worker 0 alone takes and serves every queued descriptor. *)
Lemma drained_by_one (chunks : list ChunkInfo) :
  forall p,
    crashed p = None -> workers p !! 0%nat = Some Idle -> queue p = chunks ->
    (forall c, c ∈ chunks -> 0 <= Start c <= End c /\ End c < SizeBytes file) ->
    let p' := run_pool store fileUUID (concat (replicate (length chunks) [0; 0]%nat)) p in
    queue p' = [] /\ workers p' = workers p /\ crashed p' = None.
Proof.
  induction chunks as [| c chunks IH]; intros p Hcr Hw Hq Hvalid; [by cbn |].
  cbn [length replicate concat]. cbv zeta. rewrite run_pool_app.
  set (p2 := run_pool store fileUUID [0%nat; 0%nat] p).
  destruct (Hvalid c ltac:(by apply elem_of_cons; left)) as [Hs He].
  destruct (process_chunk_healthy file content fileUUID c Hs He) as [log Hproc].
  assert (Hlt : (0 < length (workers p))%nat) by (by eapply lookup_lt_Some).
  assert (Hp2 : queue p2 = chunks /\ workers p2 = workers p /\ crashed p2 = None).
  { subst p2. unfold run_pool. cbn [foldl].
    rewrite (step_take p 0 c chunks Hcr Hw Hq).
    rewrite (step_serve _ 0 c (complete_result content c) log);
      [| reflexivity | cbn [workers]; by rewrite list_lookup_insert_eq | exact Hproc].
    cbn [queue workers crashed]. split_and!; try done.
    rewrite list_insert_insert_eq. by apply list_insert_id. }
  destruct Hp2 as (Hq2 & Hw2 & Hcr2).
  destruct (IH p2 Hcr2 ltac:(by rewrite Hw2) Hq2
              ltac:(intros c' Hin; apply Hvalid; by apply elem_of_cons; right))
    as (Hq' & Hw' & Hcr').
  split_and!; [exact Hq' | by rewrite Hw', Hw2 | exact Hcr'].
Qed.

Lemma all_exit (p : pool) :
  queue p = [] -> crashed p = None -> workers p = replicate 5 Idle ->
  workers (run_pool store fileUUID [0; 1; 2; 3; 4]%nat p) = replicate 5 Exited.
Proof.
  destruct p as [q ws rs sv tr cr]. cbn [queue crashed workers].
  intros -> -> ->. reflexivity.
Qed.

Lemma plan_chunks_valid (cs totalSize : Z) (plan : list ChunkInfo) :
  0 <= totalSize -> 1 <= cs -> totalSize + cs - 1 <= max_int64 ->
  download_plan cs totalSize = Done plan ->
  forall c, c ∈ plan -> 0 <= Start c <= End c /\ End c < totalSize.
Proof.
  intros Hts Hcs Hfit Hplan c Hin.
  rewrite download_plan_done in Hplan by assumption. injection Hplan as <-.
  apply list_elem_of_fmap in Hin as (i & -> & Hi).
  apply elem_of_seqZ in Hi.
  rewrite chunk_bounds_ideal by (done || lia). cbn [Start End].
  pose proof (ceil_bounds cs totalSize Hcs). nia.
Qed.

(** Some schedule lets every worker return. *)
Lemma some_schedule_ends (cs totalSize : Z) (plan : list ChunkInfo) :
  0 <= totalSize -> 1 <= cs -> totalSize + cs - 1 <= max_int64 ->
  SizeBytes file = totalSize ->
  download_plan cs totalSize = Done plan ->
  exists sched, quiescent (run_pool store fileUUID sched (start_pool plan)).
Proof.
  intros Hts Hcs Hfit Hsize Hplan.
  exists (concat (replicate (length plan) [0; 0]%nat) ++ [0; 1; 2; 3; 4]%nat).
  rewrite run_pool_app.
  destruct (drained_by_one plan (start_pool plan) eq_refl eq_refl eq_refl)
    as (Hq & Hw & Hcr).
  { intros c Hin. rewrite Hsize. by apply (plan_chunks_valid cs totalSize plan). }
  intros w st Hlook.
  rewrite (all_exit _ Hq Hcr Hw) in Hlook.
  by apply lookup_replicate in Hlook as [-> _].
Qed.

End DownloadCompletes.

(** X22. A parallel download from a store that holds the file comes to
    an end and delivers the file. For a file of [totalSize] bytes cut in
    chunks of [cs] bytes there is a schedule of the five workers after
    which all of them have returned; and after every schedule that lets
    them all return, the reader has received exactly the content of the
    file, followed by a clean end of stream, and no error was queued. *)
Theorem parallel_download_completes (file : File) (content : list byte)
    (fileUUID : string) (cs totalSize : Z) (plan : list ChunkInfo) :
  0 <= totalSize -> 1 <= cs -> totalSize + cs - 1 <= max_int64 ->
  Z.of_nat (length content) = totalSize -> SizeBytes file = totalSize ->
  Planner.download_plan cs totalSize = Done plan ->
  (exists sched,
     Workers.quiescent
       (Workers.run_pool (fun _ _ => healthy file content) fileUUID sched
          (Workers.start_pool plan))) /\
  (forall sched,
     let p := Workers.run_pool (fun _ _ => healthy file content) fileUUID sched
                (Workers.start_pool plan) in
     Workers.quiescent p ->
     let s := Sink.sink_goroutine (Planner.numChunks_of cs totalSize)
                (Workers.results p) Pipe.io_Pipe in
     Pipe.stream (Sink.pw s) = content /\
     Pipe.wclosed (Sink.pw s) = Some Pipe.EOF /\
     Sink.errors s = []).
Proof.
  intros Hts Hcs Hfit Hlen Hsize Hplan. split.
  - by apply (some_schedule_ends file content fileUUID cs totalSize plan).
  - intros sched.
    by apply (download_end_to_end file content fileUUID cs totalSize plan sched).
Qed.

Lemma parallel_download_completes_witness :
  let content := [x00; x01; x02; x03; x04; x05; x06; x07; x08; x09]%byte in
  let file := mkFile "uuid" "a.bin" "owner" 10 1 1 None in
  let plan := [mkChunkInfo 0 3 [] false None; mkChunkInfo 4 7 [] false None;
               mkChunkInfo 8 9 [] false None] in
  (exists sched,
     Workers.quiescent
       (Workers.run_pool (fun _ _ => healthy file content) "uuid" sched
          (Workers.start_pool plan))) /\
  (forall sched,
     let p := Workers.run_pool (fun _ _ => healthy file content) "uuid" sched
                (Workers.start_pool plan) in
     Workers.quiescent p ->
     let s := Sink.sink_goroutine (Planner.numChunks_of 4 10)
                (Workers.results p) Pipe.io_Pipe in
     Pipe.stream (Sink.pw s) = content /\
     Pipe.wclosed (Sink.pw s) = Some Pipe.EOF /\
     Sink.errors s = []).
Proof.
  apply (parallel_download_completes
           (mkFile "uuid" "a.bin" "owner" 10 1 1 None)
           [x00; x01; x02; x03; x04; x05; x06; x07; x08; x09]%byte
           "uuid" 4 10).
  - lia.
  - lia.
  - unfold max_int64. lia.
  - reflexivity.
  - reflexivity.
  - vm_compute. reflexivity.
Defined.

(** ** The object an upload writes *)

(** Every way through [UploadFile]: the calls are run as far as the
    answers of the collaborators are known, then the next answer is
    distinguished. *)
Ltac pending x :=
  lazymatch x with
  | context [match ?y with _ => _ end] => pending y
  | _ => x
  end.

Ltac run_upload :=
  cbv beta iota zeta delta
    [UploadGate.call UploadGate.call_ UploadGate.emit UploadGate.fail
     mbind mret UploadGate.M_bind UploadGate.M_ret UploadGate.mbind_ UploadGate.mret
     app fst snd negb andb orb].

Ltac upload_paths :=
  unfold UploadGate.UploadFile, UploadGate.store_upload, UploadGate.getRootFolder,
    UploadGate.createFileVersion, UploadGate.wrapping;
  run_upload;
  repeat (lazymatch goal with
          | |- context [match ?x with _ => _ end] =>
              let y := pending x in destruct y eqn:?
          end; run_upload; try (intros [= ? ?]; discriminate); try discriminate).

(** X23. A successful [UploadFile] puts exactly one object and deletes
    none. The object lies under
    [personal_drive_files/<owner of the folder>/<UUID of the record returned>],
    and the record returned has the size of the header. When the name
    was free in the folder, the record is a first version owned by the
    owner of the folder, so that the key written is the key
    [GetFileDataRange] reads first for it. *)
Theorem upload_stored_where_read (env : UploadGate.Env) (h : UploadGate.FileHeader)
    (file : option (list byte)) (folderID : Z) (userID : string)
    (log : list effect) (f : File) :
  UploadGate.UploadFile env (Some h) file folderID userID = (log, Done f) ->
  exists fid folder,
    (folderID <> 0 -> fid = folderID) /\
    UploadGate.FolderGetByID env fid = inl folder /\
    uploads log =
      ["personal_drive_files/" +:+ UploadGate.FolderOwnerID folder +:+ "/" +:+ UUID f] /\
    deletes log = [] /\
    SizeBytes f = UploadGate.Size h /\
    (UploadGate.CheckFileExists env fid (UploadGate.Filename h) = inl None ->
       CurrentVersion f = 1 /\ Metadata f = None /\
       uploads log = [RangeRead.standard_key f (UUID f)]).
Proof.
  upload_paths.
  all: intros [= <- <-].
  all: repeat match goal with
         | H : (_ =? _) = false |- _ => apply Z.eqb_neq in H
         | H : (_ =? _) = true |- _ => apply Z.eqb_eq in H
         end.
  all: eexists _, _; split_and!; try eassumption; try reflexivity;
       try (intros; congruence).
  all: intros _; split_and!; reflexivity.
Qed.

Lemma upload_stored_where_read_witness :
  exists log f,
    UploadGate.UploadFile (sample_env 100)
      (Some (UploadGate.mkFileHeader "a.txt" 4 "")) (Some []) 0 "alice" = (log, Done f) /\
    exists fid folder,
      (0 <> 0 -> fid = 0) /\
      UploadGate.FolderGetByID (sample_env 100) fid = inl folder /\
      uploads log =
        ["personal_drive_files/" +:+ UploadGate.FolderOwnerID folder +:+ "/" +:+ UUID f] /\
      deletes log = [] /\
      SizeBytes f = 4 /\
      (UploadGate.CheckFileExists (sample_env 100) fid "a.txt" = inl None ->
         CurrentVersion f = 1 /\ Metadata f = None /\
         uploads log = [RangeRead.standard_key f (UUID f)]).
Proof.
  eexists _, _. split; [vm_compute; reflexivity |].
  apply (upload_stored_where_read (sample_env 100)
           (UploadGate.mkFileHeader "a.txt" 4 "") (Some []) 0 "alice").
  vm_compute. reflexivity.
Defined.

(** X24. When [UploadFile] fails after the object was put, the object
    is deleted again exactly when the failing step is the file row of a
    new file or the version row of a file that existed; a failure of
    the version row of a new file, of the record update or of the
    commit leaves the object in the store. For a file that existed and
    is owned by the owner of the folder, the key put and deleted is the
    key its content is read from. *)
Theorem failed_upload_cleanup (env : UploadGate.Env) (h : UploadGate.FileHeader)
    (file : option (list byte)) (folderID : Z) (userID : string)
    (log : list effect) (e : error) (key : string) :
  UploadGate.UploadFile env (Some h) file folderID userID = (log, Failed e) ->
  uploads log = [key] ->
  UploadGate.S3UploadFile_ env key = None ->
  exists fid folder,
    UploadGate.FolderGetByID env fid = inl folder /\
    match UploadGate.CheckFileExists env fid (UploadGate.Filename h) with
    | inl None =>
        key = "personal_drive_files/" +:+ UploadGate.FolderOwnerID folder
                +:+ "/" +:+ UploadGate.uuid_New env /\
        deletes log =
          match UploadGate.RepoCreate env
                  (mkFile (UploadGate.uuid_New env)
                     (UploadGate.filepath_Clean env (UploadGate.Filename h))
                     (UploadGate.FolderOwnerID folder) (UploadGate.Size h) fid 1 None) with
          | Some _ => [key]
          | None => []
          end
    | inl (Some existing) =>
        key = "personal_drive_files/" +:+ UploadGate.FolderOwnerID folder
                +:+ "/" +:+ UUID existing /\
        (OwnerID existing = UploadGate.FolderOwnerID folder ->
           key = RangeRead.standard_key existing (UUID existing)) /\
        deletes log =
          match UploadGate.CreateFileVersion env (UUID existing)
                  (add64 (CurrentVersion existing) 1) with
          | Some _ => [key]
          | None => []
          end
    | inr _ => False
    end.
Proof.
  upload_paths.
  all: intros [= <- <-]; cbn; try discriminate; intros [= <-]; intros Hput.
  all: try congruence.
  all: eexists _, _; (split; [eassumption |]).
  all: repeat match goal with
         | H : ?x = _ |- context [match ?x with _ => _ end] => rewrite H
         end.
  all: split_and!; try reflexivity; try congruence.
  all: intros Hown; unfold RangeRead.standard_key; rewrite Hown; reflexivity.
Qed.

Lemma failed_upload_cleanup_witness :
  exists log e key,
    UploadGate.UploadFile reupload_env
      (Some (UploadGate.mkFileHeader "a.txt" 9 "")) (Some []) 7 "alice" = (log, Failed e) /\
    uploads log = [key] /\
    UploadGate.S3UploadFile_ reupload_env key = None /\
    key = "personal_drive_files/alice/f1" /\
    deletes log = [key] /\
    exists fid folder,
      UploadGate.FolderGetByID reupload_env fid = inl folder /\
      match UploadGate.CheckFileExists reupload_env fid "a.txt" with
      | inl None =>
          key = "personal_drive_files/" +:+ UploadGate.FolderOwnerID folder
                  +:+ "/" +:+ UploadGate.uuid_New reupload_env /\
          deletes log =
            match UploadGate.RepoCreate reupload_env
                    (mkFile (UploadGate.uuid_New reupload_env)
                       (UploadGate.filepath_Clean reupload_env "a.txt")
                       (UploadGate.FolderOwnerID folder) 9 fid 1 None) with
            | Some _ => [key]
            | None => []
            end
      | inl (Some existing) =>
          key = "personal_drive_files/" +:+ UploadGate.FolderOwnerID folder
                  +:+ "/" +:+ UUID existing /\
          (OwnerID existing = UploadGate.FolderOwnerID folder ->
             key = RangeRead.standard_key existing (UUID existing)) /\
          deletes log =
            match UploadGate.CreateFileVersion reupload_env (UUID existing)
                    (add64 (CurrentVersion existing) 1) with
            | Some _ => [key]
            | None => []
            end
      | inr _ => False
      end.
Proof.
  eexists _, _, _.
  split; [vm_compute; reflexivity |].
  split; [vm_compute; reflexivity |].
  split; [reflexivity |].
  split; [reflexivity |].
  split; [vm_compute; reflexivity |].
  eapply (failed_upload_cleanup reupload_env (UploadGate.mkFileHeader "a.txt" 9 "")
            (Some []) 7 "alice").
  - vm_compute. reflexivity.
  - vm_compute. reflexivity.
  - reflexivity.
Defined.

(** ** The upload handler *)

Lemma add64_one_moves (x : Z) : add64 x 1 <> x.
Proof.
  unfold add64, wrap64.
  change (2 ^ 63) with 9223372036854775808.
  change (2 ^ 64) with 18446744073709551616.
  intros H. Z.div_mod_to_equations. lia.
Qed.

Lemma wrapped_text (pre : string) (c : ascii) (e : error) :
  error_text (Errorf (String c pre) e "") <> "".
Proof. cbn [error_text]. rewrite append_cons. discriminate. Qed.

Lemma length_app_string (a b : string) :
  String.length (a +:+ b) = (String.length a + String.length b)%nat.
Proof. induction a as [| x a IH]; [done |]. rewrite append_cons. cbn. by rewrite IH. Qed.

Lemma same_suffix (a b c : string) : a +:+ c = b +:+ c -> a = b.
Proof.
  intros H.
  assert (Hlen : String.length a = String.length b).
  { apply (f_equal String.length) in H. rewrite !length_app_string in H. lia. }
  revert b H Hlen. induction a as [| x a IH]; intros [| y b] H Hlen; try done.
  rewrite !append_cons in H. injection H as -> H.
  f_equal. apply IH; [done |]. cbn in Hlen. lia.
Qed.

Lemma upload_key_owner (a b uuid : string) :
  "personal_drive_files/" +:+ a +:+ "/" +:+ uuid =
  "personal_drive_files/" +:+ b +:+ "/" +:+ uuid -> a = b.
Proof.
  intros H. apply (inj (String.app _)) in H. by apply same_suffix in H.
Qed.

Ltac version_paths :=
  unfold UploadHandler.UploadFileVersion; run_upload;
  repeat (lazymatch goal with
          | |- context [match ?x with _ => _ end] =>
              let y := pending x in destruct y eqn:?
          end; run_upload).

Section HandlerFacts.
Import UploadGate UploadHandler.

Variable float64 : Type.
Variable constant : Z -> float64.





End HandlerFacts.

(** X25. What the handler reports after a new version of a file was
    stored. [UploadFileVersion] raises the version number through the
    pointer it is given, and the handler adds one to the number it reads
    afterwards: the version reported is the version of the file before
    the upload plus two, never the version of the record reported with
    it, which is the version before plus one. *)
Theorem version_reported_ahead (float64 : Type) (constant : Z -> float64)
    (env : UploadGate.Env) (userID : string) (folderID : Z) (h : UploadGate.FileHeader)
    (file : list byte) (table table' : gmap string (Progress.uploadProgress float64))
    (log : list effect) (res : UploadHandler.UploadResult) (existing : File) :
  UploadGate.CheckFileExists env folderID (UploadGate.Filename h) = inl (Some existing) ->
  UploadHandler.upload_one float64 constant env userID folderID h (inl file) table
    = (log, Done (table', res)) ->
  UploadHandler.ResultError res = "" ->
  exists f,
    UploadHandler.ResultFile res = Some f /\
    UploadHandler.IsNewVersion res = true /\
    SizeBytes f = UploadGate.Size h /\
    CurrentVersion f = add64 (CurrentVersion existing) 1 /\
    UploadHandler.ResultVersion res = add64 (add64 (CurrentVersion existing) 1) 1 /\
    UploadHandler.ResultVersion res <> CurrentVersion f.
Proof.
  intros Hexists. unfold UploadHandler.upload_one. rewrite Hexists.
  version_paths; intros [= <- <- <-]; cbn [UploadHandler.ResultError UploadHandler.failed];
    intros Htext; try (by apply wrapped_text in Htext).
  eexists. split_and!; try reflexivity.
  cbn. apply add64_one_moves.
Qed.

Lemma version_reported_ahead_witness :
  exists log table' res f,
    UploadHandler.upload_one Z id reupload_env "bob" 7
      (UploadGate.mkFileHeader "a.txt" 9 "") (inl []) ∅ = (log, Done (table', res)) /\
    UploadHandler.ResultFile res = Some f /\
    UploadHandler.IsNewVersion res = true /\
    SizeBytes f = 9 /\
    CurrentVersion f = 2 /\
    UploadHandler.ResultVersion res = 3 /\
    UploadHandler.ResultVersion res <> CurrentVersion f.
Proof.
  eexists _, _, _.
  destruct (version_reported_ahead Z id reupload_env "bob" 7
              (UploadGate.mkFileHeader "a.txt" 9 "") [] ∅ _ _ _ _
              eq_refl eq_refl eq_refl) as (f & H).
  exists f. split; [reflexivity | exact H].
Defined.

(** X26. What the handler leaves out when the name uploaded is taken.
    It finds the file, begins a transaction, deletes the preview,
    updates the record and commits: neither the quota nor the
    permission service is asked and no version row is written. The
    object is put under the id of the uploader,
    [personal_drive_files/<userID>/<UUID>], which for an uploader who
    does not own the file is not the key the content of the file is
    read from. *)
Theorem version_path_unchecked (float64 : Type) (constant : Z -> float64)
    (env : UploadGate.Env) (userID : string) (folderID : Z) (h : UploadGate.FileHeader)
    (file : list byte) (table : gmap string (Progress.uploadProgress float64))
    (log : list effect)
    (r : outcome (gmap string (Progress.uploadProgress float64) * UploadHandler.UploadResult))
    (existing : File) :
  UploadGate.CheckFileExists env folderID (UploadGate.Filename h) = inl (Some existing) ->
  UploadHandler.upload_one float64 constant env userID folderID h (inl file) table
    = (log, r) ->
  (forall name, RepoCall name ∈ log ->
     name ∈ ["CheckFileExists"; "BeginTx"; "DeletePreview"; "Update"; "Commit"]) /\
  forall key, key ∈ uploads log ->
    key = "personal_drive_files/" +:+ userID +:+ "/" +:+ UUID existing /\
    (userID <> OwnerID existing -> key <> RangeRead.standard_key existing (UUID existing)).
Proof.
  intros Hexists. unfold UploadHandler.upload_one. rewrite Hexists.
  version_paths; intros [= <- <-].
  all: split;
    [intros name Hin;
     repeat (apply elem_of_cons in Hin as [Heq | Hin];
             [first [discriminate Heq
                    | injection Heq as <-; repeat first [by left | right]] |]);
     by apply elem_of_nil in Hin |].
  all: cbn; intros key Hkey; try (by apply elem_of_nil in Hkey).
  all: apply list_elem_of_singleton in Hkey as ->; (split; [reflexivity |]).
  all: intros Hother Hkey; apply Hother; by apply upload_key_owner in Hkey.
Qed.

Lemma version_path_unchecked_witness :
  exists log r,
    UploadHandler.upload_one Z id reupload_env "bob" 7
      (UploadGate.mkFileHeader "a.txt" 9 "") (inl []) ∅ = (log, r) /\
    "personal_drive_files/bob/f1" ∈ uploads log /\
    (forall name, RepoCall name ∈ log ->
       name ∈ ["CheckFileExists"; "BeginTx"; "DeletePreview"; "Update"; "Commit"]) /\
    forall key, key ∈ uploads log ->
      key = "personal_drive_files/" +:+ "bob" +:+ "/" +:+ "f1" /\
      ("bob" <> "alice" -> key <> "personal_drive_files/alice/f1").
Proof.
  eexists _, _. split; [vm_compute; reflexivity |].
  split; [vm_compute; apply list_elem_of_singleton; reflexivity |].
  exact (version_path_unchecked Z id reupload_env "bob" 7
           (UploadGate.mkFileHeader "a.txt" 9 "") [] ∅ _ _ _ eq_refl eq_refl).
Defined.


